(** * indy_credx Python wrapper: a shallow embedding of [types.py]

    The wrapper classes of [wrappers/python/indy_credx/types.py] are thin
    glue over the native library reached through the [bindings] module.
    The embedding has three layers:

    - a state-and-exception monad [Py] for Python code that calls into the
      library and allocates wrapper objects;
    - the interface [Bindings] of the library calls the wrapper makes, so
      that every wrapper method is defined, and most properties are proved,
      for an arbitrary library;
    - [CoreModel], one concrete library written after the protocol
      description, used where a property is decided by the library itself.
*)

From Stdlib Require Import String List ZArith Bool Arith Lia.
Import ListNotations.
Open Scope string_scope.
Open Scope list_scope.

Set Implicit Arguments.

(** ** Errors and results *)

(** The failures named by the protocol description.  A Python exception
    raised by a library call is a value of this type. *)
Inductive Error : Type :=
| MalformedInput
| KeyGenerationError
| InvalidCredentialDefinition
| AttributeMismatch
| UnblindingError
| NoCredentialsSelected
| MissingAttribute
| UnknownCredentialDefinition.

(** The error taxonomy of the error-handling design. *)
Inductive ErrorKind : Type :=
| KMalformedInput
| KSchemaMismatch
| KInvalidProof
| KKeyGenerationFailure
| KBindingMismatch
| KWiringError.

(** The kind of a failure, where the description relates the two. *)
Definition error_kind (e : Error) : option ErrorKind :=
  match e with
  | MalformedInput => Some KMalformedInput
  | KeyGenerationError => Some KKeyGenerationFailure
  | AttributeMismatch => Some KSchemaMismatch
  | UnblindingError => Some KBindingMismatch
  | UnknownCredentialDefinition => Some KWiringError
  | InvalidCredentialDefinition => None
  | NoCredentialsSelected => None
  | MissingAttribute => None
  end.

Inductive Result (A : Type) : Type :=
| Ok (a : A)
| Raise (e : Error).

Arguments Ok {A} a.
Arguments Raise {A} e.

(** ** Objects *)

(** [bindings.ObjectHandle]: an opaque index into the library's arena. *)
Definition ObjectHandle := nat.

(** The wrapper classes deriving from [bindings.IndyObject]. *)
Inductive Class : Type :=
| CSchema
| CCredentialDefinition
| CCredentialDefinitionPrivate
| CKeyCorrectnessProof
| CMasterSecret
| CCredentialOffer
| CCredentialRequest
| CCredentialRequestMetadata
| CCredential
| CPresentationRequest
| CPresentation.

Definition Class_eqb (a b : Class) : bool :=
  match a, b with
  | CSchema, CSchema
  | CCredentialDefinition, CCredentialDefinition
  | CCredentialDefinitionPrivate, CCredentialDefinitionPrivate
  | CKeyCorrectnessProof, CKeyCorrectnessProof
  | CMasterSecret, CMasterSecret
  | CCredentialOffer, CCredentialOffer
  | CCredentialRequest, CCredentialRequest
  | CCredentialRequestMetadata, CCredentialRequestMetadata
  | CCredential, CCredential
  | CPresentationRequest, CPresentationRequest
  | CPresentation, CPresentation => true
  | _, _ => false
  end.

(** A live wrapper object: its Python identity, its class and the handle
    it was constructed around.  No wrapper method ever assigns to
    [self.handle], so the record is immutable. *)
Record IndyObject : Type := {
  oid : nat;
  cls : Class;
  handle : ObjectHandle
}.

(** Python's default equality and hash of an object are its identity. *)
Definition obj_eqb (a b : IndyObject) : bool := Nat.eqb (oid a) (oid b).

(** [Mapping[str, str]] *)
Definition StrMapping := list (string * string).

(** The optional revocation argument of [create_credential]; the wrapper
    always passes [None]. *)
Variant RevocationConfig : Type :=
| revocation_config (registry : ObjectHandle).

(** [bindings.CredentialProve]: one entry of the prove list, built by its
    two class methods [attribute] and [predicate]. *)
Module CredentialProve.
Inductive t : Type :=
| attribute (entry_idx : nat) (referent : string) (reveal : bool)
            (timestamp : option Z)
| predicate (entry_idx : nat) (referent : string) (timestamp : option Z).

Definition entry_idx (e : t) : nat :=
  match e with
  | attribute i _ _ _ => i
  | predicate i _ _ => i
  end.

Definition referent (e : t) : string :=
  match e with
  | attribute _ r _ _ => r
  | predicate _ r _ => r
  end.

Definition is_predicate (e : t) : bool :=
  match e with
  | attribute _ _ _ _ => false
  | predicate _ _ _ => true
  end.
End CredentialProve.

(** ** The library interface *)

(** A library call runs in the library's own state [W] (its arena and its
    random generator) and either returns or raises. *)
Definition Lib (W A : Type) : Type := W -> Result A * W.

(** The functions of [bindings] that [types.py] calls, plus [json.dumps]
    on the dictionary form of a presentation request. *)
Class Bindings (W : Type) : Type := {
  JsonDict : Type;
  json_dumps : JsonDict -> string;

  create_schema :
    string -> string -> string -> list string -> option Z -> Lib W ObjectHandle;
  create_credential_definition :
    string -> ObjectHandle -> option string -> string -> bool ->
    Lib W (ObjectHandle * ObjectHandle * ObjectHandle);
  create_credential_offer :
    string -> ObjectHandle -> ObjectHandle -> Lib W ObjectHandle;
  create_credential_request :
    string -> ObjectHandle -> ObjectHandle -> string -> ObjectHandle ->
    Lib W (ObjectHandle * ObjectHandle);
  create_credential :
    ObjectHandle -> ObjectHandle -> ObjectHandle -> ObjectHandle ->
    StrMapping -> option StrMapping -> option RevocationConfig ->
    Lib W ObjectHandle;
  process_credential :
    ObjectHandle -> ObjectHandle -> ObjectHandle -> ObjectHandle ->
    option ObjectHandle -> Lib W ObjectHandle;
  create_master_secret : Lib W ObjectHandle;
  create_presentation :
    ObjectHandle -> StrMapping -> list ObjectHandle ->
    list CredentialProve.t -> ObjectHandle ->
    list ObjectHandle -> list ObjectHandle -> Lib W ObjectHandle;

  schema_from_json : string -> Lib W ObjectHandle;
  credential_definition_from_json : string -> Lib W ObjectHandle;
  credential_definition_private_from_json : string -> Lib W ObjectHandle;
  key_correctness_proof_from_json : string -> Lib W ObjectHandle;
  master_secret_from_json : string -> Lib W ObjectHandle;
  credential_offer_from_json : string -> Lib W ObjectHandle;
  credential_request_from_json : string -> Lib W ObjectHandle;
  credential_request_metadata_from_json : string -> Lib W ObjectHandle;
  credential_from_json : string -> Lib W ObjectHandle;
  presentation_request_from_json : string -> Lib W ObjectHandle;
  presentation_from_json : string -> Lib W ObjectHandle;

  schema_get_id : ObjectHandle -> Lib W string;
  credential_definition_get_id : ObjectHandle -> Lib W string
}.

(** ** The monad of wrapper code *)

(** The state a wrapper method runs in: the counter from which Python
    hands out object identities, and the library's state. *)
Record Runtime (W : Type) : Type := {
  next_oid : nat;
  world : W
}.

(** Wrapper code is library-style code over the larger state. *)
Definition Py (W A : Type) : Type := Lib (Runtime W) A.

Definition ret {S A} (a : A) : Lib S A := fun s => (Ok a, s).

(** Sequencing; an exception skips the rest and keeps the state reached. *)
Definition bind {S A B} (m : Lib S A) (k : A -> Lib S B) : Lib S B :=
  fun s =>
    match m s with
    | (Ok a, s') => k a s'
    | (Raise e, s') => (Raise e, s')
    end.

Definition raise {S A} (e : Error) : Lib S A := fun s => (Raise e, s).

Declare Scope py_scope.
Delimit Scope py_scope with py.
Notation "x <- m ;; k" := (bind m (fun x => k))
  (at level 61, m at next level, right associativity) : py_scope.
Notation "' p <- m ;; k" := (bind m (fun p => k))
  (at level 61, p pattern, m at next level, right associativity) : py_scope.
Open Scope py_scope.

(** A call into the library: the object counter is untouched. *)
Definition call {W A} (f : Lib W A) : Py W A :=
  fun rt =>
    let (r, w') := f (world rt) in
    (r, {| next_oid := next_oid rt; world := w' |}).

(** [Cls(handle)]: instantiating a wrapper class around a handle. *)
Definition construct {W} (c : Class) (h : ObjectHandle) : Py W IndyObject :=
  fun rt =>
    (Ok {| oid := next_oid rt; cls := c; handle := h |},
     {| next_oid := S (next_oid rt); world := world rt |}).

(** [mapM]: a list comprehension whose element expression has effects. *)
Fixpoint for_each {S A B} (f : A -> Lib S B) (l : list A) : Lib S (list B) :=
  match l with
  | [] => ret []
  | a :: r => b <- f a ;; bs <- for_each f r ;; ret (b :: bs)
  end.

(** An argument annotated [[str, Cls]]: the serialized form or the live
    object. *)
Definition StrOr (A : Type) : Type := (string + A)%type.
Definition Str {A} (s : string) : StrOr A := inl s.
Definition Obj {A} (o : A) : StrOr A := inr o.

(** The statement [if isinstance(x, str): x = Cls.from_json(x)]. *)
Definition coerce {W} (from_json : string -> Py W IndyObject)
  (x : StrOr IndyObject) : Py W IndyObject :=
  match x with
  | inl value => from_json value
  | inr o => ret o
  end.

(** ** The wrapper classes *)

Module Schema.
Section Methods.
Context {W : Type} {B : Bindings W}.

Definition create (origin_did name version : string)
  (attr_names : list string) (seq_no : option Z) : Py W IndyObject :=
  h <- call (create_schema origin_did name version attr_names seq_no) ;;
  construct CSchema h.

Definition from_json (value : string) : Py W IndyObject :=
  h <- call (schema_from_json value) ;;
  construct CSchema h.

Definition id (self : IndyObject) : Py W string :=
  call (schema_get_id (handle self)).

End Methods.
End Schema.

Module CredentialDefinitionPrivate.
Section Methods.
Context {W : Type} {B : Bindings W}.

Definition from_json (value : string) : Py W IndyObject :=
  h <- call (credential_definition_private_from_json value) ;;
  construct CCredentialDefinitionPrivate h.

End Methods.
End CredentialDefinitionPrivate.

Module KeyCorrectnessProof.
Section Methods.
Context {W : Type} {B : Bindings W}.

Definition from_json (value : string) : Py W IndyObject :=
  h <- call (key_correctness_proof_from_json value) ;;
  construct CKeyCorrectnessProof h.

End Methods.
End KeyCorrectnessProof.

Module MasterSecret.
Section Methods.
Context {W : Type} {B : Bindings W}.

Definition create : Py W IndyObject :=
  h <- call create_master_secret ;;
  construct CMasterSecret h.

Definition from_json (value : string) : Py W IndyObject :=
  h <- call (master_secret_from_json value) ;;
  construct CMasterSecret h.

End Methods.
End MasterSecret.

Module CredentialDefinition.
Section Methods.
Context {W : Type} {B : Bindings W}.

Definition from_json (value : string) : Py W IndyObject :=
  h <- call (credential_definition_from_json value) ;;
  construct CCredentialDefinition h.

Definition create (origin_did : string) (schema : StrOr IndyObject)
  (signature_type : string) (support_revocation : bool)
  (tag : option string) : Py W (IndyObject * IndyObject * IndyObject) :=
  schema <- coerce Schema.from_json schema ;;
  '(cred_def, cred_def_pvt, key_proof) <-
    call (create_credential_definition
            origin_did (handle schema) tag signature_type support_revocation) ;;
  o1 <- construct CCredentialDefinition cred_def ;;
  o2 <- construct CCredentialDefinitionPrivate cred_def_pvt ;;
  o3 <- construct CKeyCorrectnessProof key_proof ;;
  ret (o1, o2, o3).

Definition id (self : IndyObject) : Py W string :=
  call (credential_definition_get_id (handle self)).

End Methods.
End CredentialDefinition.

Module CredentialOffer.
Section Methods.
Context {W : Type} {B : Bindings W}.

Definition from_json (value : string) : Py W IndyObject :=
  h <- call (credential_offer_from_json value) ;;
  construct CCredentialOffer h.

Definition create (schema_id : string)
  (cred_def key_proof : StrOr IndyObject) : Py W IndyObject :=
  cred_def <- coerce CredentialDefinition.from_json cred_def ;;
  key_proof <- coerce KeyCorrectnessProof.from_json key_proof ;;
  h <- call (create_credential_offer
               schema_id (handle cred_def) (handle key_proof)) ;;
  construct CCredentialOffer h.

End Methods.
End CredentialOffer.

Module CredentialRequestMetadata.
Section Methods.
Context {W : Type} {B : Bindings W}.

Definition from_json (value : string) : Py W IndyObject :=
  h <- call (credential_request_metadata_from_json value) ;;
  construct CCredentialRequestMetadata h.

End Methods.
End CredentialRequestMetadata.

Module CredentialRequest.
Section Methods.
Context {W : Type} {B : Bindings W}.

Definition from_json (value : string) : Py W IndyObject :=
  h <- call (credential_request_from_json value) ;;
  construct CCredentialRequest h.

Definition create (prover_did : string)
  (cred_def master_secret : StrOr IndyObject) (master_secret_id : string)
  (cred_offer : StrOr IndyObject) : Py W (IndyObject * IndyObject) :=
  cred_def <- coerce CredentialDefinition.from_json cred_def ;;
  master_secret <- coerce MasterSecret.from_json master_secret ;;
  cred_offer <- coerce CredentialOffer.from_json cred_offer ;;
  '(cred_def, cred_def_metadata) <-
    call (create_credential_request
            prover_did (handle cred_def) (handle master_secret)
            master_secret_id (handle cred_offer)) ;;
  o1 <- construct CCredentialRequest cred_def ;;
  o2 <- construct CCredentialRequestMetadata cred_def_metadata ;;
  ret (o1, o2).

End Methods.
End CredentialRequest.

Module Credential.
Section Methods.
Context {W : Type} {B : Bindings W}.

Definition create
  (cred_def cred_def_private cred_offer cred_request : StrOr IndyObject)
  (attr_raw_values : StrMapping) (attr_enc_values : option StrMapping)
  : Py W IndyObject :=
  cred_def <- coerce CredentialDefinition.from_json cred_def ;;
  cred_def_private <-
    coerce CredentialDefinitionPrivate.from_json cred_def_private ;;
  cred_offer <- coerce CredentialOffer.from_json cred_offer ;;
  cred_request <- coerce CredentialRequest.from_json cred_request ;;
  h <- call (create_credential
               (handle cred_def) (handle cred_def_private)
               (handle cred_offer) (handle cred_request)
               attr_raw_values attr_enc_values None) ;;
  construct CCredential h.

Definition process (self : IndyObject)
  (cred_req_metadata master_secret cred_def : StrOr IndyObject)
  : Py W IndyObject :=
  cred_req_metadata <-
    coerce CredentialRequestMetadata.from_json cred_req_metadata ;;
  master_secret <- coerce MasterSecret.from_json master_secret ;;
  cred_def <- coerce CredentialDefinition.from_json cred_def ;;
  h <- call (process_credential
               (handle self) (handle cred_req_metadata)
               (handle master_secret) (handle cred_def) None) ;;
  construct CCredential h.

(** The source wraps the handle in [CredentialDefinition]. *)
Definition from_json (value : string) : Py W IndyObject :=
  h <- call (credential_from_json value) ;;
  construct CCredentialDefinition h.

End Methods.
End Credential.

Module PresentationRequest.
Section Methods.
Context {W : Type} {B : Bindings W}.

(** [value] is a dictionary or a string; a dictionary is dumped first. *)
Definition from_json (value : JsonDict + string) : Py W IndyObject :=
  let value := match value with
               | inl d => json_dumps d
               | inr s => s
               end in
  h <- call (presentation_request_from_json value) ;;
  construct CPresentationRequest h.

End Methods.
End PresentationRequest.

(** ** Python dictionaries *)

(** A [dict] keeps its keys in insertion order and the loops of
    [Presentation.create] depend on that order, so a dictionary is the
    list of its items, each key occurring once. *)
Section Dict.
Variables (K V : Type) (eqb : K -> K -> bool).

Definition dict := list (K * V).

(** [d.get(k)] *)
Fixpoint dict_get (d : dict) (k : K) : option V :=
  match d with
  | [] => None
  | (k', v) :: r => if eqb k k' then Some v else dict_get r k
  end.

(** [k in d] *)
Definition dict_contains (d : dict) (k : K) : bool :=
  match dict_get d k with
  | Some _ => true
  | None => false
  end.

(** [d[k] = v]: an existing key keeps its place, a new key goes last. *)
Fixpoint dict_set (d : dict) (k : K) (v : V) : dict :=
  match d with
  | [] => [(k, v)]
  | (k', v') :: r =>
      if eqb k k' then (k', v) :: r else (k', v') :: dict_set r k v
  end.

(** [d.update(other)] *)
Definition dict_update (d other : dict) : dict :=
  fold_left (fun acc kv => dict_set acc (fst kv) (snd kv)) other d.

(** An in-place change of the value stored under [k], as in
    [d[k][0][r] = x].  Python raises [KeyError] when [k] is absent; both
    callers below create the entry first. *)
Fixpoint dict_alter (f : V -> V) (d : dict) (k : K) : dict :=
  match d with
  | [] => []
  | (k', v) :: r =>
      if eqb k k' then (k', f v) :: r else (k', v) :: dict_alter f r k
  end.

Definition keys (d : dict) : list K := map fst d.

End Dict.

Module PresentCredentials.

Definition AttrDict := dict string (bool * option Z).
Definition PredDict := dict string (option Z).

(** The two attributes set by [__init__]. *)
Record t : Type := {
  creds : dict IndyObject (AttrDict * PredDict);
  self_attest : StrMapping
}.

Definition init : t := {| creds := []; self_attest := [] |}.

Definition add_self_attested (self : t) (attest : StrMapping) : t :=
  match attest with
  | [] => self
  | _ =>
      {| creds := creds self;
         self_attest := dict_update String.eqb (self_attest self) attest |}
  end.

(** [if cred not in self.creds: self.creds[cred] = ({}, {})] *)
Definition ensure_entry (cs : dict IndyObject (AttrDict * PredDict))
  (cred : IndyObject) : dict IndyObject (AttrDict * PredDict) :=
  if negb (dict_contains obj_eqb cs cred)
  then dict_set obj_eqb cs cred ([], [])
  else cs.

Definition add_attributes (self : t) (cred : IndyObject)
  (referents : list string) (reveal : bool) (timestamp : option Z) : t :=
  match referents with
  | [] => self
  | _ =>
      {| creds :=
           fold_left
             (fun cs reft =>
                dict_alter obj_eqb
                  (fun e => (dict_set String.eqb (fst e) reft
                               (reveal, timestamp), snd e))
                  cs cred)
             referents (ensure_entry (creds self) cred);
         self_attest := self_attest self |}
  end.

Definition add_predicates (self : t) (cred : IndyObject)
  (referents : list string) (timestamp : option Z) : t :=
  match referents with
  | [] => self
  | _ =>
      {| creds :=
           fold_left
             (fun cs reft =>
                dict_alter obj_eqb
                  (fun e => (fst e,
                             dict_set String.eqb (snd e) reft timestamp))
                  cs cred)
             referents (ensure_entry (creds self) cred);
         self_attest := self_attest self |}
  end.

End PresentCredentials.

Module Presentation.

(** One round of the loop over [present_creds.creds.items()]. *)
Definition prove_step
  (acc : list ObjectHandle * list CredentialProve.t)
  (item : IndyObject *
          (PresentCredentials.AttrDict * PresentCredentials.PredDict))
  : list ObjectHandle * list CredentialProve.t :=
  let '(creds, creds_prove) := acc in
  let '(cred, (attrs, preds)) := item in
  let idx := length creds in
  let creds := creds ++ [handle cred] in
  let creds_prove :=
    fold_left
      (fun cp a =>
         let '(reft, (reveal, timestamp)) := a in
         cp ++ [CredentialProve.attribute idx reft reveal timestamp])
      attrs creds_prove in
  let creds_prove :=
    fold_left
      (fun cp p =>
         let '(reft, timestamp) := p in
         cp ++ [CredentialProve.predicate idx reft timestamp])
      preds creds_prove in
  (creds, creds_prove).

(** The whole loop, from [creds = []] and [creds_prove = []]. *)
Definition prove_lists (present_creds : PresentCredentials.t)
  : list ObjectHandle * list CredentialProve.t :=
  fold_left prove_step (PresentCredentials.creds present_creds) ([], []).

Section Methods.
Context {W : Type} {B : Bindings W}.

Definition from_json (value : string) : Py W IndyObject :=
  h <- call (presentation_from_json value) ;;
  construct CPresentation h.

Definition create (pres_req : StrOr IndyObject)
  (present_creds : PresentCredentials.t)
  (master_secret : StrOr IndyObject)
  (schemas cred_defs : list (StrOr IndyObject)) : Py W IndyObject :=
  pres_req <-
    coerce (fun s => PresentationRequest.from_json (inr s)) pres_req ;;
  master_secret <- coerce MasterSecret.from_json master_secret ;;
  schemas <-
    for_each (fun s => o <- coerce Schema.from_json s ;; ret (handle o))
             schemas ;;
  cred_defs <-
    for_each (fun c => o <- coerce CredentialDefinition.from_json c ;;
                       ret (handle o))
             cred_defs ;;
  let '(creds, creds_prove) := prove_lists present_creds in
  h <- call (create_presentation
               (handle pres_req)
               (PresentCredentials.self_attest present_creds)
               creds creds_prove
               (handle master_secret) schemas cred_defs) ;;
  construct CPresentation h.

End Methods.
End Presentation.

(** ** A model of the native library *)

(** The library behind [bindings] is not part of the wrapper.  [CoreModel]
    is a library written after the protocol description; the numeric
    cryptography, the random source and the JSON codec are left as the
    primitives below. *)
Module CoreModel.

Inductive Comparator : Type := GE | GT | LE | LT.

(** One per-credential segment of a presentation. *)
Record SubProof : Type := {
  sp_schema_id : string;
  sp_cred_def_id : string;
  sp_revealed : StrMapping;
  sp_predicates : list string;
  sp_commitment : Z;
  sp_response : Z
}.

(** The entities of the data model, as they live in the arena. *)
Inductive Object : Type :=
| OSchema (issuer name version : string) (attr_names : list string)
          (seq_no : option Z)
| OCredentialDefinition (issuer schema_id tag signature_type : string)
                        (revocation : bool) (attr_names : list string)
                        (public_key : Z)
| OCredentialDefinitionPrivate (private_key : Z)
| OKeyCorrectnessProof (proof : Z)
| OMasterSecret (ms : Z)
| OCredentialOffer (schema_id cred_def_id : string) (nonce : Z)
| OCredentialRequest (prover_did cred_def_id : string) (commitment : Z)
                     (nonce : Z)
| OCredentialRequestMetadata (blinding : Z) (nonce : Z)
                             (master_secret_name : string)
| OCredential (schema_id cred_def_id : string)
              (values : list (string * (string * string)))
              (commitment : Z) (signature : Z) (blinded : bool)
| OPresentationRequest (nonce : Z)
                       (requested_attributes : StrMapping)
                       (requested_predicates :
                          list (string * (string * Comparator * Z)))
| OPresentation (sub_proofs : list SubProof) (self_attested : StrMapping)
                (challenge : Z).

(** The arena of objects addressed by handle, and the position in the
    random stream. *)
Record World : Type := {
  arena : list Object;
  drawn : nat
}.

(** What the model does not compute itself. *)
Class Primitives : Type := {
  (** the random source, as the stream of its outputs *)
  random : nat -> Z;
  (** the canonical-text codec and the consistency check of a decoded
      object *)
  encode : Object -> string;
  decode : string -> option Object;
  consistent : Object -> bool;
  (** identifier formatting *)
  schema_id_of : string -> string -> string -> string;
  cred_def_id_of : string -> string -> string -> string;
  (** key generation: the tag of a definition created without one, the
      retry bound of the prime search, the test a candidate must pass,
      the public key and the correctness proof of a secret *)
  default_tag : string;
  max_retries : nat;
  prime_form : Z -> bool;
  public_of : Z -> Z;
  correctness_proof_of : Z -> Z;
  (** issuance: the test of a public key, the blinded commitment to a
      master secret, the encoding of a raw value, signing, unblinding *)
  key_ok : Z -> bool;
  commit : Z -> Z -> Z -> Z;
  encode_attr : string -> string;
  sign : Z -> Z -> list (string * (string * string)) -> Z;
  unblind : Z -> Z -> Z;
  (** presentation: the challenge hash, the response of a sub-proof and
      its check against a public key *)
  hash : list Z -> Z;
  respond : Z -> Z -> Z -> Z -> Z;
  check_response : Z -> list string -> SubProof -> Z -> bool
}.

Definition lookup (h : ObjectHandle) : Lib World (option Object) :=
  fun w => (Ok (nth_error (arena w) h), w).

(** A new object goes to the end of the arena; its handle is its index. *)
Definition alloc (o : Object) : Lib World ObjectHandle :=
  fun w =>
    (Ok (length (arena w)),
     {| arena := arena w ++ [o]; drawn := drawn w |}).

(** The list with the element at position [n] replaced; a position past
    the end changes nothing. *)
Fixpoint replace_at {A} (n : nat) (x : A) (l : list A) : list A :=
  match l, n with
  | [], _ => []
  | _ :: r, O => x :: r
  | a :: r, S n' => a :: replace_at n' x r
  end.

(** The object under an existing handle is overwritten where it is. *)
Definition store (h : ObjectHandle) (o : Object) : Lib World unit :=
  fun w =>
    (Ok tt, {| arena := replace_at h o (arena w); drawn := drawn w |}).

Definition mem (s : string) (l : list string) : bool :=
  existsb (String.eqb s) l.

Definition same_names (a b : list string) : bool :=
  forallb (fun x => mem x b) a && forallb (fun x => mem x a) b.

Definition get_schema (h : ObjectHandle) : Lib World Object :=
  o <- lookup h ;;
  match o with
  | Some (OSchema i n v a q) => ret (OSchema i n v a q)
  | _ => raise MalformedInput
  end.

Definition get_cred_def (h : ObjectHandle) : Lib World Object :=
  o <- lookup h ;;
  match o with
  | Some (OCredentialDefinition i s t g r a k) =>
      ret (OCredentialDefinition i s t g r a k)
  | _ => raise MalformedInput
  end.

Definition get_credential (h : ObjectHandle) : Lib World Object :=
  o <- lookup h ;;
  match o with
  | Some (OCredential s c v m g b) => ret (OCredential s c v m g b)
  | _ => raise MalformedInput
  end.

Section Operations.
Context `{Primitives}.

Definition draw : Lib World Z :=
  fun w =>
    (Ok (random (drawn w)),
     {| arena := arena w; drawn := S (drawn w) |}).

(** Identifier of a schema or credential definition held in the arena. *)
Definition object_id (o : Object) : option string :=
  match o with
  | OSchema i n v _ _ => Some (schema_id_of i n v)
  | OCredentialDefinition i s t _ _ _ _ => Some (cred_def_id_of i s t)
  | _ => None
  end.

(** *** Schema *)

(** Modelled from the spec: [bindings.create_schema], absent from the
    wrapper.  A schema is pure data: the issuer, the name, the version,
    the attribute names and the optional sequence number. *)
Definition m_create_schema (origin_did name version : string)
  (attr_names : list string) (seq_no : option Z) : Lib World ObjectHandle :=
  alloc (OSchema origin_did name version attr_names seq_no).

(** Modelled from the spec: [bindings.schema_get_id], absent from the
    wrapper.  The identifier is derived from the issuer, the name and the
    version. *)
Definition m_schema_get_id (h : ObjectHandle) : Lib World string :=
  o <- lookup h ;;
  match o with
  | Some (OSchema i n v _ _) => ret (schema_id_of i n v)
  | _ => raise MalformedInput
  end.

(** *** Key generation *)

(** The prime search: draw candidates until one has the required form,
    at most [fuel] times. *)
Fixpoint search_secret (fuel : nat) : Lib World Z :=
  match fuel with
  | O => raise KeyGenerationError
  | S fuel' =>
      c <- draw ;;
      if prime_form c then ret c else search_secret fuel'
  end.

(** Modelled from the spec: [bindings.create_credential_definition],
    absent from the wrapper.  Key generation over a schema: a bounded
    prime search, then the public definition, the private key and the
    correctness proof, created together. *)
Definition m_create_credential_definition (origin_did : string)
  (schema : ObjectHandle) (tag : option string) (signature_type : string)
  (support_revocation : bool)
  : Lib World (ObjectHandle * ObjectHandle * ObjectHandle) :=
  s <- get_schema schema ;;
  match s with
  | OSchema i n v attrs _ =>
      sk <- search_secret max_retries ;;
      let t := match tag with Some t => t | None => default_tag end in
      cd <- alloc (OCredentialDefinition
                     origin_did (schema_id_of i n v) t signature_type
                     support_revocation attrs (public_of sk)) ;;
      pv <- alloc (OCredentialDefinitionPrivate sk) ;;
      kp <- alloc (OKeyCorrectnessProof (correctness_proof_of sk)) ;;
      ret (cd, pv, kp)
  | _ => raise MalformedInput
  end.

(** Modelled from the spec: [bindings.credential_definition_get_id],
    absent from the wrapper.  The identifier is derived from the issuer,
    the schema identifier and the tag. *)
Definition m_credential_definition_get_id (h : ObjectHandle)
  : Lib World string :=
  o <- lookup h ;;
  match o with
  | Some (OCredentialDefinition i s t _ _ _ _) => ret (cred_def_id_of i s t)
  | _ => raise MalformedInput
  end.

(** *** Issuance *)

(** Modelled from the spec: [bindings.create_master_secret], absent from
    the wrapper.  A master secret is one random number. *)
Definition m_create_master_secret : Lib World ObjectHandle :=
  m <- draw ;;
  alloc (OMasterSecret m).

(** Modelled from the spec: [bindings.create_credential_offer], absent
    from the wrapper.  Offer: a fresh nonce bound to the two
    identifiers. *)
Definition m_create_credential_offer (schema_id : string)
  (cred_def key_proof : ObjectHandle) : Lib World ObjectHandle :=
  cd <- get_cred_def cred_def ;;
  kp <- lookup key_proof ;;
  match cd, kp with
  | OCredentialDefinition i s t _ _ _ _, Some (OKeyCorrectnessProof _) =>
      n <- draw ;;
      alloc (OCredentialOffer schema_id (cred_def_id_of i s t) n)
  | _, _ => raise MalformedInput
  end.

(** Modelled from the spec: [bindings.create_credential_request], absent
    from the wrapper.  Request: the blinded commitment to the master
    secret, and the blinding factor kept on the holder's side; a malformed
    public key is [InvalidCredentialDefinition]. *)
Definition m_create_credential_request (prover_did : string)
  (cred_def master_secret : ObjectHandle) (master_secret_id : string)
  (cred_offer : ObjectHandle) : Lib World (ObjectHandle * ObjectHandle) :=
  cd <- get_cred_def cred_def ;;
  m <- lookup master_secret ;;
  o <- lookup cred_offer ;;
  match cd, m, o with
  | OCredentialDefinition i s t _ _ _ pk,
    Some (OMasterSecret ms), Some (OCredentialOffer _ _ n) =>
      if key_ok pk then
        v <- draw ;;
        rq <- alloc (OCredentialRequest
                       prover_did (cred_def_id_of i s t) (commit pk ms v) n) ;;
        md <- alloc (OCredentialRequestMetadata v n master_secret_id) ;;
        ret (rq, md)
      else raise InvalidCredentialDefinition
  | _, _, _ => raise MalformedInput
  end.

(** The encoded value of an attribute: the supplied one, else the one
    derived from the raw value. *)
Definition encoded_value (enc : option StrMapping) (name raw : string)
  : string :=
  match enc with
  | Some e =>
      match dict_get String.eqb e name with
      | Some x => x
      | None => encode_attr raw
      end
  | None => encode_attr raw
  end.

(** Modelled from the spec: [bindings.create_credential], absent from the
    wrapper.  Issue: sign the commitment of the request with the
    attribute values; names that differ from the declared ones are
    [AttributeMismatch]. *)
Definition m_create_credential
  (cred_def cred_def_private cred_offer cred_request : ObjectHandle)
  (attr_raw_values : StrMapping) (attr_enc_values : option StrMapping)
  (revocation : option RevocationConfig) : Lib World ObjectHandle :=
  cd <- get_cred_def cred_def ;;
  pv <- lookup cred_def_private ;;
  o <- lookup cred_offer ;;
  r <- lookup cred_request ;;
  match cd, pv, o, r with
  | OCredentialDefinition _ _ _ _ _ attrs _,
    Some (OCredentialDefinitionPrivate sk),
    Some (OCredentialOffer sid cid _),
    Some (OCredentialRequest _ _ c _) =>
      if same_names (keys attr_raw_values) attrs then
        let values :=
          map (fun kv =>
                 (fst kv,
                  (snd kv, encoded_value attr_enc_values (fst kv) (snd kv))))
              attr_raw_values in
        alloc (OCredential sid cid values c (sign sk c values) true)
      else raise AttributeMismatch
  | _, _, _, _ => raise MalformedInput
  end.

(** Modelled from the spec: [bindings.process_credential], absent from the
    wrapper.  Process: the commitment rebuilt from the metadata and the
    master secret must be the one the credential was signed over, else
    [UnblindingError]; the credential is unblinded in place, as the data
    model has it, so the object under the given handle is overwritten and
    that handle is the one returned. *)
Definition m_process_credential
  (cred cred_req_metadata master_secret cred_def : ObjectHandle)
  (rev_reg_def : option ObjectHandle) : Lib World ObjectHandle :=
  c <- get_credential cred ;;
  md <- lookup cred_req_metadata ;;
  m <- lookup master_secret ;;
  cd <- get_cred_def cred_def ;;
  match c, md, m, cd with
  | OCredential sid cid values cm sg _,
    Some (OCredentialRequestMetadata v _ _),
    Some (OMasterSecret ms),
    OCredentialDefinition _ _ _ _ _ _ pk =>
      if Z.eqb (commit pk ms v) cm then
        _ <- store cred (OCredential sid cid values cm (unblind sg v) false) ;;
        ret cred
      else raise UnblindingError
  | _, _, _, _ => raise MalformedInput
  end.

(** *** Presentation *)

Definition attribute_referents (cp : list CredentialProve.t) : list string :=
  map CredentialProve.referent
      (filter (fun e => negb (CredentialProve.is_predicate e)) cp).

Definition predicate_referents (cp : list CredentialProve.t) : list string :=
  map CredentialProve.referent (filter CredentialProve.is_predicate cp).

Definition credential_names (o : Object) : list string :=
  match o with
  | OCredential _ _ values _ _ _ => keys values
  | _ => []
  end.

(** Every requested referent is answered by a selected credential or,
    for an attribute, by a self-attested value. *)
Definition all_selected (ras : StrMapping)
  (rps : list (string * (string * Comparator * Z)))
  (self_attest : StrMapping) (cp : list CredentialProve.t) : bool :=
  forallb (fun ra => mem (fst ra) (attribute_referents cp)
                     || mem (fst ra) (keys self_attest)) ras
  && forallb (fun rp => mem (fst rp) (predicate_referents cp)) rps.

(** The attribute names requested under the referents that credentials
    answer. *)
Definition requested_names (ras : StrMapping)
  (rps : list (string * (string * Comparator * Z)))
  (cp : list CredentialProve.t) : list string :=
  map snd (filter (fun ra => mem (fst ra) (attribute_referents cp)) ras)
  ++ map (fun rp => fst (fst (snd rp)))
         (filter (fun rp => mem (fst rp) (predicate_referents cp)) rps).

Definition all_present (names : list string) (cs : list Object) : bool :=
  forallb (fun n => existsb (fun c => mem n (credential_names c)) cs) names.

(** The value revealed for an entry of credential [idx], if it is a
    revealed attribute whose requested name the credential carries. *)
Definition revealed_value (ras : StrMapping)
  (values : list (string * (string * string))) (idx : nat)
  (e : CredentialProve.t) : option (string * string) :=
  match e with
  | CredentialProve.attribute i reft true _ =>
      if Nat.eqb i idx then
        match dict_get String.eqb ras reft with
        | Some name =>
            match dict_get String.eqb values name with
            | Some (raw, _) => Some (reft, raw)
            | None => None
            end
        | None => None
        end
      else None
  | _ => None
  end.

Fixpoint filter_map {A B} (f : A -> option B) (l : list A) : list B :=
  match l with
  | [] => []
  | a :: r =>
      match f a with
      | Some b => b :: filter_map f r
      | None => filter_map f r
      end
  end.

(** The segment of the credential at position [idx], with commitment [t]
    and the shared challenge [c]. *)
Definition sub_proof (ras : StrMapping) (cp : list CredentialProve.t)
  (ms c : Z) (idx : nat) (cred : Object) (t : Z) : SubProof :=
  match cred with
  | OCredential sid cid values _ sg _ =>
      {| sp_schema_id := sid;
         sp_cred_def_id := cid;
         sp_revealed := filter_map (revealed_value ras values idx) cp;
         sp_predicates :=
           map CredentialProve.referent
               (filter (fun e => CredentialProve.is_predicate e
                                 && Nat.eqb (CredentialProve.entry_idx e) idx)
                       cp);
         sp_commitment := t;
         sp_response := respond ms sg t c |}
  | _ =>
      {| sp_schema_id := ""; sp_cred_def_id := ""; sp_revealed := [];
         sp_predicates := []; sp_commitment := t; sp_response := 0%Z |}
  end.

Fixpoint sub_proofs_from (ras : StrMapping) (cp : list CredentialProve.t)
  (ms c : Z) (idx : nat) (cs : list Object) (ts : list Z) : list SubProof :=
  match cs, ts with
  | cred :: cs', t :: ts' =>
      sub_proof ras cp ms c idx cred t
      :: sub_proofs_from ras cp ms c (S idx) cs' ts'
  | _, _ => []
  end.

(** Modelled from the spec: [bindings.create_presentation], absent from
    the wrapper.  One segment per selected credential, all under one
    challenge hashed from the request nonce and the commitments; a
    requested referent nobody answers is [NoCredentialsSelected], a
    requested name no selected credential carries is
    [MissingAttribute]. *)
Definition m_create_presentation (pres_req : ObjectHandle)
  (self_attest : StrMapping) (creds : list ObjectHandle)
  (creds_prove : list CredentialProve.t) (master_secret : ObjectHandle)
  (schemas cred_defs : list ObjectHandle) : Lib World ObjectHandle :=
  pr <- lookup pres_req ;;
  m <- lookup master_secret ;;
  cs <- for_each get_credential creds ;;
  _ <- for_each get_schema schemas ;;
  _ <- for_each get_cred_def cred_defs ;;
  match pr, m with
  | Some (OPresentationRequest nonce ras rps), Some (OMasterSecret ms) =>
      if negb (all_selected ras rps self_attest creds_prove)
      then raise NoCredentialsSelected
      else if negb (all_present (requested_names ras rps creds_prove) cs)
      then raise MissingAttribute
      else
        ts <- for_each (fun _ => draw) cs ;;
        let c := hash (nonce :: ts) in
        alloc (OPresentation
                 (sub_proofs_from ras creds_prove ms c 0 cs ts)
                 self_attest c)
  | _, _ => raise MalformedInput
  end.

(** *** Verification *)

Definition object_ids (os : list Object) : list string :=
  filter_map object_id os.

(** The schema and the credential definition a segment refers to were
    both supplied. *)
Definition supplied (ss ds : list Object) (sp : SubProof) : bool :=
  mem (sp_schema_id sp) (object_ids ss)
  && mem (sp_cred_def_id sp) (object_ids ds).

Definition public_key_of (ds : list Object) (cid : string) : option Z :=
  match
    find (fun d => match object_id d with
                   | Some i => String.eqb i cid
                   | None => false
                   end) ds
  with
  | Some (OCredentialDefinition _ _ _ _ _ _ pk) => Some pk
  | _ => None
  end.

Definition attr_names_of (ss : list Object) (sid : string)
  : option (list string) :=
  match
    find (fun x => match object_id x with
                   | Some i => String.eqb i sid
                   | None => false
                   end) ss
  with
  | Some (OSchema _ _ _ names _) => Some names
  | _ => None
  end.

(** The proof check itself: the challenge recomputed from the nonce and
    the published commitments, and every response checked against its
    issuer's public key and schema. *)
Definition proof_valid (nonce : Z) (subs : list SubProof) (c : Z)
  (ss ds : list Object) : bool :=
  Z.eqb c (hash (nonce :: map sp_commitment subs))
  && forallb (fun sp =>
                match public_key_of ds (sp_cred_def_id sp),
                      attr_names_of ss (sp_schema_id sp) with
                | Some pk, Some names => check_response pk names sp c
                | _, _ => false
                end) subs.

(** Modelled from the spec: the verification operation, absent from the
    wrapper and from the calls it makes.  A referenced schema or
    credential definition that was not supplied is
    [UnknownCredentialDefinition]; otherwise the result is the boolean of
    the proof check. *)
Definition verify_presentation (presentation pres_req : ObjectHandle)
  (schemas cred_defs : list ObjectHandle) : Lib World bool :=
  p <- lookup presentation ;;
  r <- lookup pres_req ;;
  ss <- for_each get_schema schemas ;;
  ds <- for_each get_cred_def cred_defs ;;
  match p, r with
  | Some (OPresentation subs sa c),
    Some (OPresentationRequest nonce ras rps) =>
      if forallb (supplied ss ds) subs
      then ret (proof_valid nonce subs c ss ds)
      else raise UnknownCredentialDefinition
  | _, _ => raise MalformedInput
  end.

(** Modelled from the spec: the wrapper method over the verification
    operation, which [types.py] does not have; written in the style of
    the other methods. *)
Definition verify (self pres_req : IndyObject)
  (schemas cred_defs : list IndyObject) : Py World bool :=
  call (verify_presentation (handle self) (handle pres_req)
          (map handle schemas) (map handle cred_defs)).

(** *** Deserialization *)

Definition class_of (o : Object) : Class :=
  match o with
  | OSchema _ _ _ _ _ => CSchema
  | OCredentialDefinition _ _ _ _ _ _ _ => CCredentialDefinition
  | OCredentialDefinitionPrivate _ => CCredentialDefinitionPrivate
  | OKeyCorrectnessProof _ => CKeyCorrectnessProof
  | OMasterSecret _ => CMasterSecret
  | OCredentialOffer _ _ _ => CCredentialOffer
  | OCredentialRequest _ _ _ _ => CCredentialRequest
  | OCredentialRequestMetadata _ _ _ => CCredentialRequestMetadata
  | OCredential _ _ _ _ _ _ => CCredential
  | OPresentationRequest _ _ _ => CPresentationRequest
  | OPresentation _ _ _ => CPresentation
  end.

(** Modelled from the spec: the [*_from_json] functions of [bindings],
    absent from the wrapper.  Decode the text, require the expected
    entity and its internal consistency, and place the object in the
    arena. *)
Definition from_text (expected : Class) (value : string)
  : Lib World ObjectHandle :=
  match decode value with
  | Some o =>
      if Class_eqb (class_of o) expected && consistent o
      then alloc o
      else raise MalformedInput
  | None => raise MalformedInput
  end.

(** *** Well-formed verification inputs *)

(** The handle of [o] resolves to an object of entity [c]. *)
Definition has_class (w : World) (c : Class) (o : IndyObject) : bool :=
  match nth_error (arena w) (handle o) with
  | Some d => Class_eqb (class_of d) c
  | None => false
  end.

(** The four arguments of a verification are of the expected entities. *)
Definition well_formed_verification (w : World)
  (presentation pres_req : IndyObject)
  (schemas cred_defs : list IndyObject) : bool :=
  has_class w CPresentation presentation
  && has_class w CPresentationRequest pres_req
  && forallb (has_class w CSchema) schemas
  && forallb (has_class w CCredentialDefinition) cred_defs.

Definition resolve (w : World) (os : list IndyObject) : list Object :=
  filter_map (fun o => nth_error (arena w) (handle o)) os.

(** Some segment of the presentation refers to a schema or a credential
    definition that is not among the supplied ones. *)
Definition referenced_missing (w : World) (presentation : IndyObject)
  (schemas cred_defs : list IndyObject) : bool :=
  match nth_error (arena w) (handle presentation) with
  | Some (OPresentation subs _ _) =>
      existsb (fun sp => negb (supplied (resolve w schemas)
                                        (resolve w cred_defs) sp)) subs
  | _ => false
  end.

(** The proof of the presentation checks against the request and the
    supplied schemas and credential definitions. *)
Definition proof_holds (w : World) (presentation pres_req : IndyObject)
  (schemas cred_defs : list IndyObject) : bool :=
  match nth_error (arena w) (handle presentation),
        nth_error (arena w) (handle pres_req) with
  | Some (OPresentation subs sa c),
    Some (OPresentationRequest nonce ras rps) =>
      proof_valid nonce subs c (resolve w schemas) (resolve w cred_defs)
  | _, _ => false
  end.

#[export] Instance core : Bindings World := {
  JsonDict := Object;
  json_dumps := encode;
  create_schema := m_create_schema;
  create_credential_definition := m_create_credential_definition;
  create_credential_offer := m_create_credential_offer;
  create_credential_request := m_create_credential_request;
  create_credential := m_create_credential;
  process_credential := m_process_credential;
  create_master_secret := m_create_master_secret;
  create_presentation := m_create_presentation;
  schema_from_json := from_text CSchema;
  credential_definition_from_json := from_text CCredentialDefinition;
  credential_definition_private_from_json :=
    from_text CCredentialDefinitionPrivate;
  key_correctness_proof_from_json := from_text CKeyCorrectnessProof;
  master_secret_from_json := from_text CMasterSecret;
  credential_offer_from_json := from_text CCredentialOffer;
  credential_request_from_json := from_text CCredentialRequest;
  credential_request_metadata_from_json :=
    from_text CCredentialRequestMetadata;
  credential_from_json := from_text CCredential;
  presentation_request_from_json := from_text CPresentationRequest;
  presentation_from_json := from_text CPresentation;
  schema_get_id := m_schema_get_id;
  credential_definition_get_id := m_credential_definition_get_id
}.

End Operations.
End CoreModel.

(** ** A small instance of the model *)

(** Toy primitives under which the model runs on concrete inputs. *)
Module Sample.
Import CoreModel.

Definition documents : list (string * Object) :=
  [ ("schema", OSchema "did:issuer" "degree" "1.0" ["name"; "age"] None);
    ("credential",
     OCredential "did:issuer/degree/1.0"
                 "did:issuer/did:issuer/degree/1.0/default"
                 [("name", ("Alice", "Alice")); ("age", ("28", "28"))]
                 5007 16 true);
    ("master_secret", OMasterSecret 5);
    ("presentation_request",
     OPresentationRequest 11 [("attr1", "name")]
                          [("pred1", ("age", GE, 18%Z))]);
    ("other_request",
     OPresentationRequest 12 [("attr1", "name")]
                          [("pred1", ("age", GE, 18%Z))]) ].

Definition sample_encode (o : Object) : string :=
  match class_of o with
  | CSchema => "schema"
  | CCredential => "credential"
  | CMasterSecret => "master_secret"
  | CPresentationRequest => "presentation_request"
  | _ => ""
  end.

Definition sample_commit (pk m v : Z) : Z := (m * 1000 + v mod 1000)%Z.

#[export] Instance primitives : Primitives := {
  random := fun n => Z.of_nat (2 * n + 3);
  encode := sample_encode;
  decode := dict_get String.eqb documents;
  consistent := fun _ => true;
  schema_id_of := fun i n v => (i ++ "/" ++ n ++ "/" ++ v)%string;
  cred_def_id_of := fun i s t => (i ++ "/" ++ s ++ "/" ++ t)%string;
  default_tag := "default";
  max_retries := 8;
  prime_form := Z.odd;
  public_of := fun sk => (sk * sk)%Z;
  correctness_proof_of := fun sk => (sk + 1)%Z;
  key_ok := fun pk => (0 <? pk)%Z;
  commit := sample_commit;
  encode_attr := fun raw => raw;
  sign := fun sk c _ => (sk + c)%Z;
  unblind := fun sg v => (sg - v)%Z;
  hash := fun l => fold_right Z.add 0%Z l;
  respond := fun ms sg t c => (t + c * ms)%Z;
  check_response := fun _ _ sp _ => (0 <=? sp_response sp)%Z
}.

Definition start : Runtime World :=
  {| next_oid := 0; world := {| arena := []; drawn := 0 |} |}.

(** Everything an issuance needs, and a second master secret. *)
Record Setup : Type := {
  the_schema : IndyObject;
  the_cred_def : IndyObject;
  the_cred_def_private : IndyObject;
  the_key_proof : IndyObject;
  the_offer : IndyObject;
  secret_a : IndyObject;
  secret_b : IndyObject
}.

Definition setup : Py World Setup :=
  schema <- Schema.create "did:issuer" "degree" "1.0" ["name"; "age"] None ;;
  sid <- Schema.id schema ;;
  '(cd, pv, kp) <-
    CredentialDefinition.create "did:issuer" (Obj schema) "CL" false None ;;
  offer <- CredentialOffer.create sid (Obj cd) (Obj kp) ;;
  a <- MasterSecret.create ;;
  b <- MasterSecret.create ;;
  ret {| the_schema := schema; the_cred_def := cd;
         the_cred_def_private := pv; the_key_proof := kp;
         the_offer := offer; secret_a := a; secret_b := b |}.

(** The result and the final state of a run that is known to return. *)
Definition value_of {S A} (d : A) (r : Result A * S) : A :=
  match fst r with
  | Ok a => a
  | Raise _ => d
  end.

Definition nobody : IndyObject := {| oid := 0; cls := CSchema; handle := 0 |}.

Definition no_setup : Setup :=
  {| the_schema := nobody; the_cred_def := nobody;
     the_cred_def_private := nobody; the_key_proof := nobody;
     the_offer := nobody; secret_a := nobody; secret_b := nobody |}.

Definition ready : Setup := value_of no_setup (setup start).
Definition after_setup : Runtime World := snd (setup start).

Definition raw_values : StrMapping := [("name", "Alice"); ("age", "28")].


(** The holder requests with [secret_a]; the issuer issues. *)
Definition issue : Py World (IndyObject * IndyObject) :=
  '(rq, md) <-
    CredentialRequest.create "did:holder" (Obj (the_cred_def ready))
                             (Obj (secret_a ready)) "ms"
                             (Obj (the_offer ready)) ;;
  c <- Credential.create (Obj (the_cred_def ready))
                         (Obj (the_cred_def_private ready))
                         (Obj (the_offer ready)) (Obj rq) raw_values None ;;
  ret (c, md).

Definition requested : Result (IndyObject * IndyObject) * Runtime World :=
  CredentialRequest.create "did:holder" (Obj (the_cred_def ready))
                           (Obj (secret_a ready)) "ms"
                           (Obj (the_offer ready)) after_setup.
Definition the_request : IndyObject :=
  fst (value_of (nobody, nobody) requested).
Definition the_metadata : IndyObject :=
  snd (value_of (nobody, nobody) requested).
Definition after_request : Runtime World := snd requested.

Definition issued : Result IndyObject * Runtime World :=
  Credential.create (Obj (the_cred_def ready))
                    (Obj (the_cred_def_private ready))
                    (Obj (the_offer ready)) (Obj the_request)
                    raw_values None after_request.
Definition the_credential : IndyObject := value_of nobody issued.
Definition after_issue : Runtime World := snd issued.

Definition processed : Result IndyObject * Runtime World :=
  Credential.process the_credential (Obj the_metadata)
                     (Obj (secret_a ready)) (Obj (the_cred_def ready))
                     after_issue.
Definition the_processed : IndyObject := value_of nobody processed.
Definition after_process : Runtime World := snd processed.

(** The holder selects one attribute and one predicate of the processed
    credential and presents them. *)
Definition selection : PresentCredentials.t :=
  PresentCredentials.add_predicates
    (PresentCredentials.add_attributes
       PresentCredentials.init the_processed ["attr1"] true None)
    the_processed ["pred1"] None.

Definition presented : Result (IndyObject * IndyObject * IndyObject)
                       * Runtime World :=
  (r <- PresentationRequest.from_json (inr "presentation_request") ;;
   r' <- PresentationRequest.from_json (inr "other_request") ;;
   p <- Presentation.create (Obj r) selection (Obj (secret_a ready))
                            [Obj (the_schema ready)]
                            [Obj (the_cred_def ready)] ;;
   ret (r, r', p)) after_process.
Definition the_pres_req : IndyObject :=
  fst (fst (value_of (nobody, nobody, nobody) presented)).
Definition the_other_req : IndyObject :=
  snd (fst (value_of (nobody, nobody, nobody) presented)).
Definition the_presentation : IndyObject :=
  snd (value_of (nobody, nobody, nobody) presented).
Definition after_presentation : Runtime World := snd presented.

(** Two credentials selected in turn, the first one twice. *)
Definition first_cred : IndyObject :=
  {| oid := 20; cls := CCredential; handle := 7 |}.
Definition second_cred : IndyObject :=
  {| oid := 21; cls := CCredential; handle := 9 |}.
Definition two_selected : PresentCredentials.t :=
  PresentCredentials.add_predicates
    (PresentCredentials.add_attributes
       (PresentCredentials.add_attributes
          PresentCredentials.init first_cred ["attr1"; "attr2"] true None)
       second_cred ["attr3"] false (Some 5%Z))
    first_cred ["pred1"] None.

(** The schema alone, and two key generations over it that differ in
    signature type and revocation flag. *)
Definition schema_made : Result IndyObject * Runtime World :=
  Schema.create "did:issuer" "degree" "1.0" ["name"; "age"] None start.
Definition made_schema : IndyObject := value_of nobody schema_made.
Definition after_schema : Runtime World := snd schema_made.

Definition keys_made (signature_type : string) (revocation : bool)
  (rt : Runtime World)
  : Result (IndyObject * IndyObject * IndyObject) * Runtime World :=
  CredentialDefinition.create
    "did:issuer" (Obj made_schema) signature_type revocation None rt.
Definition first_keys : IndyObject * IndyObject * IndyObject :=
  value_of (nobody, nobody, nobody) (keys_made "CL" false after_schema).
Definition after_first_keys : Runtime World :=
  snd (keys_made "CL" false after_schema).
Definition second_keys : IndyObject * IndyObject * IndyObject :=
  value_of (nobody, nobody, nobody) (keys_made "CL2" true after_first_keys).
Definition after_second_keys : Runtime World :=
  snd (keys_made "CL2" true after_first_keys).

End Sample.

(** ** Reference descriptions used by the statements *)

(** The serialized form of an argument stands for the object it
    deserializes to.  For a call [f] with one argument left open: on the
    string [value] the call is the deserialization [from_json value]
    followed, when that returns an object, by the call on that object in
    the state reached; when the deserialization raises, the call raises
    the same error in the state reached. *)
Definition same_as_object {W A : Type}
  (from_json : string -> Py W IndyObject)
  (f : StrOr IndyObject -> Py W A) : Prop :=
  forall value rt r rt',
    from_json value rt = (r, rt') ->
    f (Str value) rt
    = match r with
      | Ok o => f (Obj o) rt'
      | Raise e => (Raise e, rt')
      end.

(** The prove entries of the item at position [idx], as the description
    of the presentation builder has them: every attribute selection, then
    every predicate selection, each carrying [idx]. *)
Definition entries_at (idx : nat)
  (item : IndyObject *
          (PresentCredentials.AttrDict * PresentCredentials.PredDict))
  : list CredentialProve.t :=
  map (fun a => CredentialProve.attribute
                  idx (fst a) (fst (snd a)) (snd (snd a)))
      (fst (snd item))
  ++ map (fun p => CredentialProve.predicate idx (fst p) (snd p))
         (snd (snd item)).

Fixpoint entries_from (idx : nat)
  (items : list (IndyObject *
                 (PresentCredentials.AttrDict * PresentCredentials.PredDict)))
  : list CredentialProve.t :=
  match items with
  | [] => []
  | item :: rest => entries_at idx item ++ entries_from (S idx) rest
  end.

(** No two objects of the list are the same object. *)
Fixpoint distinct_objects (l : list IndyObject) : bool :=
  match l with
  | [] => true
  | k :: r => negb (existsb (obj_eqb k) r) && distinct_objects r
  end.

(** No two keys of the dictionary are the same object. *)
Definition distinct_keys {V} (d : dict IndyObject V) : bool :=
  distinct_objects (keys d).


(** The selections recorded for [cred], or the empty pair a first
    selection starts from. *)
Definition entry_or_empty (self : PresentCredentials.t) (cred : IndyObject)
  : PresentCredentials.AttrDict * PresentCredentials.PredDict :=
  match dict_get obj_eqb (PresentCredentials.creds self) cred with
  | Some e => e
  | None => ([], [])
  end.

(** The object under handle [h] is a credential whose signature has been
    unblinded. *)
Definition unblinded_at (w : CoreModel.World) (h : ObjectHandle) : bool :=
  match nth_error (CoreModel.arena w) h with
  | Some (CoreModel.OCredential _ _ _ _ _ blinded) => negb blinded
  | _ => false
  end.

(** Assigning [v] under each referent in turn: what one selection loop
    does to the dictionary it writes. *)
Definition set_all {A} (d : dict string A) (refs : list string) (v : A)
  : dict string A :=
  fold_left (fun d r => dict_set String.eqb d r v) refs d.

(** What [add_attributes] and [add_predicates] do to the pair stored for
    their credential. *)
Definition with_attributes (refs : list string) (v : bool * option Z)
  (e : PresentCredentials.AttrDict * PresentCredentials.PredDict)
  : PresentCredentials.AttrDict * PresentCredentials.PredDict :=
  (set_all (fst e) refs v, snd e).

Definition with_predicates (refs : list string) (v : option Z)
  (e : PresentCredentials.AttrDict * PresentCredentials.PredDict)
  : PresentCredentials.AttrDict * PresentCredentials.PredDict :=
  (fst e, set_all (snd e) refs v).

(** No string occurs twice. *)
Fixpoint distinct_strings (l : list string) : bool :=
  match l with
  | [] => true
  | x :: r => negb (existsb (String.eqb x) r) && distinct_strings r
  end.

(** The item selects at least one attribute or predicate. *)
Definition selects_something
  (item : IndyObject *
          (PresentCredentials.AttrDict * PresentCredentials.PredDict))
  : bool :=
  match item with
  | (_, ([], [])) => false
  | _ => true
  end.

(** Every credential of the accumulator has a selection. *)
Definition no_idle_credential (self : PresentCredentials.t) : bool :=
  forallb selects_something (PresentCredentials.creds self).

(** The keys of the accumulator are distinct objects, and under each of
    them no referent is recorded twice. *)
Definition well_keyed (self : PresentCredentials.t) : bool :=
  distinct_keys (PresentCredentials.creds self)
  && forallb (fun item => distinct_strings (keys (fst (snd item)))
                          && distinct_strings (keys (snd (snd item))))
             (PresentCredentials.creds self).

Fixpoint nondecreasing (l : list nat) : bool :=
  match l with
  | a :: ((b :: _) as r) => Nat.leb a b && nondecreasing r
  | _ => true
  end.

(** The number of selections recorded in the accumulator. *)
Definition selections
  (items : list (IndyObject *
                 (PresentCredentials.AttrDict * PresentCredentials.PredDict)))
  : nat :=
  fold_right (fun item n => length (fst (snd item))
                            + length (snd (snd item)) + n) 0 items.

(** The arguments of [Presentation.create] once every serialized one is
    deserialized, in the order the method does it. *)
Definition deserialized_arguments {W : Type} {B : Bindings W}
  (pres_req master_secret : StrOr IndyObject)
  (schemas cred_defs : list (StrOr IndyObject))
  : Py W (IndyObject * IndyObject * list IndyObject * list IndyObject) :=
  r <- coerce (fun s => PresentationRequest.from_json (inr s)) pres_req ;;
  m <- coerce MasterSecret.from_json master_secret ;;
  ss <- for_each (coerce Schema.from_json) schemas ;;
  cs <- for_each (coerce CredentialDefinition.from_json) cred_defs ;;
  ret (r, m, ss, cs).

(** The argument [x] stands for the object [o].  A live object stands
    for itself and nothing happens; a string is deserialized by
    [from_json], which returns [o] and takes the state [rt] to [rt']. *)
Definition deserializes_to {W : Type}
  (from_json : string -> Py W IndyObject) (x : StrOr IndyObject)
  (rt : Runtime W) (o : IndyObject) (rt' : Runtime W) : Prop :=
  match x with
  | inl value => from_json value rt = (Ok o, rt')
  | inr o' => o = o' /\ rt' = rt
  end.

(** The argument is a string, and [from_json] raises [e] on it, leaving
    the state [rt']. *)
Definition rejected {W : Type}
  (from_json : string -> Py W IndyObject) (x : StrOr IndyObject)
  (rt : Runtime W) (e : Error) (rt' : Runtime W) : Prop :=
  match x with
  | inl value => from_json value rt = (Raise e, rt')
  | inr _ => False
  end.

(** The elements stand for the objects [os], the strings among them
    deserialized from left to right, each in the state the one before
    left. *)
Fixpoint all_deserialize {W : Type}
  (from_json : string -> Py W IndyObject) (xs : list (StrOr IndyObject))
  (rt : Runtime W) (os : list IndyObject) (rt' : Runtime W) : Prop :=
  match xs, os with
  | [], [] => rt' = rt
  | x :: xs', o :: os' =>
      exists rt1,
        deserializes_to from_json x rt o rt1
        /\ all_deserialize from_json xs' rt1 os' rt'
  | _, _ => False
  end.

(** Going from left to right, some string of the list is rejected with
    [e], leaving the state [rt'], and every element before it stands for
    an object. *)
Fixpoint stops_at {W : Type}
  (from_json : string -> Py W IndyObject) (xs : list (StrOr IndyObject))
  (rt : Runtime W) (e : Error) (rt' : Runtime W) : Prop :=
  match xs with
  | [] => False
  | x :: xs' =>
      rejected from_json x rt e rt'
      \/ exists o rt1,
           deserializes_to from_json x rt o rt1
           /\ stops_at from_json xs' rt1 e rt'
  end.

(** The four arguments of [Presentation.create] stand for [r], [m], [ss]
    and [cs]: the presentation request first, then the master secret,
    then the schemas, then the credential definitions, each by the
    [from_json] of its own class. *)
Definition arguments_deserialize {W : Type} {B : Bindings W}
  (pres_req master_secret : StrOr IndyObject)
  (schemas cred_defs : list (StrOr IndyObject)) (rt : Runtime W)
  (r m : IndyObject) (ss cs : list IndyObject) (rt' : Runtime W) : Prop :=
  exists rt1 rt2 rt3,
    deserializes_to (fun s => PresentationRequest.from_json (inr s))
                    pres_req rt r rt1
    /\ deserializes_to MasterSecret.from_json master_secret rt1 m rt2
    /\ all_deserialize Schema.from_json schemas rt2 ss rt3
    /\ all_deserialize CredentialDefinition.from_json cred_defs rt3 cs rt'.

(** In the same order, some string among the four arguments is rejected
    with [e], leaving the state [rt']; everything before it stands for an
    object and nothing after it is looked at. *)
Definition arguments_rejected {W : Type} {B : Bindings W}
  (pres_req master_secret : StrOr IndyObject)
  (schemas cred_defs : list (StrOr IndyObject)) (rt : Runtime W)
  (e : Error) (rt' : Runtime W) : Prop :=
  rejected (fun s => PresentationRequest.from_json (inr s))
           pres_req rt e rt'
  \/ exists r rt1,
       deserializes_to (fun s => PresentationRequest.from_json (inr s))
                       pres_req rt r rt1
       /\ (rejected MasterSecret.from_json master_secret rt1 e rt'
           \/ exists m rt2,
                deserializes_to MasterSecret.from_json
                                master_secret rt1 m rt2
                /\ (stops_at Schema.from_json schemas rt2 e rt'
                    \/ exists ss rt3,
                         all_deserialize Schema.from_json
                                         schemas rt2 ss rt3
                         /\ stops_at CredentialDefinition.from_json
                                     cred_defs rt3 e rt')).

(** The argument is in serialized form. *)
Definition is_serialized {A} (x : StrOr A) : bool :=
  match x with
  | inl _ => true
  | inr _ => false
  end.

Definition serialized_count {A} (xs : list (StrOr A)) : nat :=
  length (filter is_serialized xs).

Module SampleArguments.
Import CoreModel Sample.

(** A mixed argument list: two strings and two live objects. *)
Definition arguments_made
  : Result (IndyObject * IndyObject * list IndyObject * list IndyObject)
    * Runtime World :=
  deserialized_arguments
    (Str "presentation_request") (Obj (secret_a ready))
    [Str "schema"; Obj (the_schema ready)] [] after_process.
Definition the_arguments
  : IndyObject * IndyObject * list IndyObject * list IndyObject :=
  value_of (nobody, nobody, [], []) arguments_made.

(** The states after the deserialization of the presentation request and
    then of a schema, and the objects these two calls create. *)
Definition after_request_string : Runtime World :=
  snd (PresentationRequest.from_json (inr "presentation_request")
                                     after_process).
Definition after_schema_string : Runtime World :=
  snd (Schema.from_json "schema" after_request_string).
Definition request_read : IndyObject :=
  {| oid := 11; cls := CPresentationRequest; handle := 10 |}.
Definition schema_read : IndyObject :=
  {| oid := 12; cls := CSchema; handle := 11 |}.

End SampleArguments.

(** * Properties *)

(** ** The monad *)

Lemma bind_ret_l {S A B} (a : A) (k : A -> Lib S B) (s : S) :
  bind (ret a) k s = k a s.
Proof. reflexivity. Qed.

Lemma bind_ret_r {S A} (m : Lib S A) (s : S) : bind m ret s = m s.
Proof.
  unfold bind, ret. destruct (m s) as [[a | e] s']; reflexivity.
Qed.

Lemma bind_assoc {S A B C} (m : Lib S A) (k : A -> Lib S B)
  (k' : B -> Lib S C) (s : S) :
  bind (bind m k) k' s = bind m (fun a => bind (k a) k') s.
Proof.
  unfold bind. destruct (m s) as [[a | e] s']; reflexivity.
Qed.

Lemma bind_ext {S A B} (m : Lib S A) (k k' : A -> Lib S B) (s : S) :
  (forall a s', k a s' = k' a s') -> bind m k s = bind m k' s.
Proof.
  intros E. unfold bind.
  destruct (m s) as [[a | e] s']; [apply E | reflexivity].
Qed.

Lemma bind_ok {S A B} (m : Lib S A) (k : A -> Lib S B) (s s' : S) (a : A) :
  m s = (Ok a, s') -> bind m k s = k a s'.
Proof. intros E. unfold bind. rewrite E. reflexivity. Qed.

Lemma bind_raise {S A B} (m : Lib S A) (k : A -> Lib S B) (s s' : S) e :
  m s = (Raise e, s') -> bind m k s = (Raise e, s').
Proof. intros E. unfold bind. rewrite E. reflexivity. Qed.

(** A computation that returns went through its first step. *)
Lemma bind_inv {S A B} (m : Lib S A) (k : A -> Lib S B) (s s2 : S) (b : B) :
  bind m k s = (Ok b, s2) ->
  exists a s1, m s = (Ok a, s1) /\ k a s1 = (Ok b, s2).
Proof.
  unfold bind. destruct (m s) as [[a | e] s1]; intros E.
  - exists a, s1. split; [reflexivity | exact E].
  - discriminate E.
Qed.

Lemma construct_inv {W} (c : Class) (h : ObjectHandle) (rt rt' : Runtime W)
  (o : IndyObject) :
  construct c h rt = (Ok o, rt') ->
  o = {| oid := next_oid rt; cls := c; handle := h |}
  /\ rt' = {| next_oid := S (next_oid rt); world := world rt |}.
Proof. unfold construct. intros E. inversion E. split; reflexivity. Qed.

Lemma call_inv {W A} (f : Lib W A) (rt rt' : Runtime W) (r : Result A) :
  call f rt = (r, rt') ->
  f (world rt) = (r, world rt') /\ next_oid rt' = next_oid rt.
Proof.
  unfold call. destruct (f (world rt)) as [r0 w'] eqn:E. intros E'.
  inversion E'. subst. split; reflexivity.
Qed.

(** ** Deserialization entry points *)

Section FromJson.
Context {W : Type} {B : Bindings W}.

(** Whatever a wrapper built by "call, then construct" returns has the
    class it was constructed with. *)
Lemma wrapped_class (f : Lib W ObjectHandle) (c : Class)
  (rt rt' : Runtime W) (o : IndyObject) :
  (h <- call f ;; construct c h) rt = (Ok o, rt') ->
  cls o = c /\ f (world rt) = (Ok (handle o), world rt')
  /\ oid o = next_oid rt.
Proof.
  intros E. apply bind_inv in E. destruct E as (h & rt1 & E1 & E2).
  apply construct_inv in E2. destruct E2 as [-> ->].
  apply call_inv in E1. destruct E1 as [E1 E1']. cbn.
  rewrite E1'. repeat split. exact E1.
Qed.

(** Ten of the eleven entry points return an object of their own class. *)
Lemma from_json_own_class (value : string) (rt rt' : Runtime W)
  (o : IndyObject) :
  (Schema.from_json value rt = (Ok o, rt') -> cls o = CSchema)
  /\ (CredentialDefinition.from_json value rt = (Ok o, rt') ->
      cls o = CCredentialDefinition)
  /\ (CredentialDefinitionPrivate.from_json value rt = (Ok o, rt') ->
      cls o = CCredentialDefinitionPrivate)
  /\ (KeyCorrectnessProof.from_json value rt = (Ok o, rt') ->
      cls o = CKeyCorrectnessProof)
  /\ (MasterSecret.from_json value rt = (Ok o, rt') -> cls o = CMasterSecret)
  /\ (CredentialOffer.from_json value rt = (Ok o, rt') ->
      cls o = CCredentialOffer)
  /\ (CredentialRequest.from_json value rt = (Ok o, rt') ->
      cls o = CCredentialRequest)
  /\ (CredentialRequestMetadata.from_json value rt = (Ok o, rt') ->
      cls o = CCredentialRequestMetadata)
  /\ (PresentationRequest.from_json (inr value) rt = (Ok o, rt') ->
      cls o = CPresentationRequest)
  /\ (Presentation.from_json value rt = (Ok o, rt') -> cls o = CPresentation).
Proof.
  repeat split; intros E; apply wrapped_class in E; tauto.
Qed.

(** C1 (as the code behaves).  [Credential.from_json] hands the handle of
    the deserialized credential to the constructor of
    [CredentialDefinition]: whenever it returns, and whatever the library
    is, the object returned is a [CredentialDefinition] around the handle
    the library gave for the credential, and so not a [Credential]. *)
Theorem Credential_from_json_wrong_class (value : string)
  (rt rt' : Runtime W) (o : IndyObject) :
  Credential.from_json value rt = (Ok o, rt') ->
  cls o = CCredentialDefinition
  /\ cls o <> CCredential
  /\ credential_from_json value (world rt) = (Ok (handle o), world rt').
Proof.
  intros E. apply wrapped_class in E. destruct E as (E1 & E2 & _).
  repeat split; [exact E1 | rewrite E1; discriminate | exact E2].
Qed.

End FromJson.

(** ** Serialized and live arguments *)

Section StrOrObject.
Context {W : Type} {B : Bindings W}.

(** A comprehension over live objects only reads their handles. *)
Lemma for_each_objects (from_json : string -> Py W IndyObject)
  (os : list IndyObject) (rt : Runtime W) :
  for_each (fun x => o <- coerce from_json x ;; ret (handle o))
           (map Obj os) rt
  = (Ok (map handle os), rt).
Proof.
  unfold Obj. induction os as [| o os IH]; [reflexivity |].
  cbn [map for_each coerce].
  rewrite bind_assoc, bind_ret_l, bind_ret_l.
  erewrite bind_ok by exact IH. reflexivity.
Qed.

(** A comprehension that deserializes on the way is the deserialization
    of the whole list followed by the reading of the handles. *)
Lemma for_each_coerce (from_json : string -> Py W IndyObject)
  (xs : list (StrOr IndyObject)) {C} (k : list ObjectHandle -> Py W C)
  (rt : Runtime W) :
  (hs <- for_each (fun x => o <- coerce from_json x ;; ret (handle o)) xs ;;
   k hs) rt
  = (os <- for_each (coerce from_json) xs ;; k (map handle os)) rt.
Proof.
  revert k rt. induction xs as [| x xs IH]; intros k rt; [reflexivity |].
  cbn [for_each].
  rewrite !bind_assoc. apply bind_ext. intros o rt1.
  rewrite bind_ret_l. rewrite !bind_assoc.
  rewrite (IH (fun hs => bind (ret (handle o :: hs)) k)).
  apply bind_ext. intros os rt2. reflexivity.
Qed.

(** The object form of [Presentation.create], written out. *)
Lemma Presentation_create_objects (pres_req master_secret : IndyObject)
  (present_creds : PresentCredentials.t) (schemas cred_defs : list IndyObject)
  (rt : Runtime W) :
  Presentation.create (Obj pres_req) present_creds (Obj master_secret)
                      (map Obj schemas) (map Obj cred_defs) rt
  = (h <- call (create_presentation
                  (handle pres_req)
                  (PresentCredentials.self_attest present_creds)
                  (fst (Presentation.prove_lists present_creds))
                  (snd (Presentation.prove_lists present_creds))
                  (handle master_secret)
                  (map handle schemas) (map handle cred_defs)) ;;
     construct CPresentation h) rt.
Proof.
  unfold Presentation.create. unfold Obj at 1 2. cbn [coerce].
  rewrite !bind_ret_l.
  erewrite bind_ok by apply for_each_objects.
  erewrite bind_ok by apply for_each_objects.
  destruct (Presentation.prove_lists present_creds) as [creds creds_prove].
  reflexivity.
Qed.

Lemma Presentation_create_coerced (pres_req master_secret : StrOr IndyObject)
  (present_creds : PresentCredentials.t)
  (schemas cred_defs : list (StrOr IndyObject)) (rt : Runtime W) :
  Presentation.create pres_req present_creds master_secret schemas cred_defs rt
  = (r <- coerce (fun s => PresentationRequest.from_json (inr s)) pres_req ;;
     m <- coerce MasterSecret.from_json master_secret ;;
     ss <- for_each (coerce Schema.from_json) schemas ;;
     cs <- for_each (coerce CredentialDefinition.from_json) cred_defs ;;
     Presentation.create (Obj r) present_creds (Obj m)
                         (map Obj ss) (map Obj cs)) rt.
Proof.
  unfold Presentation.create at 1.
  apply bind_ext. intros r rt1. apply bind_ext. intros m rt2.
  rewrite for_each_coerce. apply bind_ext. intros ss rt3.
  rewrite for_each_coerce. apply bind_ext. intros cs rt4.
  rewrite Presentation_create_objects.
  destruct (Presentation.prove_lists present_creds) as [creds creds_prove].
  reflexivity.
Qed.

(** A string among the elements of a comprehension, after live ones. *)
Lemma for_each_string_inside (from_json : string -> Py W IndyObject)
  (before : list IndyObject) (value : string)
  (after : list (StrOr IndyObject)) {C}
  (k : list ObjectHandle -> Py W C) (rt rt' : Runtime W)
  (r : Result IndyObject) :
  from_json value rt = (r, rt') ->
  (hs <- for_each (fun x => o <- coerce from_json x ;; ret (handle o))
                  (map Obj before ++ Str value :: after) ;;
   k hs) rt
  = match r with
    | Ok o =>
        (hs <- for_each (fun x => o <- coerce from_json x ;; ret (handle o))
                        (map Obj before ++ Obj o :: after) ;;
         k hs) rt'
    | Raise e => (Raise e, rt')
    end.
Proof.
  intros E. revert k.
  induction before as [| b0 before IH]; intros k; cbn [map app for_each].
  - unfold Str, Obj. cbn [coerce]. rewrite !bind_assoc.
    destruct r as [o | e].
    + erewrite (@bind_ok _ _ _ _ _ _ _ _ E). rewrite !bind_assoc. reflexivity.
    + erewrite (@bind_raise _ _ _ _ _ _ _ _ E). reflexivity.
  - unfold Obj at 1. cbn [coerce].
    rewrite !bind_assoc, bind_ret_l, bind_ret_l, bind_assoc.
    etransitivity;
      [apply (IH (fun hs => bind (ret (handle b0 :: hs)) k)) |].
    destruct r as [o | e]; [| reflexivity].
    set (X := for_each _ (map Obj before ++ Obj o :: after)).
    unfold bind, Obj, coerce, ret.
    destruct (X rt') as [[hs | e] s]; reflexivity.
Qed.

Ltac string_or_object E :=
  unfold Str, Obj; cbn [coerce]; rewrite ?bind_ret_l;
  match type of E with
  | _ = (Ok _, _) => erewrite (@bind_ok _ _ _ _ _ _ _ _ E)
  | _ = (Raise _, _) => erewrite (@bind_raise _ _ _ _ _ _ _ _ E)
  end;
  reflexivity.

(** C2.  For every boundary constructor and every argument of it that
    takes a serialized string or a live object, the call on a string is
    the deserialization of the string by the entity's own [from_json]
    followed by the call on the object it returned, in the state the
    deserialization left; a string that does not deserialize fails the
    call with the error and in the state of the failed deserialization.
    Arguments are deserialized in argument order, so each argument is
    taken with the ones before it live and the ones after it in either
    form; a list element is taken with the elements before it live. *)
Theorem str_or_object_equivalent :
  (forall origin_did signature_type support_revocation tag,
     same_as_object Schema.from_json
       (fun x => CredentialDefinition.create
                   origin_did x signature_type support_revocation tag))
  /\ (forall schema_id key_proof,
        same_as_object CredentialDefinition.from_json
          (fun x => CredentialOffer.create schema_id x key_proof))
  /\ (forall schema_id cred_def,
        same_as_object KeyCorrectnessProof.from_json
          (fun x => CredentialOffer.create schema_id (Obj cred_def) x))
  /\ (forall prover_did master_secret master_secret_id cred_offer,
        same_as_object CredentialDefinition.from_json
          (fun x => CredentialRequest.create
                      prover_did x master_secret master_secret_id
                      cred_offer))
  /\ (forall prover_did cred_def master_secret_id cred_offer,
        same_as_object MasterSecret.from_json
          (fun x => CredentialRequest.create
                      prover_did (Obj cred_def) x master_secret_id
                      cred_offer))
  /\ (forall prover_did cred_def master_secret master_secret_id,
        same_as_object CredentialOffer.from_json
          (fun x => CredentialRequest.create
                      prover_did (Obj cred_def) (Obj master_secret)
                      master_secret_id x))
  /\ (forall cred_def_private cred_offer cred_request raw enc,
        same_as_object CredentialDefinition.from_json
          (fun x => Credential.create
                      x cred_def_private cred_offer cred_request raw enc))
  /\ (forall cred_def cred_offer cred_request raw enc,
        same_as_object CredentialDefinitionPrivate.from_json
          (fun x => Credential.create
                      (Obj cred_def) x cred_offer cred_request raw enc))
  /\ (forall cred_def cred_def_private cred_request raw enc,
        same_as_object CredentialOffer.from_json
          (fun x => Credential.create
                      (Obj cred_def) (Obj cred_def_private) x cred_request
                      raw enc))
  /\ (forall cred_def cred_def_private cred_offer raw enc,
        same_as_object CredentialRequest.from_json
          (fun x => Credential.create
                      (Obj cred_def) (Obj cred_def_private) (Obj cred_offer)
                      x raw enc))
  /\ (forall self master_secret cred_def,
        same_as_object CredentialRequestMetadata.from_json
          (fun x => Credential.process self x master_secret cred_def))
  /\ (forall self cred_req_metadata cred_def,
        same_as_object MasterSecret.from_json
          (fun x => Credential.process
                      self (Obj cred_req_metadata) x cred_def))
  /\ (forall self cred_req_metadata master_secret,
        same_as_object CredentialDefinition.from_json
          (fun x => Credential.process
                      self (Obj cred_req_metadata) (Obj master_secret) x))
  /\ (forall present_creds master_secret schemas cred_defs,
        same_as_object (fun s => PresentationRequest.from_json (inr s))
          (fun x => Presentation.create
                      x present_creds master_secret schemas cred_defs))
  /\ (forall pres_req present_creds schemas cred_defs,
        same_as_object MasterSecret.from_json
          (fun x => Presentation.create
                      (Obj pres_req) present_creds x schemas cred_defs))
  /\ (forall pres_req present_creds master_secret before after cred_defs,
        same_as_object Schema.from_json
          (fun x => Presentation.create
                      (Obj pres_req) present_creds (Obj master_secret)
                      (map Obj before ++ x :: after) cred_defs))
  /\ (forall pres_req present_creds master_secret schemas before after,
        same_as_object CredentialDefinition.from_json
          (fun x => Presentation.create
                      (Obj pres_req) present_creds (Obj master_secret)
                      (map Obj schemas) (map Obj before ++ x :: after))).
Proof.
  unfold same_as_object.
  repeat match goal with |- _ /\ _ => split end;
    intros; cbn beta;
    match goal with E : _ = (?r, _) |- _ => destruct r as [o | e] end.
  1-2: unfold CredentialDefinition.create; string_or_object H.
  1-4: unfold CredentialOffer.create; string_or_object H.
  1-6: unfold CredentialRequest.create; string_or_object H.
  1-8: unfold Credential.create; string_or_object H.
  1-6: unfold Credential.process; string_or_object H.
  1-4: unfold Presentation.create; string_or_object H.
  - unfold Presentation.create, Obj. cbn [coerce]. rewrite !bind_ret_l.
    exact (@for_each_string_inside
             Schema.from_json before value after _ _ rt rt' (Ok o) H).
  - unfold Presentation.create, Obj. cbn [coerce]. rewrite !bind_ret_l.
    exact (@for_each_string_inside
             Schema.from_json before value after _ _ rt rt' (Raise e) H).
  - unfold Presentation.create, Obj. cbn [coerce]. rewrite !bind_ret_l.
    erewrite (@bind_ok _ _ _ _ _ _ _ _
                (for_each_objects Schema.from_json schemas rt)).
    erewrite (@bind_ok _ _ _ _ _ _ _ _
                (for_each_objects Schema.from_json schemas rt')).
    exact (@for_each_string_inside
             CredentialDefinition.from_json before value after _ _ rt rt'
             (Ok o) H).
  - unfold Presentation.create, Obj. cbn [coerce]. rewrite !bind_ret_l.
    erewrite (@bind_ok _ _ _ _ _ _ _ _
                (for_each_objects Schema.from_json schemas rt)).
    exact (@for_each_string_inside
             CredentialDefinition.from_json before value after _ _ rt rt'
             (Raise e) H).
Qed.

(** The same fact in the form of the two calls: once the string has
    deserialized to [o], the call on the string is the call on [o] from
    the state the deserialization left. *)
Lemma CredentialOffer_create_string (schema_id value : string)
  (key_proof : StrOr IndyObject) (o : IndyObject) (rt rt' : Runtime W) :
  CredentialDefinition.from_json value rt = (Ok o, rt') ->
  CredentialOffer.create schema_id (Str value) key_proof rt
  = CredentialOffer.create schema_id (Obj o) key_proof rt'.
Proof.
  intros E. unfold CredentialOffer.create, Str, Obj. cbn [coerce].
  erewrite bind_ok by exact E. reflexivity.
Qed.

End StrOrObject.

(** ** Dictionaries *)

Section DictFacts.
Variables (K V : Type) (eqb : K -> K -> bool).
Hypothesis eqb_sym : forall a b, eqb a b = eqb b a.
Hypothesis eqb_trans : forall a b c, eqb a b = true -> eqb c a = eqb c b.

Lemma dict_get_set (d : dict K V) (k k' : K) (v : V) :
  dict_get eqb (dict_set eqb d k v) k'
  = if eqb k' k then Some v else dict_get eqb d k'.
Proof.
  induction d as [| [k0 v0] r IH]; cbn [dict_set dict_get].
  - reflexivity.
  - destruct (eqb k k0) eqn:E; cbn [dict_get].
    + rewrite (eqb_trans k' E). destruct (eqb k' k0); reflexivity.
    + rewrite IH. destruct (eqb k' k0) eqn:E0; [| reflexivity].
      destruct (eqb k' k) eqn:E1; [| reflexivity].
      rewrite eqb_sym, (eqb_trans k E0) in E1. congruence.
Qed.

Lemma dict_get_alter (f : V -> V) (d : dict K V) (k k' : K) :
  dict_get eqb (dict_alter eqb f d k) k'
  = if eqb k' k then option_map f (dict_get eqb d k) else dict_get eqb d k'.
Proof.
  induction d as [| [k0 v0] r IH]; cbn [dict_alter dict_get].
  - destruct (eqb k' k); reflexivity.
  - destruct (eqb k k0) eqn:E; cbn [dict_get].
    + rewrite (eqb_trans k' E). destruct (eqb k' k0); reflexivity.
    + rewrite IH. destruct (eqb k' k0) eqn:E0; [| reflexivity].
      destruct (eqb k' k) eqn:E1; [| reflexivity].
      rewrite eqb_sym, (eqb_trans k E0) in E1. congruence.
Qed.

Lemma keys_alter (f : V -> V) (d : dict K V) (k : K) :
  keys (dict_alter eqb f d k) = keys d.
Proof.
  induction d as [| [k0 v0] r IH]; cbn [dict_alter]; [reflexivity |].
  destruct (eqb k k0); cbn; [reflexivity | f_equal; exact IH].
Qed.

Lemma keys_set (d : dict K V) (k : K) (v : V) :
  keys (dict_set eqb d k v)
  = if dict_contains eqb d k then keys d else keys d ++ [k].
Proof.
  unfold dict_contains.
  induction d as [| [k0 v0] r IH]; cbn [dict_set dict_get]; [reflexivity |].
  destruct (eqb k k0); cbn; [reflexivity |].
  unfold keys in IH. rewrite IH.
  destruct (dict_get eqb r k); reflexivity.
Qed.

Lemma dict_contains_existsb (d : dict K V) (k : K) :
  dict_contains eqb d k = existsb (eqb k) (keys d).
Proof.
  unfold dict_contains.
  induction d as [| [k0 v0] r IH]; cbn; [reflexivity |].
  destruct (eqb k k0); [reflexivity | exact IH].
Qed.

(** The keys already present keep their places under [update]. *)
Lemma keys_update (d other : dict K V) :
  exists added, keys (dict_update eqb d other) = keys d ++ added.
Proof.
  unfold dict_update. revert d.
  induction other as [| [k v] r IH]; intros d; cbn [fold_left].
  - exists []. symmetry. apply app_nil_r.
  - destruct (IH (dict_set eqb d k v)) as [added E]. cbn [fst snd].
    rewrite E, keys_set. destruct (dict_contains eqb d k).
    + exists added. reflexivity.
    + exists (k :: added). rewrite <- app_assoc. reflexivity.
Qed.

Lemma dict_get_update_other (d other : dict K V) (k : K) :
  existsb (eqb k) (keys other) = false ->
  dict_get eqb (dict_update eqb d other) k = dict_get eqb d k.
Proof.
  unfold dict_update. revert d.
  induction other as [| [k0 v0] r IH]; intros d E; cbn [fold_left];
    [reflexivity |].
  cbn in E. apply orb_false_elim in E. destruct E as [E0 E].
  rewrite (IH _ E). cbn [fst snd]. rewrite dict_get_set, E0. reflexivity.
Qed.

End DictFacts.

Lemma string_eqb_sym (a b : string) : String.eqb a b = String.eqb b a.
Proof. apply String.eqb_sym. Qed.

Lemma string_eqb_trans (a b c : string) :
  String.eqb a b = true -> String.eqb c a = String.eqb c b.
Proof. intros E. apply String.eqb_eq in E. subst. reflexivity. Qed.

Lemma obj_eqb_sym (a b : IndyObject) : obj_eqb a b = obj_eqb b a.
Proof. apply Nat.eqb_sym. Qed.

Lemma obj_eqb_trans (a b c : IndyObject) :
  obj_eqb a b = true -> obj_eqb c a = obj_eqb c b.
Proof.
  unfold obj_eqb. intros E. apply Nat.eqb_eq in E. rewrite E. reflexivity.
Qed.

(** ** The selection accumulator *)

Section Accumulator.
Import PresentCredentials.

Lemma dict_get_same_object {V} (d : dict IndyObject V) (a b : IndyObject) :
  obj_eqb a b = true -> dict_get obj_eqb d a = dict_get obj_eqb d b.
Proof.
  intros E. apply Nat.eqb_eq in E.
  induction d as [| [k0 v0] r IH]; cbn [dict_get]; [reflexivity |].
  change (obj_eqb a k0) with (Nat.eqb (oid a) (oid k0)).
  change (obj_eqb b k0) with (Nat.eqb (oid b) (oid k0)).
  rewrite E, IH. reflexivity.
Qed.

(** Repeated in-place changes under one key are one change by the
    composed function; no key moves and no other entry is read. *)
Lemma fold_alter_get {R}
  (f : R -> AttrDict * PredDict -> AttrDict * PredDict) (refs : list R)
  (cs : dict IndyObject (AttrDict * PredDict)) (cred c : IndyObject) :
  dict_get obj_eqb
    (fold_left (fun cs r => dict_alter obj_eqb (f r) cs cred) refs cs) c
  = if obj_eqb c cred
    then option_map (fun e => fold_left (fun e r => f r e) refs e)
                    (dict_get obj_eqb cs cred)
    else dict_get obj_eqb cs c.
Proof.
  revert cs. induction refs as [| r refs IH]; intros cs; cbn [fold_left].
  - destruct (obj_eqb c cred) eqn:E; [| reflexivity].
    rewrite (dict_get_same_object cs c cred E).
    destruct (dict_get obj_eqb cs cred); reflexivity.
  - rewrite IH. destruct (obj_eqb c cred) eqn:E.
    + rewrite (@dict_get_alter _ _ obj_eqb obj_eqb_sym obj_eqb_trans).
      unfold obj_eqb at 1. rewrite Nat.eqb_refl.
      destruct (dict_get obj_eqb cs cred); reflexivity.
    + rewrite (@dict_get_alter _ _ obj_eqb obj_eqb_sym obj_eqb_trans), E.
      reflexivity.
Qed.

Lemma fold_alter_keys {R}
  (f : R -> AttrDict * PredDict -> AttrDict * PredDict) (refs : list R)
  (cs : dict IndyObject (AttrDict * PredDict)) (cred : IndyObject) :
  keys (fold_left (fun cs r => dict_alter obj_eqb (f r) cs cred) refs cs)
  = keys cs.
Proof.
  revert cs. induction refs as [| r refs IH]; intros cs; cbn [fold_left];
    [reflexivity |].
  rewrite IH. apply keys_alter.
Qed.

Lemma ensure_entry_get (cs : dict IndyObject (AttrDict * PredDict))
  (cred c : IndyObject) :
  dict_get obj_eqb (ensure_entry cs cred) c
  = if obj_eqb c cred
    then Some (match dict_get obj_eqb cs cred with
               | Some e => e
               | None => ([], [])
               end)
    else dict_get obj_eqb cs c.
Proof.
  unfold ensure_entry, dict_contains.
  destruct (dict_get obj_eqb cs cred) as [e |] eqn:G; cbn [negb].
  - destruct (obj_eqb c cred) eqn:E; [| reflexivity].
    rewrite <- G. apply dict_get_same_object. exact E.
  - rewrite (@dict_get_set _ _ obj_eqb obj_eqb_sym obj_eqb_trans).
    destruct (obj_eqb c cred); reflexivity.
Qed.

(** After [ensure_entry] the key is there, so the item assignments of the
    two loops never meet a missing key. *)
Lemma ensure_entry_present (cs : dict IndyObject (AttrDict * PredDict))
  (cred : IndyObject) :
  dict_contains obj_eqb (ensure_entry cs cred) cred = true.
Proof.
  unfold dict_contains. rewrite ensure_entry_get.
  unfold obj_eqb. rewrite Nat.eqb_refl. reflexivity.
Qed.

Lemma ensure_entry_keys (cs : dict IndyObject (AttrDict * PredDict))
  (cred : IndyObject) :
  keys (ensure_entry cs cred)
  = if dict_contains obj_eqb cs cred then keys cs else keys cs ++ [cred].
Proof.
  unfold ensure_entry.
  destruct (dict_contains obj_eqb cs cred) eqn:E; cbn [negb];
    [reflexivity |].
  rewrite keys_set, E. reflexivity.
Qed.

(** The writes of one [add_attributes] into the attribute dictionary. *)
Lemma attrs_written {A P} (refs : list string) (v : A)
  (e : dict string A * P) :
  snd (fold_left (fun e r => (dict_set String.eqb (fst e) r v, snd e))
                 refs e) = snd e
  /\ forall r,
       dict_get String.eqb
         (fst (fold_left (fun e r => (dict_set String.eqb (fst e) r v, snd e))
                         refs e)) r
       = if existsb (String.eqb r) refs then Some v
         else dict_get String.eqb (fst e) r.
Proof.
  revert e. induction refs as [| r0 refs IH]; intros e; cbn [fold_left].
  - split; reflexivity.
  - destruct (IH (dict_set String.eqb (fst e) r0 v, snd e)) as [S1 G1].
    split; [rewrite S1; reflexivity |].
    intros r. rewrite G1. cbn [fst existsb].
    rewrite (@dict_get_set _ _ String.eqb string_eqb_sym string_eqb_trans).
    destruct (String.eqb r r0), (existsb (String.eqb r) refs); reflexivity.
Qed.

(** The writes of one [add_predicates] into the predicate dictionary. *)
Lemma preds_written {A P} (refs : list string) (v : P)
  (e : A * dict string P) :
  fst (fold_left (fun e r => (fst e, dict_set String.eqb (snd e) r v))
                 refs e) = fst e
  /\ forall r,
       dict_get String.eqb
         (snd (fold_left (fun e r => (fst e, dict_set String.eqb (snd e) r v))
                         refs e)) r
       = if existsb (String.eqb r) refs then Some v
         else dict_get String.eqb (snd e) r.
Proof.
  revert e. induction refs as [| r0 refs IH]; intros e; cbn [fold_left].
  - split; reflexivity.
  - destruct (IH (fst e, dict_set String.eqb (snd e) r0 v)) as [S1 G1].
    split; [rewrite S1; reflexivity |].
    intros r. rewrite G1. cbn [snd existsb].
    rewrite (@dict_get_set _ _ String.eqb string_eqb_sym string_eqb_trans).
    destruct (String.eqb r r0), (existsb (String.eqb r) refs); reflexivity.
Qed.

End Accumulator.

(** ** The loop of [Presentation.create] *)

Lemma fold_append {A E} (g : list E -> A -> list E) (f : A -> E)
  (l : list A) (acc : list E) :
  (forall cp a, g cp a = cp ++ [f a]) ->
  fold_left g l acc = acc ++ map f l.
Proof.
  intros G. revert acc.
  induction l as [| a l IH]; intros acc; cbn [fold_left map].
  - symmetry. apply app_nil_r.
  - rewrite IH, G, <- app_assoc. reflexivity.
Qed.

Lemma prove_step_spec (creds : list ObjectHandle)
  (creds_prove : list CredentialProve.t)
  (item : IndyObject *
          (PresentCredentials.AttrDict * PresentCredentials.PredDict)) :
  Presentation.prove_step (creds, creds_prove) item
  = (creds ++ [handle (fst item)],
     creds_prove ++ entries_at (length creds) item).
Proof.
  destruct item as [cred [attrs preds]].
  unfold Presentation.prove_step, entries_at. cbn [fst snd]. f_equal.
  rewrite app_assoc.
  rewrite (fold_append _
             (fun p => CredentialProve.predicate
                         (length creds) (fst p) (snd p)))
    by (intros cp [reft ts]; reflexivity).
  rewrite (fold_append _
             (fun a => CredentialProve.attribute
                         (length creds) (fst a) (fst (snd a)) (snd (snd a))))
    by (intros cp [reft [reveal ts]]; reflexivity).
  reflexivity.
Qed.

Lemma prove_loop_spec
  (items : list (IndyObject *
                 (PresentCredentials.AttrDict * PresentCredentials.PredDict)))
  (creds : list ObjectHandle) (creds_prove : list CredentialProve.t) :
  fold_left Presentation.prove_step items (creds, creds_prove)
  = (creds ++ map (fun item => handle (fst item)) items,
     creds_prove ++ entries_from (length creds) items).
Proof.
  revert creds creds_prove.
  induction items as [| item items IH]; intros creds creds_prove;
    cbn [fold_left map entries_from].
  - rewrite !app_nil_r. reflexivity.
  - rewrite prove_step_spec, IH, length_app, <- !app_assoc. cbn [length app].
    rewrite Nat.add_1_r. reflexivity.
Qed.

Lemma prove_lists_spec (present_creds : PresentCredentials.t) :
  Presentation.prove_lists present_creds
  = (map (fun item => handle (fst item))
         (PresentCredentials.creds present_creds),
     entries_from 0 (PresentCredentials.creds present_creds)).
Proof. unfold Presentation.prove_lists. apply prove_loop_spec. Qed.

Lemma entries_at_idx (idx : nat) item (e : CredentialProve.t) :
  In e (entries_at idx item) -> CredentialProve.entry_idx e = idx.
Proof.
  unfold entries_at. intros I. apply in_app_or in I.
  destruct I as [I | I]; apply in_map_iff in I;
    destruct I as (x & <- & _); reflexivity.
Qed.

Lemma entries_from_in (n : nat) items (e : CredentialProve.t) :
  In e (entries_from n items) <->
  exists i item, nth_error items i = Some item
                 /\ In e (entries_at (n + i) item).
Proof.
  revert n. induction items as [| item items IH]; intros n;
    cbn [entries_from].
  - split; [intros [] | intros (i & it & E & _); destruct i; discriminate E].
  - rewrite in_app_iff, IH. split.
    + intros [I | (i & it & E & I)].
      * exists 0, item. rewrite Nat.add_0_r. split; [reflexivity | exact I].
      * exists (S i), it. rewrite Nat.add_succ_r. split; assumption.
    + intros (i & it & E & I). destruct i as [| i]; cbn in E.
      * left. inversion E. subst. rewrite Nat.add_0_r in I. exact I.
      * right. exists i, it. rewrite Nat.add_succ_r in I. split; assumption.
Qed.

Section PresentationCreate.
Context {W : Type} {B : Bindings W}.

(** A comprehension returns one result per element, in order: the result
    at a position comes from the element at that position. *)
Lemma for_each_pointwise (from_json : string -> Py W IndyObject)
  (xs : list (StrOr IndyObject)) (os : list IndyObject)
  (rt rt' : Runtime W) :
  for_each (coerce from_json) xs rt = (Ok os, rt') ->
  Forall2 (fun x o =>
             match x with
             | inl value => exists r r', from_json value r = (Ok o, r')
             | inr o' => o = o'
             end) xs os.
Proof.
  revert os rt. induction xs as [| x xs IH]; intros os rt; cbn [for_each].
  - unfold ret. intros E. inversion E. constructor.
  - intros E. apply bind_inv in E. destruct E as (o & r1 & E1 & E).
    apply bind_inv in E. destruct E as (os' & r2 & E2 & E).
    unfold ret in E. inversion E. subst. constructor.
    + destruct x as [value | o']; cbn [coerce] in E1.
      * exists rt, r1. exact E1.
      * unfold ret in E1. inversion E1. reflexivity.
    + exact (IH _ _ E2).
Qed.

(** C6.  In [Presentation.create] the handle of the credential selected
    at position [i] of the accumulator is the element at position [i] of
    the credentials list given to [create_presentation]; the prove list
    consists of exactly the attribute and predicate entries of the
    selected credentials, each carrying the position of its credential;
    and the handles of the schemas and of the credential definitions are
    given to [create_presentation] in the order the caller supplied
    them, a serialized element being deserialized at its own position. *)
Theorem presentation_indices (present_creds : PresentCredentials.t) :
  let creds := fst (Presentation.prove_lists present_creds) in
  let creds_prove := snd (Presentation.prove_lists present_creds) in
  (forall i item,
     nth_error (PresentCredentials.creds present_creds) i = Some item ->
     nth_error creds i = Some (handle (fst item))
     /\ forall e, In e (entries_at i item) ->
                  In e creds_prove /\ CredentialProve.entry_idx e = i)
  /\ (forall e,
        In e creds_prove ->
        exists item,
          nth_error (PresentCredentials.creds present_creds)
                    (CredentialProve.entry_idx e) = Some item
          /\ nth_error creds (CredentialProve.entry_idx e)
             = Some (handle (fst item))
          /\ In e (entries_at (CredentialProve.entry_idx e) item))
  /\ length creds = length (PresentCredentials.creds present_creds)
  /\ (forall pres_req master_secret schemas cred_defs (rt : Runtime W),
        Presentation.create
          pres_req present_creds master_secret schemas cred_defs rt
        = (r <- coerce (fun s => PresentationRequest.from_json (inr s))
                       pres_req ;;
           m <- coerce MasterSecret.from_json master_secret ;;
           ss <- for_each (coerce Schema.from_json) schemas ;;
           cs <- for_each (coerce CredentialDefinition.from_json) cred_defs ;;
           h <- call (create_presentation
                        (handle r)
                        (PresentCredentials.self_attest present_creds)
                        creds creds_prove (handle m)
                        (map handle ss) (map handle cs)) ;;
           construct CPresentation h) rt)
  /\ (forall schemas ss (rt rt' : Runtime W),
        for_each (coerce Schema.from_json) schemas rt = (Ok ss, rt') ->
        Forall2 (fun x o =>
                   match x with
                   | inl value =>
                       exists r r', Schema.from_json value r = (Ok o, r')
                   | inr o' => o = o'
                   end) schemas ss)
  /\ (forall cred_defs cs (rt rt' : Runtime W),
        for_each (coerce CredentialDefinition.from_json) cred_defs rt
        = (Ok cs, rt') ->
        Forall2 (fun x o =>
                   match x with
                   | inl value =>
                       exists r r',
                         CredentialDefinition.from_json value r = (Ok o, r')
                   | inr o' => o = o'
                   end) cred_defs cs).
Proof.
  cbn zeta. rewrite prove_lists_spec. cbn [fst snd].
  split; [| split; [| split; [| split; [| split]]]].
  - intros i item E. split.
    + rewrite nth_error_map, E. reflexivity.
    + intros e I. split; [| exact (entries_at_idx _ _ _ I)].
      apply entries_from_in. exists i, item. split; assumption.
  - intros e I. apply entries_from_in in I. destruct I as (i & item & E & I).
    cbn [Nat.add] in I. rewrite (entries_at_idx _ _ _ I).
    exists item. split; [exact E | split; [| exact I]].
    rewrite nth_error_map, E. reflexivity.
  - apply length_map.
  - intros. rewrite Presentation_create_coerced.
    apply bind_ext. intros r rt1. apply bind_ext. intros m rt2.
    apply bind_ext. intros ss rt3. apply bind_ext. intros cs rt4.
    rewrite Presentation_create_objects, prove_lists_spec. reflexivity.
  - intros schemas ss rt rt'. apply for_each_pointwise.
  - intros cred_defs cs rt rt'. apply for_each_pointwise.
Qed.

End PresentationCreate.

(** ** Frame properties of the accumulator *)

Section Frame.
Import PresentCredentials.

Lemma entry_after_fold {R}
  (f : R -> AttrDict * PredDict -> AttrDict * PredDict)
  (self : t) (cred : IndyObject) (refs : list R) :
  dict_get obj_eqb
    (fold_left (fun cs r => dict_alter obj_eqb (f r) cs cred) refs
               (ensure_entry (creds self) cred)) cred
  = Some (fold_left (fun e r => f r e) refs (entry_or_empty self cred)).
Proof.
  rewrite fold_alter_get, ensure_entry_get.
  unfold obj_eqb. rewrite Nat.eqb_refl. reflexivity.
Qed.

Lemma others_after_fold {R}
  (f : R -> AttrDict * PredDict -> AttrDict * PredDict)
  (self : t) (cred c : IndyObject) (refs : list R) :
  obj_eqb c cred = false ->
  dict_get obj_eqb
    (fold_left (fun cs r => dict_alter obj_eqb (f r) cs cred) refs
               (ensure_entry (creds self) cred)) c
  = dict_get obj_eqb (creds self) c.
Proof.
  intros E. rewrite fold_alter_get, E, ensure_entry_get, E. reflexivity.
Qed.

Lemma keys_after_fold {R}
  (f : R -> AttrDict * PredDict -> AttrDict * PredDict)
  (self : t) (cred : IndyObject) (refs : list R) :
  keys (fold_left (fun cs r => dict_alter obj_eqb (f r) cs cred) refs
                  (ensure_entry (creds self) cred))
  = if dict_contains obj_eqb (creds self) cred
    then keys (creds self) else keys (creds self) ++ [cred].
Proof. rewrite fold_alter_keys. apply ensure_entry_keys. Qed.

(** C7.  Each operation of [PresentCredentials] maps an accumulator to an
    accumulator and touches only what it writes.  [add_self_attested]
    leaves [creds] alone, keeps the existing keys of [self_attest] in
    place and keeps the value of every key outside [attest].
    [add_attributes] leaves [self_attest] alone, keeps the existing
    credentials in place, keeps the entry of every other credential, and
    for the credential it is given keeps the predicate selections and the
    attribute selections of every referent outside [referents];
    [add_predicates] is symmetric.  (The operations take and return the
    accumulator only: they have no access to the library state.) *)
Theorem accumulation_frame (self : t) :
  (forall attest,
     let self' := add_self_attested self attest in
     creds self' = creds self
     /\ (exists added,
           keys (self_attest self') = keys (self_attest self) ++ added)
     /\ forall k,
          existsb (String.eqb k) (keys attest) = false ->
          dict_get String.eqb (self_attest self') k
          = dict_get String.eqb (self_attest self) k)
  /\ (forall cred referents reveal timestamp,
        let self' := add_attributes self cred referents reveal timestamp in
        self_attest self' = self_attest self
        /\ (exists added, keys (creds self') = keys (creds self) ++ added)
        /\ (forall c,
              obj_eqb c cred = false ->
              dict_get obj_eqb (creds self') c
              = dict_get obj_eqb (creds self) c)
        /\ snd (entry_or_empty self' cred) = snd (entry_or_empty self cred)
        /\ forall r,
             existsb (String.eqb r) referents = false ->
             dict_get String.eqb (fst (entry_or_empty self' cred)) r
             = dict_get String.eqb (fst (entry_or_empty self cred)) r)
  /\ (forall cred referents timestamp,
        let self' := add_predicates self cred referents timestamp in
        self_attest self' = self_attest self
        /\ (exists added, keys (creds self') = keys (creds self) ++ added)
        /\ (forall c,
              obj_eqb c cred = false ->
              dict_get obj_eqb (creds self') c
              = dict_get obj_eqb (creds self) c)
        /\ fst (entry_or_empty self' cred) = fst (entry_or_empty self cred)
        /\ forall r,
             existsb (String.eqb r) referents = false ->
             dict_get String.eqb (snd (entry_or_empty self' cred)) r
             = dict_get String.eqb (snd (entry_or_empty self cred)) r).
Proof.
  split; [| split].
  - intros [| kv attest]; cbn zeta.
    + split; [reflexivity | split; [| reflexivity]].
      exists []. symmetry. apply app_nil_r.
    + cbn [add_self_attested creds self_attest].
      split; [reflexivity | split].
      * apply keys_update.
      * intros k E.
        apply (@dict_get_update_other _ _ String.eqb
                 string_eqb_sym string_eqb_trans).
        exact E.
  - intros cred [| r0 rs] reveal timestamp; cbn zeta.
    + repeat split. exists []. symmetry. apply app_nil_r.
    + unfold entry_or_empty at 1 3.
      cbn [add_attributes creds self_attest].
      rewrite entry_after_fold, keys_after_fold.
      split; [reflexivity | split; [| split; [| split]]].
      * destruct (dict_contains obj_eqb (creds self) cred);
          [exists []; symmetry; apply app_nil_r | eexists; reflexivity].
      * intros c E. apply others_after_fold. exact E.
      * apply (attrs_written (r0 :: rs) (reveal, timestamp)).
      * intros r E.
        destruct (attrs_written (r0 :: rs) (reveal, timestamp)
                                (entry_or_empty self cred)) as [_ G].
        rewrite G, E. reflexivity.
  - intros cred [| r0 rs] timestamp; cbn zeta.
    + repeat split. exists []. symmetry. apply app_nil_r.
    + unfold entry_or_empty at 1 3.
      cbn [add_predicates creds self_attest].
      rewrite entry_after_fold, keys_after_fold.
      split; [reflexivity | split; [| split; [| split]]].
      * destruct (dict_contains obj_eqb (creds self) cred);
          [exists []; symmetry; apply app_nil_r | eexists; reflexivity].
      * intros c E. apply others_after_fold. exact E.
      * apply (preds_written (r0 :: rs) timestamp).
      * intros r E.
        destruct (preds_written (r0 :: rs) timestamp
                                (entry_or_empty self cred)) as [_ G].
        rewrite G, E. reflexivity.
Qed.

(** C9.  With an empty referents sequence [add_attributes] and
    [add_predicates] return the accumulator as it was, whatever the
    credential and the other arguments; [add_self_attested] does the same
    with an empty mapping. *)
Theorem empty_selection_is_noop (self : t) :
  (forall cred reveal timestamp,
     add_attributes self cred [] reveal timestamp = self)
  /\ (forall cred timestamp, add_predicates self cred [] timestamp = self)
  /\ add_self_attested self [] = self.
Proof. repeat split. Qed.

End Frame.

(** ** One entry per credential *)

Section OnePerCredential.
Import PresentCredentials.

Lemma distinct_snoc (l : list IndyObject) (c : IndyObject) :
  existsb (obj_eqb c) l = false ->
  distinct_objects l = true ->
  distinct_objects (l ++ [c]) = true.
Proof.
  induction l as [| k r IH]; cbn [existsb distinct_objects app];
    [reflexivity |].
  intros E D. apply orb_false_elim in E. destruct E as [E0 E].
  apply andb_prop in D. destruct D as [D0 D].
  rewrite (IH E D), existsb_app. cbn [existsb].
  rewrite (obj_eqb_sym k c), E0. cbn [orb].
  rewrite orb_false_r, D0. reflexivity.
Qed.




Lemma distinct_after_fold {R}
  (f : R -> AttrDict * PredDict -> AttrDict * PredDict)
  (self : t) (cred : IndyObject) (refs : list R) :
  distinct_keys (creds self) = true ->
  distinct_keys
    (fold_left (fun cs r => dict_alter obj_eqb (f r) cs cred) refs
               (ensure_entry (creds self) cred)) = true.
Proof.
  unfold distinct_keys. intros D. rewrite keys_after_fold.
  destruct (dict_contains obj_eqb (creds self) cred) eqn:E; [exact D |].
  apply distinct_snoc; [| exact D].
  rewrite <- dict_contains_existsb. exact E.
Qed.



End OnePerCredential.

(** ** Wrapper calls, inverted *)

Section WrapperInversion.
Context {W : Type} {B : Bindings W}.

Lemma call_ok {A} (f : Lib W A) (rt : Runtime W) (a : A) (w' : W) :
  f (world rt) = (Ok a, w') ->
  call f rt = (Ok a, {| next_oid := next_oid rt; world := w' |}).
Proof. intros E. unfold call. rewrite E. reflexivity. Qed.

Lemma call_raise {A} (f : Lib W A) (rt : Runtime W) (e : Error) (w' : W) :
  f (world rt) = (Raise e, w') ->
  call f rt = (Raise e, {| next_oid := next_oid rt; world := w' |}).
Proof. intros E. unfold call. rewrite E. reflexivity. Qed.

Lemma CredentialDefinition_create_inv (origin_did : string)
  (schema : IndyObject) (signature_type : string)
  (support_revocation : bool) (tag : option string)
  (rt rt' : Runtime W) (o1 o2 o3 : IndyObject) :
  CredentialDefinition.create
    origin_did (Obj schema) signature_type support_revocation tag rt
  = (Ok (o1, o2, o3), rt') ->
  create_credential_definition
    origin_did (handle schema) tag signature_type support_revocation
    (world rt)
  = (Ok (handle o1, handle o2, handle o3), world rt').
Proof.
  unfold CredentialDefinition.create, Obj. cbn [coerce].
  rewrite bind_ret_l. intros E.
  apply bind_inv in E. destruct E as ([[h1 h2] h3] & rt1 & E1 & E).
  apply call_inv in E1. destruct E1 as [E1 _].
  apply bind_inv in E. destruct E as (a1 & rt2 & C1 & E).
  apply bind_inv in E. destruct E as (a2 & rt3 & C2 & E).
  apply bind_inv in E. destruct E as (a3 & rt4 & C3 & E).
  apply construct_inv in C1, C2, C3.
  destruct C1 as [-> ->], C2 as [-> ->], C3 as [-> ->].
  inversion E. subst. exact E1.
Qed.

Lemma Credential_process_inv (self cred_req_metadata master_secret
  cred_def : IndyObject) (rt rt' : Runtime W) (r : Result IndyObject) :
  Credential.process self (Obj cred_req_metadata) (Obj master_secret)
                     (Obj cred_def) rt = (r, rt') ->
  (exists h,
     process_credential (handle self) (handle cred_req_metadata)
       (handle master_secret) (handle cred_def) None (world rt)
     = (Ok h, world rt')
     /\ r = Ok {| oid := next_oid rt; cls := CCredential; handle := h |}
     /\ next_oid rt' = S (next_oid rt))
  \/ (exists e,
        process_credential (handle self) (handle cred_req_metadata)
          (handle master_secret) (handle cred_def) None (world rt)
        = (Raise e, world rt')
        /\ r = Raise e /\ next_oid rt' = next_oid rt).
Proof.
  unfold Credential.process, Obj. cbn [coerce]. rewrite !bind_ret_l.
  unfold bind, call, construct.
  destruct (process_credential _ _ _ _ _ (world rt)) as [[h | e] w'];
    cbn; intros E; inversion E; subst; cbn.
  - left. exists h. repeat split.
  - right. exists e. repeat split.
Qed.

Lemma CredentialRequest_create_inv (prover_did : string)
  (cred_def master_secret : IndyObject) (master_secret_id : string)
  (cred_offer : IndyObject) (rt rt' : Runtime W) (o1 o2 : IndyObject) :
  CredentialRequest.create prover_did (Obj cred_def) (Obj master_secret)
                           master_secret_id (Obj cred_offer) rt
  = (Ok (o1, o2), rt') ->
  create_credential_request
    prover_did (handle cred_def) (handle master_secret) master_secret_id
    (handle cred_offer) (world rt)
  = (Ok (handle o1, handle o2), world rt').
Proof.
  unfold CredentialRequest.create, Obj. cbn [coerce].
  rewrite !bind_ret_l. intros E.
  apply bind_inv in E. destruct E as ([h1 h2] & rt1 & E1 & E).
  apply call_inv in E1. destruct E1 as [E1 _].
  apply bind_inv in E. destruct E as (a1 & rt2 & C1 & E).
  apply bind_inv in E. destruct E as (a2 & rt3 & C2 & E).
  apply construct_inv in C1, C2.
  destruct C1 as [-> ->], C2 as [-> ->].
  inversion E. subst. exact E1.
Qed.

Lemma Credential_create_inv
  (cred_def cred_def_private cred_offer cred_request : IndyObject)
  (raw : StrMapping) (enc : option StrMapping) (rt rt' : Runtime W)
  (o : IndyObject) :
  Credential.create (Obj cred_def) (Obj cred_def_private) (Obj cred_offer)
                    (Obj cred_request) raw enc rt
  = (Ok o, rt') ->
  create_credential
    (handle cred_def) (handle cred_def_private) (handle cred_offer)
    (handle cred_request) raw enc None (world rt)
  = (Ok (handle o), world rt')
  /\ cls o = CCredential.
Proof.
  unfold Credential.create, Obj. cbn [coerce].
  rewrite !bind_ret_l. intros E.
  apply wrapped_class in E. tauto.
Qed.

End WrapperInversion.

(** ** The model, inverted *)

Section ModelFacts.
Import CoreModel.
Context {P : Primitives}.

Ltac split_lookups H :=
  repeat match type of H with
         | context [nth_error ?l ?n] =>
             let L := fresh "L" in
             destruct (nth_error l n) as [[] |] eqn:L;
             cbn in H; try discriminate H
         end.

Lemma nth_error_last {A} (l : list A) (a : A) :
  nth_error (l ++ [a]) (length l) = Some a.
Proof. rewrite nth_error_app2, Nat.sub_diag by lia. reflexivity. Qed.

Lemma nth_error_kept {A} (l l' : list A) (n : nat) (a : A) :
  nth_error l n = Some a -> nth_error (l ++ l') n = Some a.
Proof.
  intros E. rewrite nth_error_app1; [exact E |].
  apply nth_error_Some. rewrite E. discriminate.
Qed.

Lemma request_inv (prover_did : string) (cred_def master_secret : ObjectHandle)
  (master_secret_id : string) (cred_offer rq md : ObjectHandle)
  (w w' : World) :
  m_create_credential_request
    prover_did cred_def master_secret master_secret_id cred_offer w
  = (Ok (rq, md), w') ->
  exists i s t g r attrs pk a sid cid n,
    nth_error (arena w) cred_def
    = Some (OCredentialDefinition i s t g r attrs pk)
    /\ nth_error (arena w) master_secret = Some (OMasterSecret a)
    /\ nth_error (arena w) cred_offer = Some (OCredentialOffer sid cid n)
    /\ rq = length (arena w)
    /\ md = S (length (arena w))
    /\ arena w'
       = arena w
         ++ [OCredentialRequest prover_did (cred_def_id_of i s t)
               (commit pk a (random (drawn w))) n;
             OCredentialRequestMetadata (random (drawn w)) n
               master_secret_id].
Proof.
  unfold m_create_credential_request, get_cred_def, lookup, draw, alloc,
    bind, ret, raise.
  intros H. cbn in H. split_lookups H.
  destruct (key_ok public_key); cbn in H; [| discriminate H].
  inversion H. subst. cbn. rewrite length_app, Nat.add_1_r, <- app_assoc.
  repeat eexists; eauto.
Qed.

Lemma issue_inv
  (cred_def cred_def_private cred_offer cred_request : ObjectHandle)
  (raw : StrMapping) (enc : option StrMapping)
  (rev : option RevocationConfig) (h : ObjectHandle) (w w' : World) :
  m_create_credential
    cred_def cred_def_private cred_offer cred_request raw enc rev w
  = (Ok h, w') ->
  exists p c cm n sid cid values sg,
    nth_error (arena w) cred_request = Some (OCredentialRequest p c cm n)
    /\ h = length (arena w)
    /\ drawn w' = drawn w
    /\ arena w' = arena w ++ [OCredential sid cid values cm sg true].
Proof.
  unfold m_create_credential, get_cred_def, lookup, alloc, bind, ret, raise.
  intros H. cbn in H. split_lookups H.
  destruct (same_names (keys raw) attr_names); cbn in H; [| discriminate H].
  inversion H. subst. cbn. repeat eexists; eauto.
Qed.

Lemma nth_error_replaced {A} (l : list A) (n : nat) (a x : A) :
  nth_error l n = Some a -> nth_error (replace_at n x l) n = Some x.
Proof.
  revert n. induction l as [| b l IH]; intros n E;
    [destruct n; discriminate E |].
  destruct n as [| n]; cbn [replace_at nth_error] in *;
    [reflexivity | exact (IH _ E)].
Qed.

Lemma nth_error_not_replaced {A} (l : list A) (n k : nat) (x : A) :
  k <> n -> nth_error (replace_at n x l) k = nth_error l k.
Proof.
  revert n k. induction l as [| b l IH]; intros n k N;
    [destruct n; reflexivity |].
  destruct n as [| n], k as [| k]; cbn [replace_at nth_error];
    try reflexivity; [contradiction | apply IH; lia].
Qed.

Lemma length_replace_at {A} (l : list A) (n : nat) (x : A) :
  length (replace_at n x l) = length l.
Proof.
  revert n. induction l as [| b l IH]; intros n; [destruct n; reflexivity |].
  destruct n as [| n]; cbn [replace_at length]; [| rewrite IH]; reflexivity.
Qed.

(** A successful [process_credential] overwrote the credential under the
    handle it was given and returned that handle. *)
Lemma process_inv (cred md ms cd : ObjectHandle)
  (rev : option ObjectHandle) (h : ObjectHandle) (w w' : World) :
  m_process_credential cred md ms cd rev w = (Ok h, w') ->
  h = cred
  /\ drawn w' = drawn w
  /\ exists sid cid values cm sg b v,
       nth_error (arena w) cred = Some (OCredential sid cid values cm sg b)
       /\ arena w'
          = replace_at cred
              (OCredential sid cid values cm (unblind sg v) false) (arena w).
Proof.
  unfold m_process_credential, get_credential, get_cred_def, lookup, store,
    bind, ret, raise.
  intros H. cbn in H.
  destruct (nth_error (arena w) cred) as [[] |] eqn:L1; cbn in H;
    try discriminate H.
  destruct (nth_error (arena w) md) as [[] |] eqn:L2; cbn in H;
    try discriminate H;
    destruct (nth_error (arena w) ms) as [[] |] eqn:L3; cbn in H;
    try discriminate H;
    destruct (nth_error (arena w) cd) as [[] |] eqn:L4; cbn in H;
    try discriminate H.
  destruct (Z.eqb (commit public_key ms0 blinding) commitment); cbn in H;
    [| discriminate H].
  inversion H. subst. cbn. repeat split.
  do 7 eexists. split; reflexivity.
Qed.

(** What [process_credential] computes once its four handles resolve. *)
Lemma process_eval (cred md ms cd : ObjectHandle)
  (rev : option ObjectHandle) (w : World)
  sid cid values cm sg b v n name m i s t g r attrs pk :
  nth_error (arena w) cred = Some (OCredential sid cid values cm sg b) ->
  nth_error (arena w) md = Some (OCredentialRequestMetadata v n name) ->
  nth_error (arena w) ms = Some (OMasterSecret m) ->
  nth_error (arena w) cd = Some (OCredentialDefinition i s t g r attrs pk) ->
  m_process_credential cred md ms cd rev w
  = if Z.eqb (commit pk m v) cm
    then (Ok cred,
          {| arena := replace_at cred
                        (OCredential sid cid values cm (unblind sg v) false)
                        (arena w);
             drawn := drawn w |})
    else (Raise UnblindingError, w).
Proof.
  intros L1 L2 L3 L4.
  unfold m_process_credential, get_credential, get_cred_def, lookup, store,
    bind, ret, raise.
  rewrite L1. cbn. rewrite L2, L3, L4. cbn.
  destruct (Z.eqb (commit pk m v) cm); reflexivity.
Qed.

Lemma nth_error_second {A} (l : list A) (a b : A) :
  nth_error (l ++ [a; b]) (S (length l)) = Some b.
Proof.
  rewrite nth_error_app2 by lia.
  replace (S (length l) - length l) with 1 by lia. reflexivity.
Qed.

Lemma nth_error_first {A} (l : list A) (a b : A) :
  nth_error (l ++ [a; b]) (length l) = Some a.
Proof. rewrite nth_error_app2, Nat.sub_diag by lia. reflexivity. Qed.

Lemma runtime_eta (rt : Runtime World) :
  {| next_oid := next_oid rt; world := world rt |} = rt.
Proof. destruct rt. reflexivity. Qed.

(** The wrapper's [process] on live objects, in the model. *)
Lemma Credential_process_model
  (self cred_req_metadata master_secret cred_def : IndyObject)
  (rt : Runtime World) :
  Credential.process self (Obj cred_req_metadata) (Obj master_secret)
                     (Obj cred_def) rt
  = match m_process_credential
            (handle self) (handle cred_req_metadata) (handle master_secret)
            (handle cred_def) None (world rt)
    with
    | (Ok h, w') =>
        (Ok {| oid := next_oid rt; cls := CCredential; handle := h |},
         {| next_oid := S (next_oid rt); world := w' |})
    | (Raise e, w') => (Raise e, {| next_oid := next_oid rt; world := w' |})
    end.
Proof.
  unfold Credential.process, Obj. cbn [coerce]. rewrite !bind_ret_l.
  unfold bind, call, construct. cbn [process_credential core].
  destruct (m_process_credential _ _ _ _ _ (world rt)) as [[h | e] w'];
    reflexivity.
Qed.

(** C4.  Let a request be created with master secret [a] and a credential
    be issued for it.  Processing that credential with the metadata of
    the request and a master secret [b] different from [a] raises
    [UnblindingError] (a binding mismatch), returns no credential and
    changes nothing; processing it with the master secret of the request
    returns a new object of class [Credential] whose signature is
    unblinded.  The commitment is assumed binding: under one key and one
    blinding factor, two master secrets with the same commitment are
    equal. *)
Theorem process_binds_master_secret
  (prover_did master_secret_id : string)
  (cred_def cred_def_private cred_offer secret other : IndyObject)
  (raw : StrMapping) (enc : option StrMapping)
  (rt0 rt1 rt2 : Runtime World) (request metadata cred : IndyObject)
  (a b : Z) :
  (forall pk m m' v, commit pk m v = commit pk m' v -> m = m') ->
  CredentialRequest.create prover_did (Obj cred_def) (Obj secret)
                           master_secret_id (Obj cred_offer) rt0
  = (Ok (request, metadata), rt1) ->
  Credential.create (Obj cred_def) (Obj cred_def_private) (Obj cred_offer)
                    (Obj request) raw enc rt1
  = (Ok cred, rt2) ->
  nth_error (arena (world rt0)) (handle secret) = Some (OMasterSecret a) ->
  nth_error (arena (world rt0)) (handle other) = Some (OMasterSecret b) ->
  (a <> b ->
   Credential.process cred (Obj metadata) (Obj other) (Obj cred_def) rt2
   = (Raise UnblindingError, rt2)
   /\ error_kind UnblindingError = Some KBindingMismatch)
  /\ exists o rt3,
       Credential.process cred (Obj metadata) (Obj secret) (Obj cred_def) rt2
       = (Ok o, rt3)
       /\ cls o = CCredential
       /\ unblinded_at (world rt2) (handle cred) = false
       /\ unblinded_at (world rt3) (handle o) = true.
Proof.
  intros binding H1 H2 La Lb.
  apply CredentialRequest_create_inv in H1.
  cbn [create_credential_request core] in H1.
  apply request_inv in H1.
  destruct H1 as (i & s & t & g & r & attrs & pk & a' & sid & cid & n
                  & Lcd & La' & Lo & Hrq & Hmd & A1).
  rewrite La in La'. inversion La'. subst a'. clear La'.
  apply Credential_create_inv in H2. destruct H2 as [H2 _].
  cbn [create_credential core] in H2. apply issue_inv in H2.
  destruct H2 as (p & c & cm & n' & sid' & cid' & values & sg
                  & Lrq & Hc & _ & A2).
  rewrite Hrq, A1, nth_error_first in Lrq. inversion Lrq. subst. clear Lrq.
  set (v := random (drawn (world rt0))) in *.
  assert (L1 : nth_error (arena (world rt2)) (handle cred)
               = Some (OCredential sid' cid' values (commit pk a v) sg true)).
  { rewrite Hc, A2. apply nth_error_last. }
  assert (L2 : nth_error (arena (world rt2)) (handle metadata)
               = Some (OCredentialRequestMetadata v n' master_secret_id)).
  { rewrite Hmd, A2, A1. apply nth_error_kept. apply nth_error_second. }
  assert (L4 : nth_error (arena (world rt2)) (handle cred_def)
               = Some (OCredentialDefinition i s t g r attrs pk)).
  { rewrite A2, A1. do 2 apply nth_error_kept. exact Lcd. }
  split.
  - intros N. split; [| reflexivity].
    assert (L3 : nth_error (arena (world rt2)) (handle other)
                 = Some (OMasterSecret b)).
    { rewrite A2, A1. do 2 apply nth_error_kept. exact Lb. }
    rewrite Credential_process_model.
    erewrite process_eval by eassumption.
    destruct (Z.eqb (commit pk b v) (commit pk a v)) eqn:E.
    + apply Z.eqb_eq, binding in E. congruence.
    + rewrite runtime_eta. reflexivity.
  - assert (L3 : nth_error (arena (world rt2)) (handle secret)
                 = Some (OMasterSecret a)).
    { rewrite A2, A1. do 2 apply nth_error_kept. exact La. }
    eexists. eexists.
    rewrite Credential_process_model.
    erewrite process_eval by eassumption.
    rewrite Z.eqb_refl. split; [reflexivity |]. split; [reflexivity |].
    unfold unblinded_at. rewrite L1. cbn [handle world arena].
    erewrite nth_error_replaced by exact L1. split; reflexivity.
Qed.

(** *** Identifiers *)

Lemma search_secret_arena (fuel : nat) (w w' : World) (r : Result Z) :
  search_secret fuel w = (r, w') -> arena w' = arena w.
Proof.
  revert w. induction fuel as [| fuel IH]; intros w; cbn [search_secret].
  - unfold raise. intros E. inversion E. reflexivity.
  - unfold bind, draw, ret.
    destruct (prime_form (random (drawn w))).
    + intros E. inversion E. reflexivity.
    + intros E. apply IH in E. exact E.
Qed.

Lemma keygen_inv (origin_did : string) (schema : ObjectHandle)
  (tag : option string) (signature_type : string) (rev : bool)
  (cd pv kp : ObjectHandle) (w w' : World) :
  m_create_credential_definition origin_did schema tag signature_type rev w
  = (Ok (cd, pv, kp), w') ->
  exists i n v attrs q sk,
    nth_error (arena w) schema = Some (OSchema i n v attrs q)
    /\ cd = length (arena w)
    /\ arena w'
       = arena w
         ++ [OCredentialDefinition
               origin_did (schema_id_of i n v)
               (match tag with Some t => t | None => default_tag end)
               signature_type rev attrs (public_of sk)]
         ++ [OCredentialDefinitionPrivate sk;
             OKeyCorrectnessProof (correctness_proof_of sk)].
Proof.
  unfold m_create_credential_definition, get_schema, lookup.
  unfold bind at 1 2. unfold ret at 1.
  destruct (nth_error (arena w) schema) as [[] |] eqn:L;
    try (unfold raise; discriminate).
  unfold ret at 1. unfold bind at 1.
  destruct (search_secret max_retries w) as [[sk | e] w1] eqn:S1;
    [| discriminate].
  apply search_secret_arena in S1.
  unfold bind, alloc, ret. cbn. intros E. inversion E. subst.
  exists issuer, name, version, attr_names, seq_no, sk.
  rewrite S1, <- !app_assoc. repeat split.
Qed.

Lemma Schema_id_model (self : IndyObject) (rt : Runtime World) :
  Schema.id self rt
  = (match nth_error (arena (world rt)) (handle self) with
     | Some (OSchema i n v _ _) => Ok (schema_id_of i n v)
     | _ => Raise MalformedInput
     end, rt).
Proof.
  unfold Schema.id, call. cbn [schema_get_id core].
  unfold m_schema_get_id, lookup, bind, ret, raise.
  destruct (nth_error (arena (world rt)) (handle self)) as [[] |];
    rewrite runtime_eta; reflexivity.
Qed.

Lemma CredentialDefinition_id_model (self : IndyObject)
  (rt : Runtime World) :
  CredentialDefinition.id self rt
  = (match nth_error (arena (world rt)) (handle self) with
     | Some (OCredentialDefinition i s t _ _ _ _) =>
         Ok (cred_def_id_of i s t)
     | _ => Raise MalformedInput
     end, rt).
Proof.
  unfold CredentialDefinition.id, call.
  cbn [credential_definition_get_id core].
  unfold m_credential_definition_get_id, lookup, bind, ret, raise.
  destruct (nth_error (arena (world rt)) (handle self)) as [[] |];
    rewrite runtime_eta; reflexivity.
Qed.

Lemma Schema_create_then_id (origin_did name version : string)
  (attr_names : list string) (seq_no : option Z) (rt : Runtime World) :
  fst ((s <- Schema.create origin_did name version attr_names seq_no ;;
        Schema.id s) rt)
  = Ok (schema_id_of origin_did name version).
Proof.
  unfold Schema.create.
  rewrite bind_assoc.
  erewrite bind_ok by (apply call_ok; reflexivity).
  erewrite bind_ok by reflexivity.
  rewrite Schema_id_model. cbn [fst world arena handle].
  rewrite nth_error_last. reflexivity.
Qed.

(** C3.  Two schemas created from the same issuer, name and version have
    the same identifier, whatever their attribute lists, sequence numbers
    and the states they were created in; two credential definitions
    created by the same issuer with the same tag over schemas of the same
    identifier have the same identifier, whatever their signature types,
    revocation flags and key material; and reading an identifier changes
    nothing, so reading it again gives it again. *)
Theorem identifiers_deterministic
  (origin_did : string) (tag : option string)
  (schema1 schema2 : IndyObject) (sid sig1 sig2 : string)
  (rev1 rev2 : bool) (rt1 rt2 rt1' rt2' : Runtime World)
  (cd1 pv1 kp1 cd2 pv2 kp2 : IndyObject) :
  Schema.id schema1 rt1 = (Ok sid, rt1) ->
  Schema.id schema2 rt2 = (Ok sid, rt2) ->
  CredentialDefinition.create origin_did (Obj schema1) sig1 rev1 tag rt1
  = (Ok (cd1, pv1, kp1), rt1') ->
  CredentialDefinition.create origin_did (Obj schema2) sig2 rev2 tag rt2
  = (Ok (cd2, pv2, kp2), rt2') ->
  (forall name version attrs1 seq1 attrs2 seq2 r1 r2,
     fst ((s <- Schema.create origin_did name version attrs1 seq1 ;;
           Schema.id s) r1)
     = fst ((s <- Schema.create origin_did name version attrs2 seq2 ;;
             Schema.id s) r2))
  /\ CredentialDefinition.id cd1 rt1'
     = (Ok (cred_def_id_of origin_did sid
              (match tag with Some t => t | None => default_tag end)), rt1')
  /\ CredentialDefinition.id cd2 rt2'
     = (Ok (cred_def_id_of origin_did sid
              (match tag with Some t => t | None => default_tag end)), rt2').
Proof.
  intros S1 S2 C1 C2.
  assert (G : forall schema sg rv rt rt' cd pv kp,
             Schema.id schema rt = (Ok sid, rt) ->
             CredentialDefinition.create origin_did (Obj schema) sg rv tag rt
             = (Ok (cd, pv, kp), rt') ->
             CredentialDefinition.id cd rt'
             = (Ok (cred_def_id_of origin_did sid
                      (match tag with
                       | Some t => t
                       | None => default_tag
                       end)), rt')).
  { intros schema sg rv rt rt' cd pv kp S C.
    apply CredentialDefinition_create_inv in C.
    cbn [create_credential_definition core] in C.
    apply keygen_inv in C.
    destruct C as (i & n & v & attrs & q & sk & L & Hcd & A).
    rewrite Schema_id_model, L in S. inversion S as [S'].
    rewrite CredentialDefinition_id_model, Hcd, A.
    rewrite app_assoc. erewrite nth_error_kept by apply nth_error_last.
    rewrite S'. reflexivity. }
  split; [| split].
  - intros. rewrite !Schema_create_then_id. reflexivity.
  - exact (G _ _ _ _ _ _ _ _ S1 C1).
  - exact (G _ _ _ _ _ _ _ _ S2 C2).
Qed.

(** *** Verification *)

Lemma existsb_negb {A} (f : A -> bool) (l : list A) :
  existsb (fun x => negb (f x)) l = negb (forallb f l).
Proof.
  induction l as [| a l IH]; cbn; [reflexivity |].
  rewrite IH. destruct (f a); reflexivity.
Qed.

Lemma for_each_get_schema (w : World) (os : list IndyObject) :
  forallb (has_class w CSchema) os = true ->
  for_each get_schema (map handle os) w = (Ok (resolve w os), w).
Proof.
  unfold resolve.
  induction os as [| o os IH]; cbn [forallb map for_each filter_map];
    [reflexivity |].
  intros E. apply andb_prop in E. destruct E as [E0 E].
  unfold has_class in E0.
  unfold bind at 1. unfold get_schema at 1. unfold bind at 1, lookup at 1.
  destruct (nth_error (arena w) (handle o)) as [[] |]; try discriminate E0.
  unfold ret at 1. unfold bind. rewrite (IH E). reflexivity.
Qed.

Lemma for_each_get_cred_def (w : World) (os : list IndyObject) :
  forallb (has_class w CCredentialDefinition) os = true ->
  for_each get_cred_def (map handle os) w = (Ok (resolve w os), w).
Proof.
  unfold resolve.
  induction os as [| o os IH]; cbn [forallb map for_each filter_map];
    [reflexivity |].
  intros E. apply andb_prop in E. destruct E as [E0 E].
  unfold has_class in E0.
  unfold bind at 1. unfold get_cred_def at 1. unfold bind at 1, lookup at 1.
  destruct (nth_error (arena w) (handle o)) as [[] |]; try discriminate E0.
  unfold ret at 1. unfold bind. rewrite (IH E). reflexivity.
Qed.

Lemma verify_model (self pres_req : IndyObject)
  (schemas cred_defs : list IndyObject) (rt : Runtime World) :
  well_formed_verification (world rt) self pres_req schemas cred_defs
  = true ->
  verify self pres_req schemas cred_defs rt
  = (if referenced_missing (world rt) self schemas cred_defs
     then Raise UnknownCredentialDefinition
     else Ok (proof_holds (world rt) self pres_req schemas cred_defs), rt).
Proof.
  unfold well_formed_verification. intros WF.
  apply andb_prop in WF. destruct WF as [WF W4].
  apply andb_prop in WF. destruct WF as [WF W3].
  apply andb_prop in WF. destruct WF as [W1 W2].
  unfold verify, call, verify_presentation.
  unfold bind at 1 2, lookup at 1 2.
  unfold bind at 1. rewrite (for_each_get_schema _ _ W3).
  unfold bind at 1. rewrite (for_each_get_cred_def _ _ W4).
  unfold referenced_missing, proof_holds.
  unfold has_class in W1, W2.
  destruct (nth_error (arena (world rt)) (handle self)) as [[] |];
    try discriminate W1.
  destruct (nth_error (arena (world rt)) (handle pres_req)) as [[] |];
    try discriminate W2.
  rewrite existsb_negb.
  destruct (forallb _ sub_proofs); cbn [negb]; unfold ret, raise;
    rewrite runtime_eta; reflexivity.
Qed.

(** C8.  On arguments of the expected entities, verification changes
    nothing and either returns a boolean or raises
    [UnknownCredentialDefinition]; it raises exactly when some segment of
    the presentation refers to a schema or credential definition that was
    not supplied; and when everything referred to was supplied, a proof
    that does not check is the result [false], not an error. *)
Theorem verification_results (self pres_req : IndyObject)
  (schemas cred_defs : list IndyObject) (rt : Runtime World) :
  well_formed_verification (world rt) self pres_req schemas cred_defs
  = true ->
  let r := verify self pres_req schemas cred_defs rt in
  snd r = rt
  /\ ((exists b, fst r = Ok b) \/ fst r = Raise UnknownCredentialDefinition)
  /\ (forall e, fst r = Raise e -> e = UnknownCredentialDefinition)
  /\ (fst r = Raise UnknownCredentialDefinition
      <-> referenced_missing (world rt) self schemas cred_defs = true)
  /\ (referenced_missing (world rt) self schemas cred_defs = false ->
      fst r = Ok (proof_holds (world rt) self pres_req schemas cred_defs))
  /\ (referenced_missing (world rt) self schemas cred_defs = false ->
      proof_holds (world rt) self pres_req schemas cred_defs = false ->
      fst r = Ok false)
  /\ error_kind UnknownCredentialDefinition = Some KWiringError.
Proof.
  intros WF. cbn zeta. rewrite (verify_model _ _ _ _ _ WF). cbn [fst snd].
  destruct (referenced_missing (world rt) self schemas cred_defs).
  - repeat split; try discriminate; auto.
    intros e E. inversion E. reflexivity.
  - repeat split; try discriminate; auto.
    + left. eexists. reflexivity.
    + intros _ E. rewrite E. reflexivity.
Qed.

End ModelFacts.

(** ** [process] returns a new object *)

Section ProcessResult.
Context {W : Type} {B : Bindings W}.

Lemma wrapped_counter (f : Lib W ObjectHandle) (c : Class)
  (rt rt' : Runtime W) (o : IndyObject) :
  (h <- call f ;; construct c h) rt = (Ok o, rt') ->
  next_oid rt <= next_oid rt'.
Proof.
  intros E. apply bind_inv in E. destruct E as (h & rt1 & E1 & E2).
  apply call_inv in E1. destruct E1 as [_ E1].
  apply construct_inv in E2. destruct E2 as [_ ->]. cbn. lia.
Qed.

Lemma coerce_counter (from_json : string -> Py W IndyObject)
  (x : StrOr IndyObject) (rt rt' : Runtime W) (o : IndyObject) :
  (forall value r r' o',
     from_json value r = (Ok o', r') -> next_oid r <= next_oid r') ->
  coerce from_json x rt = (Ok o, rt') ->
  next_oid rt <= next_oid rt'.
Proof.
  intros M. destruct x as [value | o0]; cbn [coerce].
  - apply M.
  - unfold ret. intros E. inversion E. subst. lia.
Qed.

(** Whenever [Credential.process] returns, for any library and for string
    or object arguments alike, what it returns is an object of class
    [Credential] created by the call, hence not the receiver, built around
    the handle that [process_credential] returned for the receiver's
    handle. *)
Theorem process_returns_new_object (self : IndyObject)
  (cred_req_metadata master_secret cred_def : StrOr IndyObject)
  (rt rt' : Runtime W) (o : IndyObject) :
  oid self < next_oid rt ->
  Credential.process self cred_req_metadata master_secret cred_def rt
  = (Ok o, rt') ->
  obj_eqb o self = false
  /\ cls o = CCredential
  /\ next_oid rt <= oid o
  /\ exists d m c rt1,
       process_credential (handle self) (handle d) (handle m) (handle c)
                          None (world rt1)
       = (Ok (handle o), world rt').
Proof.
  intros Old E. unfold Credential.process in E.
  apply bind_inv in E. destruct E as (d & r1 & E1 & E).
  apply bind_inv in E. destruct E as (m & r2 & E2 & E).
  apply bind_inv in E. destruct E as (c & r3 & E3 & E).
  apply coerce_counter in E1;
    [| intros ? ? ? ?; apply wrapped_counter].
  apply coerce_counter in E2;
    [| intros ? ? ? ?; apply wrapped_counter].
  apply coerce_counter in E3;
    [| intros ? ? ? ?; apply wrapped_counter].
  apply wrapped_class in E. destruct E as (C & L & I).
  assert (N : next_oid rt <= oid o) by lia.
  repeat split; [| exact C | exact N |].
  - unfold obj_eqb. apply Nat.eqb_neq. lia.
  - exists d, m, c, r3. exact L.
Qed.

End ProcessResult.

(** ** [process] unblinds in place *)

Section ProcessInPlace.
Import CoreModel.
Context {P : Primitives}.

(** C5.  After [Credential.process] succeeds, for string or object
    arguments alike, the credential the receiver refers to is the
    unblinded one: the object under the receiver's handle has been
    overwritten with the same credential carrying the unblinded
    signature, and no other object of the library has changed.  The
    object the method returns is of class [Credential] and wraps the
    receiver's own handle, so it refers to that same credential; as a
    wrapper object it is created by the call, and is not the receiver. *)
Theorem process_unblinds_receiver (self : IndyObject)
  (cred_req_metadata master_secret cred_def : StrOr IndyObject)
  (rt rt' : Runtime World) (o : IndyObject) :
  Credential.process self cred_req_metadata master_secret cred_def rt
  = (Ok o, rt') ->
  unblinded_at (world rt') (handle self) = true
  /\ handle o = handle self
  /\ cls o = CCredential
  /\ (oid self < next_oid rt -> obj_eqb o self = false)
  /\ (forall d m c,
        cred_req_metadata = Obj d -> master_secret = Obj m ->
        cred_def = Obj c ->
        exists sid cid values cm sg b v,
          nth_error (arena (world rt)) (handle self)
          = Some (OCredential sid cid values cm sg b)
          /\ nth_error (arena (world rt')) (handle self)
             = Some (OCredential sid cid values cm (unblind sg v) false)
          /\ forall h, h <> handle self ->
                       nth_error (arena (world rt')) h
                       = nth_error (arena (world rt)) h).
Proof.
  intros E. pose proof E as E0. unfold Credential.process in E.
  apply bind_inv in E. destruct E as (d & r1 & E1 & E).
  apply bind_inv in E. destruct E as (m & r2 & E2 & E).
  apply bind_inv in E. destruct E as (c & r3 & E3 & E).
  apply wrapped_class in E. destruct E as (C & L & _).
  cbn [process_credential core] in L. apply process_inv in L.
  destruct L as (H & _ & sid & cid & values & cm & sg & b & v & L1 & A).
  split; [| split; [exact H | split; [exact C | split]]].
  - unfold unblinded_at. rewrite A.
    erewrite nth_error_replaced by exact L1. reflexivity.
  - intros Old.
    eapply process_returns_new_object; [exact Old | exact E0].
  - intros d' m' c' -> -> ->. unfold Obj in E1, E2, E3.
    cbn [coerce] in E1, E2, E3. unfold ret in E1, E2, E3.
    inversion E1. inversion E2. inversion E3. subst.
    exists sid, cid, values, cm, sg, b, v.
    split; [exact L1 | split].
    + rewrite A. erewrite nth_error_replaced by exact L1. reflexivity.
    + intros h N. rewrite A. apply nth_error_not_replaced. exact N.
Qed.

End ProcessInPlace.

(** ** Runs of the model *)

Section Runs.
Import CoreModel Sample.

Lemma sample_commit_binding (pk m m' v : Z) :
  commit pk m v = commit pk m' v -> m = m'.
Proof. cbn. unfold sample_commit. lia. Qed.

Lemma Credential_from_json_wrong_class_witness :
  Credential.from_json "credential" start
  = (Ok {| oid := 0; cls := CCredentialDefinition; handle := 0 |},
     snd (Credential.from_json "credential" start))
  /\ cls {| oid := 0; cls := CCredentialDefinition; handle := 0 |}
     <> CCredential.
Proof.
  split; [reflexivity |].
  apply (@Credential_from_json_wrong_class
           World core "credential" start
           (snd (Credential.from_json "credential" start))
           {| oid := 0; cls := CCredentialDefinition; handle := 0 |}).
  reflexivity.
Defined.

Lemma str_or_object_equivalent_witness :
  CredentialDefinition.create "did:issuer" (Str "schema") "CL" false None
                              start
  = CredentialDefinition.create
      "did:issuer" (Obj {| oid := 0; cls := CSchema; handle := 0 |})
      "CL" false None (snd (Schema.from_json "schema" start))
  /\ CredentialDefinition.create "did:issuer" (Str "nonsense") "CL" false
                                 None start
     = (Raise MalformedInput, start).
Proof.
  split.
  - exact (proj1 (@str_or_object_equivalent World core)
             "did:issuer" "CL" false None "schema" start
             (Ok {| oid := 0; cls := CSchema; handle := 0 |})
             (snd (Schema.from_json "schema" start)) eq_refl).
  - exact (proj1 (@str_or_object_equivalent World core)
             "did:issuer" "CL" false None "nonsense" start
             (Raise MalformedInput) start eq_refl).
Defined.

Lemma identifiers_deterministic_witness :
  CredentialDefinition.id (fst (fst first_keys)) after_first_keys
  = (Ok "did:issuer/did:issuer/degree/1.0/default", after_first_keys)
  /\ CredentialDefinition.id (fst (fst second_keys)) after_second_keys
     = (Ok "did:issuer/did:issuer/degree/1.0/default", after_second_keys).
Proof.
  apply (@identifiers_deterministic
           primitives "did:issuer" None made_schema made_schema
           "did:issuer/degree/1.0" "CL" "CL2" false true
           after_schema after_first_keys after_first_keys after_second_keys
           (fst (fst first_keys)) (snd (fst first_keys)) (snd first_keys)
           (fst (fst second_keys)) (snd (fst second_keys)) (snd second_keys));
    reflexivity.
Defined.

Lemma process_binds_master_secret_witness :
  Credential.process the_credential (Obj the_metadata) (Obj (secret_b ready))
                     (Obj (the_cred_def ready)) after_issue
  = (Raise UnblindingError, after_issue).
Proof.
  refine (proj1 (proj1 (@process_binds_master_secret
                          primitives "did:holder" "ms"
                          (the_cred_def ready) (the_cred_def_private ready)
                          (the_offer ready) (secret_a ready) (secret_b ready)
                          raw_values None
                          after_setup after_request after_issue
                          the_request the_metadata the_credential 7%Z 9%Z
                          sample_commit_binding _ _ _ _) _));
    [reflexivity .. | discriminate].
Defined.

Lemma process_unblinds_receiver_witness :
  unblinded_at (world after_process) (handle the_credential) = true
  /\ handle the_processed = handle the_credential
  /\ cls the_processed = CCredential.
Proof.
  pose proof (@process_unblinds_receiver
                primitives the_credential (Obj the_metadata)
                (Obj (secret_a ready)) (Obj (the_cred_def ready))
                after_issue after_process the_processed eq_refl) as H.
  destruct H as (H1 & H2 & H3 & _).
  repeat split; assumption.
Defined.

(** C1, the defect on a run: a serialized credential deserializes, through
    [Credential.from_json], to an object that is not a [Credential]. *)
Lemma Credential_from_json_counterexample :
  exists o rt',
    Credential.from_json "credential" start = (Ok o, rt')
    /\ Class_eqb (cls o) CCredential = false.
Proof. eexists. eexists. split; reflexivity. Qed.

Lemma presentation_indices_witness :
  nth_error (fst (Presentation.prove_lists two_selected)) 1
  = Some (handle second_cred)
  /\ forall e,
       In e (entries_at 1 (second_cred, ([("attr3", (false, Some 5%Z))], [])))
       -> In e (snd (Presentation.prove_lists two_selected))
          /\ CredentialProve.entry_idx e = 1.
Proof.
  apply (proj1 (@presentation_indices World core two_selected)
               1 (second_cred, ([("attr3", (false, Some 5%Z))], []))).
  reflexivity.
Defined.

Lemma accumulation_frame_witness :
  dict_get obj_eqb
    (PresentCredentials.creds
       (PresentCredentials.add_attributes
          two_selected second_cred ["attr9"] true None)) first_cred
  = dict_get obj_eqb (PresentCredentials.creds two_selected) first_cred.
Proof.
  apply (proj1 (proj2 (proj2 (proj1 (proj2 (accumulation_frame two_selected))
                                second_cred ["attr9"] true None)))).
  reflexivity.
Defined.


Lemma verification_results_witness :
  fst (verify the_presentation the_other_req
              [the_schema ready] [the_cred_def ready] after_presentation)
  = Ok false
  /\ fst (verify the_presentation the_pres_req
                 [the_schema ready] [] after_presentation)
     = Raise UnknownCredentialDefinition.
Proof.
  split.
  - apply (@verification_results
             primitives the_presentation the_other_req
             [the_schema ready] [the_cred_def ready] after_presentation);
      reflexivity.
  - apply (@verification_results
             primitives the_presentation the_pres_req
             [the_schema ready] [] after_presentation);
      reflexivity.
Defined.

End Runs.

(** * Further properties of the wrapper *)

(** ** More on dictionaries *)

Section DictMore.
Variables (K V : Type) (eqb : K -> K -> bool).

Lemma dict_alter_ext (f g : V -> V) (d : dict K V) (k : K) :
  (forall v, f v = g v) -> dict_alter eqb f d k = dict_alter eqb g d k.
Proof.
  intros E. induction d as [| [k0 v0] r IH]; cbn [dict_alter];
    [reflexivity |].
  rewrite E, IH. reflexivity.
Qed.

Lemma dict_alter_id (f : V -> V) (d : dict K V) (k : K) :
  (forall v, f v = v) -> dict_alter eqb f d k = d.
Proof.
  intros E. induction d as [| [k0 v0] r IH]; cbn [dict_alter];
    [reflexivity |].
  rewrite E, IH. destruct (eqb k k0); reflexivity.
Qed.

Lemma dict_alter_alter (f g : V -> V) (d : dict K V) (k : K) :
  dict_alter eqb g (dict_alter eqb f d k) k
  = dict_alter eqb (fun v => g (f v)) d k.
Proof.
  induction d as [| [k0 v0] r IH]; cbn [dict_alter]; [reflexivity |].
  destruct (eqb k k0) eqn:E; cbn [dict_alter]; rewrite E;
    [reflexivity | rewrite IH; reflexivity].
Qed.

Lemma dict_set_same (d : dict K V) (k : K) (v : V) :
  dict_get eqb d k = Some v -> dict_set eqb d k v = d.
Proof.
  induction d as [| [k0 v0] r IH]; cbn [dict_get dict_set]; [discriminate |].
  destruct (eqb k k0).
  - intros E. inversion E. reflexivity.
  - intros E. rewrite (IH E). reflexivity.
Qed.

Lemma dict_set_absent (d : dict K V) (k : K) (v : V) :
  dict_contains eqb d k = false -> dict_set eqb d k v = d ++ [(k, v)].
Proof.
  unfold dict_contains.
  induction d as [| [k0 v0] r IH]; cbn [dict_get dict_set app];
    [reflexivity |].
  destruct (eqb k k0); [discriminate |].
  intros E. rewrite (IH E). reflexivity.
Qed.

Lemma dict_alter_last (f : V -> V) (d : dict K V) (k : K) (v : V) :
  dict_contains eqb d k = false ->
  eqb k k = true ->
  dict_alter eqb f (d ++ [(k, v)]) k = d ++ [(k, f v)].
Proof.
  unfold dict_contains. intros E R.
  induction d as [| [k0 v0] r IH]; cbn [dict_alter app].
  - rewrite R. reflexivity.
  - cbn [dict_get] in E. destruct (eqb k k0); [discriminate |].
    rewrite (IH E). reflexivity.
Qed.

Lemma dict_get_app (d d' : dict K V) (k : K) :
  dict_get eqb (d ++ d') k
  = match dict_get eqb d k with
    | Some v => Some v
    | None => dict_get eqb d' k
    end.
Proof.
  induction d as [| [k0 v0] r IH]; cbn [dict_get app]; [reflexivity |].
  destruct (eqb k k0); [reflexivity | exact IH].
Qed.

End DictMore.

(** ** What a selection writes *)

Section SelectionWrites.
Import PresentCredentials.

Lemma existsb_eqb_in (r : string) (refs : list string) :
  In r refs -> existsb (String.eqb r) refs = true.
Proof.
  intros I. apply existsb_exists. exists r. split; [exact I |].
  apply String.eqb_refl.
Qed.

Lemma set_all_get {A} (refs : list string) (v : A) (d : dict string A)
  (r : string) :
  dict_get String.eqb (set_all d refs v) r
  = if existsb (String.eqb r) refs then Some v else dict_get String.eqb d r.
Proof.
  unfold set_all. revert d.
  induction refs as [| r0 refs IH]; intros d; cbn [fold_left existsb];
    [reflexivity |].
  rewrite IH.
  rewrite (@dict_get_set _ _ String.eqb string_eqb_sym string_eqb_trans).
  destruct (String.eqb r r0), (existsb (String.eqb r) refs); reflexivity.
Qed.

Lemma set_all_keys {A} (refs : list string) (v : A) (d : dict string A) :
  exists added, keys (set_all d refs v) = keys d ++ added.
Proof.
  unfold set_all. revert d.
  induction refs as [| r0 refs IH]; intros d; cbn [fold_left].
  - exists []. symmetry. apply app_nil_r.
  - destruct (IH (dict_set String.eqb d r0 v)) as [added E].
    rewrite E, keys_set. destruct (dict_contains String.eqb d r0).
    + exists added. reflexivity.
    + exists (r0 :: added). rewrite <- app_assoc. reflexivity.
Qed.

(** Writing again what is already there changes nothing. *)
Lemma set_all_again {A} (refs : list string) (v : A) (d : dict string A) :
  (forall r, In r refs -> dict_get String.eqb d r = Some v) ->
  set_all d refs v = d.
Proof.
  unfold set_all.
  induction refs as [| r0 refs IH]; intros G; cbn [fold_left];
    [reflexivity |].
  rewrite dict_set_same by (apply G; left; reflexivity).
  apply IH. intros r I. apply G. right. exact I.
Qed.

Lemma set_all_idempotent {A} (refs : list string) (v : A)
  (d : dict string A) :
  set_all (set_all d refs v) refs v = set_all d refs v.
Proof.
  apply set_all_again. intros r I.
  rewrite set_all_get, (existsb_eqb_in _ _ I). reflexivity.
Qed.

Lemma fold_alter_compose {R}
  (f : R -> AttrDict * PredDict -> AttrDict * PredDict) (refs : list R)
  (cs : dict IndyObject (AttrDict * PredDict)) (cred : IndyObject) :
  fold_left (fun cs r => dict_alter obj_eqb (f r) cs cred) refs cs
  = dict_alter obj_eqb (fun e => fold_left (fun e r => f r e) refs e)
               cs cred.
Proof.
  revert cs. induction refs as [| r refs IH]; intros cs; cbn [fold_left].
  - symmetry. apply dict_alter_id. reflexivity.
  - rewrite IH, dict_alter_alter. reflexivity.
Qed.

Lemma fold_attrs_pair (refs : list string) (v : bool * option Z)
  (e : AttrDict * PredDict) :
  fold_left (fun e r => (dict_set String.eqb (fst e) r v, snd e)) refs e
  = with_attributes refs v e.
Proof.
  unfold with_attributes, set_all. revert e.
  induction refs as [| r refs IH]; intros [a p]; cbn [fold_left fst snd];
    [reflexivity |].
  rewrite IH. reflexivity.
Qed.

Lemma fold_preds_pair (refs : list string) (v : option Z)
  (e : AttrDict * PredDict) :
  fold_left (fun e r => (fst e, dict_set String.eqb (snd e) r v)) refs e
  = with_predicates refs v e.
Proof.
  unfold with_predicates, set_all. revert e.
  induction refs as [| r refs IH]; intros [a p]; cbn [fold_left fst snd];
    [reflexivity |].
  rewrite IH. reflexivity.
Qed.

(** The two selection methods in closed form, for a non-empty batch. *)
Lemma add_attributes_closed (self : t) (cred : IndyObject) (r0 : string)
  (rs : list string) (reveal : bool) (timestamp : option Z) :
  add_attributes self cred (r0 :: rs) reveal timestamp
  = {| creds := dict_alter obj_eqb
                  (with_attributes (r0 :: rs) (reveal, timestamp))
                  (ensure_entry (creds self) cred) cred;
       self_attest := self_attest self |}.
Proof.
  unfold add_attributes. f_equal.
  rewrite fold_alter_compose. apply dict_alter_ext.
  intros e. apply fold_attrs_pair.
Qed.

Lemma add_predicates_closed (self : t) (cred : IndyObject) (r0 : string)
  (rs : list string) (timestamp : option Z) :
  add_predicates self cred (r0 :: rs) timestamp
  = {| creds := dict_alter obj_eqb
                  (with_predicates (r0 :: rs) timestamp)
                  (ensure_entry (creds self) cred) cred;
       self_attest := self_attest self |}.
Proof.
  unfold add_predicates. f_equal.
  rewrite fold_alter_compose. apply dict_alter_ext.
  intros e. apply fold_preds_pair.
Qed.

Lemma obj_eqb_refl (o : IndyObject) : obj_eqb o o = true.
Proof. apply Nat.eqb_refl. Qed.

(** The entry of any credential after a change of the entry of [cred]. *)
Lemma entry_after_alter (f : AttrDict * PredDict -> AttrDict * PredDict)
  (cs : dict IndyObject (AttrDict * PredDict)) (cred c : IndyObject) :
  dict_get obj_eqb (dict_alter obj_eqb f (ensure_entry cs cred) cred) c
  = if obj_eqb c cred
    then Some (f (match dict_get obj_eqb cs cred with
                  | Some e => e
                  | None => ([], [])
                  end))
    else dict_get obj_eqb cs c.
Proof.
  rewrite (@dict_get_alter _ _ obj_eqb obj_eqb_sym obj_eqb_trans).
  rewrite !ensure_entry_get, obj_eqb_refl.
  destruct (obj_eqb c cred); reflexivity.
Qed.

Lemma ensure_entry_idle (cs : dict IndyObject (AttrDict * PredDict))
  (cred : IndyObject) :
  dict_contains obj_eqb cs cred = true -> ensure_entry cs cred = cs.
Proof. unfold ensure_entry. intros E. rewrite E. reflexivity. Qed.

Lemma ensure_entry_new (cs : dict IndyObject (AttrDict * PredDict))
  (cred : IndyObject) :
  dict_contains obj_eqb cs cred = false ->
  ensure_entry cs cred = cs ++ [(cred, ([], []))].
Proof.
  unfold ensure_entry. intros E. rewrite E. cbn [negb].
  apply dict_set_absent. exact E.
Qed.

Lemma contains_after_alter
  (f : AttrDict * PredDict -> AttrDict * PredDict)
  (cs : dict IndyObject (AttrDict * PredDict)) (cred : IndyObject) :
  dict_contains obj_eqb (dict_alter obj_eqb f (ensure_entry cs cred) cred)
                cred = true.
Proof.
  unfold dict_contains. rewrite entry_after_alter, obj_eqb_refl. reflexivity.
Qed.

(** X1.  After [add_attributes] with a non-empty batch the credential is
    a key of [creds], every referent of the batch is recorded for it with
    the given reveal flag and timestamp, whatever was recorded for that
    referent before, and the referents recorded earlier keep their
    places. *)
Theorem add_attributes_records (self : t) (cred : IndyObject)
  (r0 : string) (rs : list string) (reveal : bool) (timestamp : option Z) :
  let self' := add_attributes self cred (r0 :: rs) reveal timestamp in
  dict_contains obj_eqb (creds self') cred = true
  /\ (forall r, In r (r0 :: rs) ->
                dict_get String.eqb (fst (entry_or_empty self' cred)) r
                = Some (reveal, timestamp))
  /\ exists added,
       keys (fst (entry_or_empty self' cred))
       = keys (fst (entry_or_empty self cred)) ++ added.
Proof.
  cbn zeta. rewrite add_attributes_closed. unfold entry_or_empty.
  cbn [creds]. rewrite contains_after_alter, entry_after_alter, obj_eqb_refl.
  split; [reflexivity | split].
  - intros r I. cbn [with_attributes fst].
    rewrite set_all_get, (existsb_eqb_in _ _ I). reflexivity.
  - apply set_all_keys.
Qed.

(** X2.  After [add_predicates] with a non-empty batch the credential is
    a key of [creds], every referent of the batch is recorded for it with
    the given timestamp, and the predicate referents recorded earlier keep
    their places. *)
Theorem add_predicates_records (self : t) (cred : IndyObject)
  (r0 : string) (rs : list string) (timestamp : option Z) :
  let self' := add_predicates self cred (r0 :: rs) timestamp in
  dict_contains obj_eqb (creds self') cred = true
  /\ (forall r, In r (r0 :: rs) ->
                dict_get String.eqb (snd (entry_or_empty self' cred)) r
                = Some timestamp)
  /\ exists added,
       keys (snd (entry_or_empty self' cred))
       = keys (snd (entry_or_empty self cred)) ++ added.
Proof.
  cbn zeta. rewrite add_predicates_closed. unfold entry_or_empty.
  cbn [creds]. rewrite contains_after_alter, entry_after_alter, obj_eqb_refl.
  split; [reflexivity | split].
  - intros r I. cbn [with_predicates snd].
    rewrite set_all_get, (existsb_eqb_in _ _ I). reflexivity.
  - apply set_all_keys.
Qed.

Lemma dict_update_get (d other : dict string string) (k : string) :
  dict_get String.eqb (dict_update String.eqb d other) k
  = match dict_get String.eqb (rev other) k with
    | Some v => Some v
    | None => dict_get String.eqb d k
    end.
Proof.
  unfold dict_update. revert d.
  induction other as [| [k0 v0] r IH]; intros d; cbn [fold_left rev];
    [reflexivity |].
  rewrite IH, dict_get_app. cbn [fst snd dict_get].
  rewrite (@dict_get_set _ _ String.eqb string_eqb_sym string_eqb_trans).
  destruct (dict_get String.eqb (rev r) k); [reflexivity |].
  destruct (String.eqb k k0); reflexivity.
Qed.

(** X3.  After [add_self_attested] a key of [attest] has the value
    [attest] gives it (the last one, should the mapping be iterated with a
    key twice), and every other key has the value it had. *)
Theorem add_self_attested_lookup (self : t) (attest : StrMapping)
  (k : string) :
  dict_get String.eqb (self_attest (add_self_attested self attest)) k
  = match dict_get String.eqb (rev attest) k with
    | Some v => Some v
    | None => dict_get String.eqb (self_attest self) k
    end.
Proof.
  destruct attest as [| kv attest]; [reflexivity |].
  cbn [add_self_attested self_attest]. apply dict_update_get.
Qed.

(** X4.  Selecting the same batch for the same credential a second time
    changes nothing: [add_attributes] and [add_predicates] are
    idempotent. *)
Theorem selection_idempotent (self : t) (cred : IndyObject)
  (referents : list string) (reveal : bool) (timestamp : option Z) :
  add_attributes (add_attributes self cred referents reveal timestamp)
                 cred referents reveal timestamp
  = add_attributes self cred referents reveal timestamp
  /\ add_predicates (add_predicates self cred referents timestamp)
                    cred referents timestamp
     = add_predicates self cred referents timestamp.
Proof.
  destruct referents as [| r0 rs]; [split; reflexivity |].
  split.
  - rewrite !add_attributes_closed. cbn [creds self_attest]. f_equal.
    rewrite ensure_entry_idle by apply contains_after_alter.
    rewrite dict_alter_alter. apply dict_alter_ext. intros e.
    unfold with_attributes. cbn [fst snd].
    rewrite set_all_idempotent. reflexivity.
  - rewrite !add_predicates_closed. cbn [creds self_attest]. f_equal.
    rewrite ensure_entry_idle by apply contains_after_alter.
    rewrite dict_alter_alter. apply dict_alter_ext. intros e.
    unfold with_predicates. cbn [fst snd].
    rewrite set_all_idempotent. reflexivity.
Qed.

(** X5.  For one credential the attribute and the predicate selections
    can be made in either order with the same accumulator as result, and
    [add_self_attested] can be moved across either of them. *)
Theorem selection_order_irrelevant (self : t) (cred : IndyObject)
  (attrs preds : list string) (reveal : bool) (t1 t2 : option Z)
  (attest : StrMapping) :
  add_predicates (add_attributes self cred attrs reveal t1) cred preds t2
  = add_attributes (add_predicates self cred preds t2) cred attrs reveal t1
  /\ add_self_attested (add_attributes self cred attrs reveal t1) attest
     = add_attributes (add_self_attested self attest) cred attrs reveal t1
  /\ add_self_attested (add_predicates self cred preds t2) attest
     = add_predicates (add_self_attested self attest) cred preds t2.
Proof.
  split; [| split].
  - destruct attrs as [| a0 attrs], preds as [| p0 preds];
      try reflexivity.
    rewrite !add_attributes_closed, !add_predicates_closed.
    cbn [creds self_attest]. f_equal.
    rewrite (@ensure_entry_idle
               (dict_alter obj_eqb (with_attributes (a0 :: attrs) (reveal, t1))
                           (ensure_entry (creds self) cred) cred) cred)
      by apply contains_after_alter.
    rewrite (@ensure_entry_idle
               (dict_alter obj_eqb (with_predicates (p0 :: preds) t2)
                           (ensure_entry (creds self) cred) cred) cred)
      by apply contains_after_alter.
    rewrite !dict_alter_alter. apply dict_alter_ext. intros e.
    reflexivity.
  - destruct attrs as [| a0 attrs], attest as [| kv attest]; reflexivity.
  - destruct preds as [| p0 preds], attest as [| kv attest]; reflexivity.
Qed.

(** X6.  What is recorded for a credential does not depend on the
    selections made for other credentials: after selections for two
    different credentials, in either order, every credential has the same
    entry. *)
Theorem selections_independent (self : t) (c1 c2 : IndyObject)
  (attrs preds : list string) (reveal : bool) (t1 t2 : option Z)
  (c : IndyObject) :
  obj_eqb c1 c2 = false ->
  dict_get obj_eqb
    (creds (add_predicates (add_attributes self c1 attrs reveal t1)
                           c2 preds t2)) c
  = dict_get obj_eqb
      (creds (add_attributes (add_predicates self c2 preds t2)
                             c1 attrs reveal t1)) c.
Proof.
  intros N.
  assert (N' : obj_eqb c2 c1 = false) by (rewrite obj_eqb_sym; exact N).
  destruct attrs as [| a0 attrs], preds as [| p0 preds]; try reflexivity.
  rewrite !add_attributes_closed, !add_predicates_closed. cbn [creds].
  rewrite !entry_after_alter, N, N'.
  destruct (obj_eqb c c2) eqn:E2.
  - assert (E1 : obj_eqb c c1 = false).
    { unfold obj_eqb in *. apply Nat.eqb_eq in E2. apply Nat.eqb_neq in N.
      apply Nat.eqb_neq. lia. }
    rewrite E1. reflexivity.
  - reflexivity.
Qed.

End SelectionWrites.

(** ** The prove lists of an accumulator under construction *)

Section ProveListsGrow.
Import PresentCredentials.

Lemma entries_from_app (n : nat)
  (l1 l2 : list (IndyObject * (AttrDict * PredDict))) :
  entries_from n (l1 ++ l2)
  = entries_from n l1 ++ entries_from (n + length l1) l2.
Proof.
  revert n. induction l1 as [| item l1 IH]; intros n;
    cbn [entries_from app length].
  - rewrite Nat.add_0_r. reflexivity.
  - rewrite IH, <- app_assoc, Nat.add_succ_r. reflexivity.
Qed.

(** An in-place change under [k] leaves every item stored under another
    key where it is and as it is. *)
Lemma nth_alter_other {V} (f : V -> V) (d : dict IndyObject V)
  (k : IndyObject) (i : nat) (item : IndyObject * V) :
  nth_error d i = Some item ->
  obj_eqb (fst item) k = false ->
  nth_error (dict_alter obj_eqb f d k) i = Some item.
Proof.
  revert i. induction d as [| [k0 v0] r IH]; intros i E N;
    [destruct i; discriminate E |].
  cbn [dict_alter]. destruct i as [| i]; cbn [nth_error] in *.
  - inversion E. subst. cbn [fst] in N.
    rewrite obj_eqb_sym, N. reflexivity.
  - destruct (obj_eqb k k0); [exact E | exact (IH _ E N)].
Qed.

Lemma nth_ensure_entry (cs : dict IndyObject (AttrDict * PredDict))
  (cred : IndyObject) (i : nat) item :
  nth_error cs i = Some item ->
  nth_error (ensure_entry cs cred) i = Some item.
Proof.
  intros E. destruct (dict_contains obj_eqb cs cred) eqn:C.
  - rewrite ensure_entry_idle by exact C. exact E.
  - rewrite ensure_entry_new by exact C. apply nth_error_kept. exact E.
Qed.

Lemma keys_after_alter
  (f : AttrDict * PredDict -> AttrDict * PredDict)
  (cs : dict IndyObject (AttrDict * PredDict)) (cred : IndyObject) :
  keys (dict_alter obj_eqb f (ensure_entry cs cred) cred)
  = if dict_contains obj_eqb cs cred then keys cs else keys cs ++ [cred].
Proof. rewrite keys_alter. apply ensure_entry_keys. Qed.

Lemma handles_of_keys (cs : dict IndyObject (AttrDict * PredDict)) :
  map (fun item => handle (fst item)) cs = map handle (keys cs).
Proof. unfold keys. rewrite map_map. reflexivity. Qed.

Lemma handles_after_alter
  (f : AttrDict * PredDict -> AttrDict * PredDict)
  (cs : dict IndyObject (AttrDict * PredDict)) (cred : IndyObject) :
  map (fun item => handle (fst item))
      (dict_alter obj_eqb f (ensure_entry cs cred) cred)
  = map (fun item => handle (fst item)) cs
    ++ (if dict_contains obj_eqb cs cred then [] else [handle cred]).
Proof.
  rewrite !handles_of_keys, keys_after_alter.
  destruct (dict_contains obj_eqb cs cred).
  - symmetry. apply app_nil_r.
  - apply map_app.
Qed.

(** X7.  Selecting never shifts an index already given out.  After
    [add_attributes] or [add_predicates] the credentials list of
    [Presentation.create] is the former list, followed by the handle of
    the credential if it was not selected before; every item of another
    credential is at the position it had, unchanged, so its prove entries
    are the same with the same index.  [add_self_attested] leaves both
    lists as they were. *)
Theorem indices_stable (self : t) (cred : IndyObject)
  (referents : list string) (reveal : bool) (t1 t2 : option Z)
  (attest : StrMapping) :
  let a := add_attributes self cred referents reveal t1 in
  let p := add_predicates self cred referents t2 in
  fst (Presentation.prove_lists a)
  = fst (Presentation.prove_lists self)
    ++ (if dict_contains obj_eqb (creds self) cred then []
        else match referents with [] => [] | _ => [handle cred] end)
  /\ fst (Presentation.prove_lists p)
     = fst (Presentation.prove_lists self)
       ++ (if dict_contains obj_eqb (creds self) cred then []
           else match referents with [] => [] | _ => [handle cred] end)
  /\ (forall i item,
        nth_error (creds self) i = Some item ->
        obj_eqb (fst item) cred = false ->
        nth_error (creds a) i = Some item
        /\ nth_error (creds p) i = Some item)
  /\ Presentation.prove_lists (add_self_attested self attest)
     = Presentation.prove_lists self.
Proof.
  cbn zeta. rewrite !prove_lists_spec. cbn [fst snd].
  destruct referents as [| r0 rs].
  - cbn [add_attributes add_predicates].
    destruct (dict_contains obj_eqb (creds self) cred);
      rewrite app_nil_r; repeat split; try assumption;
      destruct attest; reflexivity.
  - rewrite add_attributes_closed, add_predicates_closed. cbn [creds].
    rewrite !handles_after_alter.
    split; [reflexivity | split; [reflexivity | split]].
    + intros i item E N.
      split; apply nth_alter_other; try exact N;
        apply nth_ensure_entry; exact E.
    + destruct attest; reflexivity.
Qed.

Lemma set_all_fresh {A} (refs : list string) (v : A) (d : dict string A) :
  distinct_strings refs = true ->
  (forall r, In r refs -> dict_contains String.eqb d r = false) ->
  set_all d refs v = d ++ map (fun r => (r, v)) refs.
Proof.
  unfold set_all. revert d.
  induction refs as [| r0 refs IH]; intros d D F;
    cbn [fold_left map distinct_strings] in *.
  - symmetry. apply app_nil_r.
  - apply andb_prop in D. destruct D as [D0 D].
    apply negb_true_iff in D0.
    rewrite dict_set_absent by (apply F; left; reflexivity).
    rewrite IH; [rewrite <- app_assoc; reflexivity | exact D |].
    intros r I. unfold dict_contains. rewrite dict_get_app.
    pose proof (F r (or_intror I)) as Fr. unfold dict_contains in Fr.
    destruct (dict_get String.eqb d r); [discriminate |].
    cbn [dict_get]. destruct (String.eqb r r0) eqn:E; [| reflexivity].
    apply String.eqb_eq in E. subst r0.
    rewrite (existsb_eqb_in _ _ I) in D0. discriminate.
Qed.

(** X8.  The first selection of a credential, with referents that are
    pairwise different, appends the handle of the credential to the
    credentials list and one entry per referent to the prove list, in the
    order of the referents, each with the former number of credentials as
    index; nothing already in either list changes. *)
Theorem first_selection_appends (self : t) (cred : IndyObject)
  (r0 : string) (rs : list string) (reveal : bool) (timestamp : option Z) :
  dict_contains obj_eqb (creds self) cred = false ->
  distinct_strings (r0 :: rs) = true ->
  Presentation.prove_lists
    (add_attributes self cred (r0 :: rs) reveal timestamp)
  = (fst (Presentation.prove_lists self) ++ [handle cred],
     snd (Presentation.prove_lists self)
     ++ map (fun r => CredentialProve.attribute
                        (length (creds self)) r reveal timestamp)
            (r0 :: rs))
  /\ Presentation.prove_lists (add_predicates self cred (r0 :: rs) timestamp)
     = (fst (Presentation.prove_lists self) ++ [handle cred],
        snd (Presentation.prove_lists self)
        ++ map (fun r => CredentialProve.predicate
                           (length (creds self)) r timestamp)
               (r0 :: rs)).
Proof.
  intros C D.
  rewrite add_attributes_closed, add_predicates_closed.
  rewrite !prove_lists_spec. cbn [fst snd creds].
  rewrite ensure_entry_new by exact C.
  rewrite !dict_alter_last by (exact C || apply obj_eqb_refl).
  rewrite !map_app, !entries_from_app. cbn [map fst entries_from].
  rewrite Nat.add_0_l, !app_nil_r.
  unfold with_attributes, with_predicates, entries_at. cbn [fst snd].
  rewrite !set_all_fresh by (exact D || (intros; reflexivity)).
  cbn [app]. rewrite !map_map. cbn [map fst snd app].
  rewrite !app_nil_r. split; reflexivity.
Qed.

Lemma map_const {A} (n : nat) (l : list A) :
  map (fun _ => n) l = repeat n (length l).
Proof. induction l as [| a l IH]; cbn; [| rewrite IH]; reflexivity. Qed.

Lemma entries_at_indices (n : nat) item :
  map CredentialProve.entry_idx (entries_at n item)
  = repeat n (length (fst (snd item)) + length (snd (snd item))).
Proof.
  unfold entries_at. rewrite map_app, !map_map.
  cbn [CredentialProve.entry_idx]. rewrite !map_const, repeat_app.
  reflexivity.
Qed.

Lemma nondecreasing_repeat (n k : nat) (l : list nat) :
  Forall (fun x => n <= x) l ->
  nondecreasing l = true ->
  nondecreasing (repeat n k ++ l) = true.
Proof.
  intros F S. induction k as [| k IH]; cbn [repeat app]; [exact S |].
  destruct (repeat n k ++ l) as [| b r] eqn:E; [reflexivity |].
  change (nondecreasing (n :: b :: r))
    with (Nat.leb n b && nondecreasing (b :: r)).
  rewrite IH, andb_true_r. apply Nat.leb_le.
  destruct k as [| k]; cbn [repeat app] in E.
  - subst l. inversion F. assumption.
  - inversion E. lia.
Qed.

Lemma entries_from_indices (n : nat)
  (items : list (IndyObject * (AttrDict * PredDict))) :
  Forall (fun x => n <= x /\ x < n + length items)
         (map CredentialProve.entry_idx (entries_from n items))
  /\ nondecreasing (map CredentialProve.entry_idx (entries_from n items))
     = true
  /\ length (entries_from n items) = selections items.
Proof.
  revert n. induction items as [| item items IH]; intros n;
    cbn [entries_from map length].
  - repeat split. constructor.
  - destruct (IH (S n)) as (F & S & L).
    change (selections (item :: items))
      with (length (fst (snd item)) + length (snd (snd item))
            + selections items).
    rewrite map_app, entries_at_indices, length_app.
    split; [| split].
    + apply Forall_app. split.
      * apply Forall_forall. intros x I. apply repeat_spec in I. lia.
      * eapply Forall_impl; [| exact F]. cbn. intros x. lia.
    + apply nondecreasing_repeat; [| exact S].
      eapply Forall_impl; [| exact F]. cbn. intros x. lia.
    + rewrite L.
      rewrite <- (length_map CredentialProve.entry_idx (entries_at n item)).
      rewrite entries_at_indices, repeat_length. lia.
Qed.

(** X9.  In the lists [Presentation.create] builds, every prove entry
    refers to a position of the credentials list, the indices along the
    prove list never decrease (the entries of one credential are
    contiguous), and there is one entry per recorded selection. *)
Theorem prove_entries_in_range (self : t) :
  let creds_list := fst (Presentation.prove_lists self) in
  let creds_prove := snd (Presentation.prove_lists self) in
  (forall e, In e creds_prove ->
             CredentialProve.entry_idx e < length creds_list)
  /\ nondecreasing (map CredentialProve.entry_idx creds_prove) = true
  /\ length creds_prove = selections (creds self).
Proof.
  cbn zeta. rewrite prove_lists_spec. cbn [fst snd].
  destruct (entries_from_indices 0 (creds self)) as (F & S & L).
  split; [| split; assumption].
  intros e I. rewrite length_map.
  rewrite Forall_forall in F.
  apply (in_map CredentialProve.entry_idx) in I.
  apply F in I. lia.
Qed.

End ProveListsGrow.

(** ** Invariants of the accumulator *)

Section AccumulatorInvariants.
Import PresentCredentials.

(** A property of items that holds everywhere, and of every changed
    entry, holds everywhere after a selection. *)
Lemma forallb_after_alter
  (p : IndyObject * (AttrDict * PredDict) -> bool)
  (f : AttrDict * PredDict -> AttrDict * PredDict)
  (cs : dict IndyObject (AttrDict * PredDict)) (cred : IndyObject) :
  forallb p cs = true ->
  (forall k e, p (k, e) = true -> p (k, f e) = true) ->
  p (cred, f ([], [])) = true ->
  forallb p (dict_alter obj_eqb f (ensure_entry cs cred) cred) = true.
Proof.
  intros A Step New.
  destruct (dict_contains obj_eqb cs cred) eqn:C.
  - rewrite ensure_entry_idle by exact C. clear C.
    induction cs as [| [k0 e0] r IH]; [reflexivity |].
    cbn [forallb] in A. apply andb_prop in A. destruct A as [A0 A].
    cbn [dict_alter]. destruct (obj_eqb cred k0); cbn [forallb].
    + rewrite (Step _ _ A0), A. reflexivity.
    + rewrite A0, (IH A). reflexivity.
  - rewrite ensure_entry_new by exact C.
    rewrite dict_alter_last by (exact C || apply obj_eqb_refl).
    rewrite forallb_app. apply andb_true_intro. split; [exact A |].
    cbn [forallb]. apply andb_true_intro. split; [exact New | reflexivity].
Qed.

Lemma set_all_nonempty {A} (d : dict string A) (r0 : string)
  (rs : list string) (v : A) :
  set_all d (r0 :: rs) v <> [].
Proof.
  intros E.
  pose proof (set_all_get (r0 :: rs) v d r0) as G.
  rewrite E in G. cbn [dict_get existsb] in G.
  rewrite String.eqb_refl in G. discriminate G.
Qed.

Lemma selects_after_attributes (k : IndyObject) (e : AttrDict * PredDict)
  (r0 : string) (rs : list string) (v : bool * option Z) :
  selects_something (k, with_attributes (r0 :: rs) v e) = true.
Proof.
  unfold with_attributes, selects_something.
  pose proof (set_all_nonempty (fst e) r0 rs v) as N.
  destruct (set_all (fst e) (r0 :: rs) v); [contradiction | reflexivity].
Qed.

Lemma selects_after_predicates (k : IndyObject) (e : AttrDict * PredDict)
  (r0 : string) (rs : list string) (v : option Z) :
  selects_something (k, with_predicates (r0 :: rs) v e) = true.
Proof.
  unfold with_predicates, selects_something.
  pose proof (set_all_nonempty (snd e) r0 rs v) as N.
  destruct (fst e); [| reflexivity].
  destruct (set_all (snd e) (r0 :: rs) v); [contradiction | reflexivity].
Qed.

(** X10.  No credential sits in the accumulator without a selection: the
    property holds of the empty accumulator, every operation keeps it,
    and under it every position of the credentials list built by
    [Presentation.create] is the index of some prove entry. *)
Theorem no_credential_without_entry (self : t) :
  no_idle_credential self = true ->
  no_idle_credential init = true
  /\ (forall cred referents reveal timestamp,
        no_idle_credential
          (add_attributes self cred referents reveal timestamp) = true)
  /\ (forall cred referents timestamp,
        no_idle_credential (add_predicates self cred referents timestamp)
        = true)
  /\ (forall attest,
        no_idle_credential (add_self_attested self attest) = true)
  /\ forall i,
       i < length (fst (Presentation.prove_lists self)) ->
       exists e,
         In e (snd (Presentation.prove_lists self))
         /\ CredentialProve.entry_idx e = i.
Proof.
  unfold no_idle_credential. intros A.
  split; [reflexivity | split; [| split; [| split]]].
  - intros cred [| r0 rs] reveal timestamp; [exact A |].
    rewrite add_attributes_closed. cbn [creds].
    apply forallb_after_alter; [exact A | |];
      intros; apply selects_after_attributes.
  - intros cred [| r0 rs] timestamp; [exact A |].
    rewrite add_predicates_closed. cbn [creds].
    apply forallb_after_alter; [exact A | |];
      intros; apply selects_after_predicates.
  - intros [| kv attest]; exact A.
  - rewrite prove_lists_spec. cbn [fst snd]. rewrite length_map.
    intros i L. apply nth_error_Some in L.
    destruct (nth_error (creds self) i) as [item |] eqn:E;
      [| contradiction].
    rewrite forallb_forall in A.
    pose proof (A item (nth_error_In _ _ E)) as S.
    destruct item as [k [attrs preds]]. unfold selects_something in S.
    destruct attrs as [| a attrs].
    + destruct preds as [| p preds]; [discriminate S |].
      exists (CredentialProve.predicate i (fst p) (snd p)).
      split; [| reflexivity].
      apply entries_from_in. exists i, (k, ([], p :: preds)).
      split; [exact E |]. left. reflexivity.
    + exists (CredentialProve.attribute i (fst a) (fst (snd a))
                                        (snd (snd a))).
      split; [| reflexivity].
      apply entries_from_in. exists i, (k, (a :: attrs, preds)).
      split; [exact E |]. left. reflexivity.
Qed.

Lemma distinct_strings_snoc (l : list string) (x : string) :
  existsb (String.eqb x) l = false ->
  distinct_strings l = true ->
  distinct_strings (l ++ [x]) = true.
Proof.
  induction l as [| y r IH]; cbn [existsb distinct_strings app];
    [reflexivity |].
  intros E D. apply orb_false_elim in E. destruct E as [E0 E].
  apply andb_prop in D. destruct D as [D0 D].
  rewrite (IH E D), existsb_app. cbn [existsb].
  rewrite (String.eqb_sym y x), E0. cbn [orb].
  rewrite orb_false_r, D0. reflexivity.
Qed.

Lemma distinct_strings_NoDup (l : list string) :
  distinct_strings l = true -> NoDup l.
Proof.
  induction l as [| x r IH]; cbn [distinct_strings]; [constructor |].
  intros D. apply andb_prop in D. destruct D as [D0 D].
  apply negb_true_iff in D0. constructor; [| exact (IH D)].
  intros I. rewrite (existsb_eqb_in _ _ I) in D0. discriminate.
Qed.

Lemma set_all_distinct {A} (refs : list string) (v : A)
  (d : dict string A) :
  distinct_strings (keys d) = true ->
  distinct_strings (keys (set_all d refs v)) = true.
Proof.
  unfold set_all. revert d.
  induction refs as [| r0 refs IH]; intros d D; cbn [fold_left];
    [exact D |].
  apply IH. rewrite keys_set.
  destruct (dict_contains String.eqb d r0) eqn:C; [exact D |].
  apply distinct_strings_snoc; [| exact D].
  rewrite <- dict_contains_existsb. exact C.
Qed.

Lemma NoDup_map_keyed {A B} (f : A * B -> CredentialProve.t)
  (l : list (A * B)) :
  (forall a b, f a = f b -> fst a = fst b) ->
  NoDup (map fst l) -> NoDup (map f l).
Proof.
  intros Inj. induction l as [| a l IH]; cbn [map]; intros N;
    [constructor |].
  inversion N as [| x r Nx Nr]. subst. constructor; [| exact (IH Nr)].
  intros I. apply in_map_iff in I. destruct I as (b & E & I).
  apply Nx. apply Inj in E. rewrite <- E. apply in_map. exact I.
Qed.

Lemma entries_at_NoDup (n : nat) item :
  distinct_strings (keys (fst (snd item))) = true ->
  distinct_strings (keys (snd (snd item))) = true ->
  NoDup (entries_at n item).
Proof.
  intros Da Dp. unfold entries_at. apply NoDup_app.
  - apply NoDup_map_keyed;
      [| apply distinct_strings_NoDup; exact Da].
    intros a b E. congruence.
  - apply NoDup_map_keyed;
      [| apply distinct_strings_NoDup; exact Dp].
    intros a b E. congruence.
  - intros e Ia Ip. apply in_map_iff in Ia, Ip.
    destruct Ia as (a & <- & _), Ip as (p & E & _). discriminate E.
Qed.

Lemma entries_from_NoDup (n : nat)
  (items : list (IndyObject * (AttrDict * PredDict))) :
  forallb (fun item => distinct_strings (keys (fst (snd item)))
                       && distinct_strings (keys (snd (snd item))))
          items = true ->
  NoDup (entries_from n items).
Proof.
  revert n. induction items as [| item items IH]; intros n;
    cbn [entries_from forallb]; [constructor |].
  intros D. apply andb_prop in D. destruct D as [D0 D].
  apply andb_prop in D0. destruct D0 as [Da Dp].
  apply NoDup_app; [apply entries_at_NoDup; assumption | exact (IH _ D) |].
  intros e I1 I2. apply entries_at_idx in I1.
  apply entries_from_in in I2. destruct I2 as (i & it & _ & I2).
  apply entries_at_idx in I2. lia.
Qed.

(** X11.  An accumulator whose keys are distinct objects with no referent
    recorded twice under any of them stays so under every operation (the
    empty accumulator is one), and the prove list [Presentation.create]
    builds from it has no entry twice. *)
Theorem prove_entries_distinct (self : t) :
  well_keyed self = true ->
  well_keyed init = true
  /\ (forall cred referents reveal timestamp,
        well_keyed (add_attributes self cred referents reveal timestamp)
        = true)
  /\ (forall cred referents timestamp,
        well_keyed (add_predicates self cred referents timestamp) = true)
  /\ (forall attest, well_keyed (add_self_attested self attest) = true)
  /\ NoDup (snd (Presentation.prove_lists self)).
Proof.
  unfold well_keyed. intros WK.
  pose proof WK as WK'. apply andb_prop in WK'. destruct WK' as [D A].
  split; [reflexivity | split; [| split; [| split]]].
  - intros cred [| r0 rs] reveal timestamp; [exact WK |].
    apply andb_true_intro. split.
    + cbn [add_attributes creds]. apply distinct_after_fold. exact D.
    + rewrite add_attributes_closed. cbn [creds].
      assert (Step : forall (k : IndyObject) (e : AttrDict * PredDict),
                 distinct_strings (keys (fst e))
                 && distinct_strings (keys (snd e)) = true ->
                 distinct_strings
                   (keys (fst (with_attributes (r0 :: rs)
                                               (reveal, timestamp) e)))
                 && distinct_strings
                      (keys (snd (with_attributes (r0 :: rs)
                                                  (reveal, timestamp) e)))
                 = true).
      { intros k e E. apply andb_prop in E. destruct E as [Ea Ep].
        unfold with_attributes. cbn [fst snd].
        rewrite set_all_distinct by exact Ea. exact Ep. }
      apply forallb_after_alter; [exact A | exact Step |].
      apply (Step cred). reflexivity.
  - intros cred [| r0 rs] timestamp; [exact WK |].
    apply andb_true_intro. split.
    + cbn [add_predicates creds]. apply distinct_after_fold. exact D.
    + rewrite add_predicates_closed. cbn [creds].
      assert (Step : forall (k : IndyObject) (e : AttrDict * PredDict),
                 distinct_strings (keys (fst e))
                 && distinct_strings (keys (snd e)) = true ->
                 distinct_strings
                   (keys (fst (with_predicates (r0 :: rs) timestamp e)))
                 && distinct_strings
                      (keys (snd (with_predicates (r0 :: rs) timestamp e)))
                 = true).
      { intros k e E. apply andb_prop in E. destruct E as [Ea Ep].
        unfold with_predicates. cbn [fst snd].
        rewrite Ea, set_all_distinct by exact Ep. reflexivity. }
      apply forallb_after_alter; [exact A | exact Step |].
      apply (Step cred). reflexivity.
  - intros [| kv attest]; exact WK.
  - rewrite prove_lists_spec. cbn [snd]. apply entries_from_NoDup. exact A.
Qed.

End AccumulatorInvariants.

(** ** Results and failures of the constructors *)

Section ConstructorResults.
Context {W : Type} {B : Bindings W}.

Lemma coerce_counter_schema (x : StrOr IndyObject) (rt rt' : Runtime W)
  (o : IndyObject) :
  coerce Schema.from_json x rt = (Ok o, rt') -> next_oid rt <= next_oid rt'.
Proof.
  apply coerce_counter. intros value r r' o'. apply wrapped_counter.
Qed.

(** X12.  When [CredentialDefinition.create] returns, for a serialized or
    a live schema, its three results are objects of the classes
    [CredentialDefinition], [CredentialDefinitionPrivate] and
    [KeyCorrectnessProof], created by the call one after the other (so
    different from each other and from every object that existed
    before), around the three handles the library returned, in the
    library's order, for the handle of the schema. *)
Theorem CredentialDefinition_create_results (origin_did : string)
  (schema : StrOr IndyObject) (signature_type : string)
  (support_revocation : bool) (tag : option string)
  (rt rt' : Runtime W) (o1 o2 o3 : IndyObject) :
  CredentialDefinition.create
    origin_did schema signature_type support_revocation tag rt
  = (Ok (o1, o2, o3), rt') ->
  cls o1 = CCredentialDefinition
  /\ cls o2 = CCredentialDefinitionPrivate
  /\ cls o3 = CKeyCorrectnessProof
  /\ next_oid rt <= oid o1
  /\ oid o2 = S (oid o1)
  /\ oid o3 = S (oid o2)
  /\ next_oid rt' = S (oid o3)
  /\ exists s rt1,
       coerce Schema.from_json schema rt = (Ok s, rt1)
       /\ create_credential_definition
            origin_did (handle s) tag signature_type support_revocation
            (world rt1)
          = (Ok (handle o1, handle o2, handle o3), world rt').
Proof.
  unfold CredentialDefinition.create. intros E.
  apply bind_inv in E. destruct E as (s & rt1 & E0 & E).
  pose proof (coerce_counter_schema _ _ E0) as M.
  apply bind_inv in E. destruct E as ([[h1 h2] h3] & rt2 & E1 & E).
  apply call_inv in E1. destruct E1 as [E1 N1].
  apply bind_inv in E. destruct E as (a1 & rt3 & C1 & E).
  apply bind_inv in E. destruct E as (a2 & rt4 & C2 & E).
  apply bind_inv in E. destruct E as (a3 & rt5 & C3 & E).
  apply construct_inv in C1, C2, C3.
  destruct C1 as [-> ->], C2 as [-> ->], C3 as [-> ->].
  inversion E. subst. cbn [cls oid handle next_oid world].
  repeat split; try lia.
  exists s, rt1. split; [exact E0 | exact E1].
Qed.

(** X13.  When [CredentialRequest.create] returns, its two results are
    objects of the classes [CredentialRequest] and
    [CredentialRequestMetadata], created by the call one after the other,
    around the two handles the library returned, in the library's
    order. *)
Theorem CredentialRequest_create_results (prover_did : string)
  (cred_def master_secret : StrOr IndyObject) (master_secret_id : string)
  (cred_offer : StrOr IndyObject) (rt rt' : Runtime W)
  (o1 o2 : IndyObject) :
  CredentialRequest.create
    prover_did cred_def master_secret master_secret_id cred_offer rt
  = (Ok (o1, o2), rt') ->
  cls o1 = CCredentialRequest
  /\ cls o2 = CCredentialRequestMetadata
  /\ next_oid rt <= oid o1
  /\ oid o2 = S (oid o1)
  /\ next_oid rt' = S (oid o2)
  /\ exists c m o rt1,
       create_credential_request
         prover_did (handle c) (handle m) master_secret_id (handle o)
         (world rt1)
       = (Ok (handle o1, handle o2), world rt').
Proof.
  unfold CredentialRequest.create. intros E.
  apply bind_inv in E. destruct E as (c & r1 & E1 & E).
  apply bind_inv in E. destruct E as (m & r2 & E2 & E).
  apply bind_inv in E. destruct E as (o & r3 & E3 & E).
  apply coerce_counter in E1; [| intros ? ? ? ?; apply wrapped_counter].
  apply coerce_counter in E2; [| intros ? ? ? ?; apply wrapped_counter].
  apply coerce_counter in E3; [| intros ? ? ? ?; apply wrapped_counter].
  apply bind_inv in E. destruct E as ([h1 h2] & r4 & L & E).
  apply call_inv in L. destruct L as [L N].
  apply bind_inv in E. destruct E as (a1 & r5 & C1 & E).
  apply bind_inv in E. destruct E as (a2 & r6 & C2 & E).
  apply construct_inv in C1, C2.
  destruct C1 as [-> ->], C2 as [-> ->].
  inversion E. subst. cbn [cls oid handle next_oid world].
  repeat split; try lia.
  exists c, m, o, r3. exact L.
Qed.

Lemma coerce_deserializes (from_json : string -> Py W IndyObject)
  (x : StrOr IndyObject) (rt : Runtime W) (o : IndyObject)
  (rt' : Runtime W) :
  deserializes_to from_json x rt o rt' ->
  coerce from_json x rt = (Ok o, rt').
Proof.
  destruct x as [value | o']; cbn [deserializes_to coerce].
  - intros E. exact E.
  - intros [-> ->]. reflexivity.
Qed.

Lemma coerce_rejected (from_json : string -> Py W IndyObject)
  (x : StrOr IndyObject) (rt : Runtime W) (e : Error) (rt' : Runtime W) :
  rejected from_json x rt e rt' ->
  coerce from_json x rt = (Raise e, rt').
Proof.
  destruct x as [value | o']; cbn [rejected coerce].
  - intros E. exact E.
  - intros [].
Qed.

Lemma for_each_deserialize (from_json : string -> Py W IndyObject)
  (xs : list (StrOr IndyObject)) (rt : Runtime W) (os : list IndyObject)
  (rt' : Runtime W) :
  all_deserialize from_json xs rt os rt' ->
  for_each (coerce from_json) xs rt = (Ok os, rt').
Proof.
  revert rt os.
  induction xs as [| x xs IH]; intros rt [| o os];
    cbn [all_deserialize for_each].
  - intros ->. reflexivity.
  - intros [].
  - intros [].
  - intros (rt1 & D & A).
    apply coerce_deserializes in D. apply IH in A.
    erewrite (@bind_ok _ _ _ _ _ _ _ _ D).
    erewrite (@bind_ok _ _ _ _ _ _ _ _ A). reflexivity.
Qed.

Lemma for_each_stops_at (from_json : string -> Py W IndyObject)
  (xs : list (StrOr IndyObject)) (rt : Runtime W) (e : Error)
  (rt' : Runtime W) :
  stops_at from_json xs rt e rt' ->
  for_each (coerce from_json) xs rt = (Raise e, rt').
Proof.
  revert rt.
  induction xs as [| x xs IH]; intros rt; cbn [stops_at for_each].
  - intros [].
  - intros [R | (o & rt1 & D & S)].
    + apply coerce_rejected in R. apply bind_raise. exact R.
    + apply coerce_deserializes in D. apply IH in S.
      erewrite (@bind_ok _ _ _ _ _ _ _ _ D).
      apply bind_raise. exact S.
Qed.

Lemma for_each_stops {A R} (f : A -> Py W R) (done : list A) (x : A)
  (rest : list A) (rs : list R) (e : Error) (rt rt1 rt2 : Runtime W) :
  for_each f done rt = (Ok rs, rt1) ->
  f x rt1 = (Raise e, rt2) ->
  for_each f (done ++ x :: rest) rt = (Raise e, rt2).
Proof.
  revert rs rt. induction done as [| a done IH]; intros rs rt D F;
    cbn [for_each app] in *.
  - unfold ret in D. inversion D. subst.
    apply bind_raise. exact F.
  - apply bind_inv in D. destruct D as (b & r1 & Fa & D).
    apply bind_inv in D. destruct D as (bs & r2 & D & Rt).
    unfold ret in Rt. inversion Rt. subst.
    erewrite bind_ok by exact Fa.
    apply bind_raise. exact (IH _ _ D F).
Qed.

(** Every argument either stands for an object or is a rejected
    string. *)
Lemma deserializes_or_rejected (from_json : string -> Py W IndyObject)
  (x : StrOr IndyObject) (rt : Runtime W) :
  (exists e rt', rejected from_json x rt e rt')
  \/ (exists o rt', deserializes_to from_json x rt o rt').
Proof.
  destruct x as [value | o]; cbn [rejected deserializes_to].
  - destruct (from_json value rt) as [[o | e] rt'].
    + right. exists o, rt'. reflexivity.
    + left. exists e, rt'. reflexivity.
  - right. exists o, rt. split; reflexivity.
Qed.

Lemma all_deserialize_or_stop (from_json : string -> Py W IndyObject)
  (xs : list (StrOr IndyObject)) (rt : Runtime W) :
  (exists e rt', stops_at from_json xs rt e rt')
  \/ (exists os rt', all_deserialize from_json xs rt os rt').
Proof.
  revert rt. induction xs as [| x xs IH]; intros rt.
  - right. exists [], rt. reflexivity.
  - destruct (deserializes_or_rejected from_json x rt)
      as [(e & rt' & R) | (o & rt1 & D)].
    + left. exists e, rt'. left. exact R.
    + destruct (IH rt1) as [(e & rt' & S) | (os & rt' & A)].
      * left. exists e, rt'. right. exists o, rt1. split; assumption.
      * right. exists (o :: os), rt', rt1. split; assumption.
Qed.

(** X14.  [Presentation.create] has three outcomes and no other, told by
    the [from_json] calls on the strings among its arguments, taken in
    the order presentation request, master secret, schemas, credential
    definitions.  If one of these calls raises, the method raises that
    error in the state that call left: nothing after the rejected string
    is deserialized and the library is not asked for a presentation.  If
    all of them return, the library is asked once, in the state the last
    call left, for the handles of the objects returned (and of the live
    arguments); when it raises, the method raises that error and creates
    no object, and when it returns a handle the result is one new object
    of class [Presentation] around it.  One of the two cases always
    applies. *)
Theorem Presentation_create_outcome
  (pres_req master_secret : StrOr IndyObject)
  (present_creds : PresentCredentials.t)
  (schemas cred_defs : list (StrOr IndyObject)) (rt : Runtime W) :
  (forall e rt',
     arguments_rejected pres_req master_secret schemas cred_defs rt e rt' ->
     Presentation.create pres_req present_creds master_secret
                         schemas cred_defs rt
     = (Raise e, rt'))
  /\ (forall r m ss cs rt',
        arguments_deserialize pres_req master_secret schemas cred_defs
                              rt r m ss cs rt' ->
        Presentation.create pres_req present_creds master_secret
                            schemas cred_defs rt
        = match create_presentation
                  (handle r) (PresentCredentials.self_attest present_creds)
                  (fst (Presentation.prove_lists present_creds))
                  (snd (Presentation.prove_lists present_creds))
                  (handle m) (map handle ss) (map handle cs) (world rt')
          with
          | (Ok h, w) =>
              (Ok {| oid := next_oid rt'; cls := CPresentation;
                     handle := h |},
               {| next_oid := S (next_oid rt'); world := w |})
          | (Raise e, w) =>
              (Raise e, {| next_oid := next_oid rt'; world := w |})
          end)
  /\ ((exists e rt',
         arguments_rejected pres_req master_secret schemas cred_defs
                            rt e rt')
      \/ (exists r m ss cs rt',
            arguments_deserialize pres_req master_secret schemas cred_defs
                                  rt r m ss cs rt')).
Proof.
  split; [| split].
  - intros e rt' F. rewrite Presentation_create_coerced.
    destruct F as [R | (r & rt1 & D1 & F)].
    { apply coerce_rejected in R. apply bind_raise. exact R. }
    apply coerce_deserializes in D1.
    erewrite (@bind_ok _ _ _ _ _ _ _ _ D1).
    destruct F as [R | (m & rt2 & D2 & F)].
    { apply coerce_rejected in R. apply bind_raise. exact R. }
    apply coerce_deserializes in D2.
    erewrite (@bind_ok _ _ _ _ _ _ _ _ D2).
    destruct F as [S | (ss & rt3 & A & S)].
    { apply for_each_stops_at in S. apply bind_raise. exact S. }
    apply for_each_deserialize in A.
    erewrite (@bind_ok _ _ _ _ _ _ _ _ A).
    apply for_each_stops_at in S. apply bind_raise. exact S.
  - intros r m ss cs rt' (rt1 & rt2 & rt3 & D1 & D2 & A1 & A2).
    rewrite Presentation_create_coerced.
    apply coerce_deserializes in D1, D2.
    apply for_each_deserialize in A1, A2.
    erewrite (@bind_ok _ _ _ _ _ _ _ _ D1).
    erewrite (@bind_ok _ _ _ _ _ _ _ _ D2).
    erewrite (@bind_ok _ _ _ _ _ _ _ _ A1).
    erewrite (@bind_ok _ _ _ _ _ _ _ _ A2).
    rewrite Presentation_create_objects.
    unfold bind, call, construct.
    destruct (create_presentation _ _ _ _ _ _ _ (world rt')) as [[h | e] w];
      reflexivity.
  - unfold arguments_rejected, arguments_deserialize.
    destruct (deserializes_or_rejected
                (fun s => PresentationRequest.from_json (inr s)) pres_req rt)
      as [(e & rt' & R) | (r & rt1 & D1)].
    { left. exists e, rt'. left. exact R. }
    destruct (deserializes_or_rejected
                MasterSecret.from_json master_secret rt1)
      as [(e & rt' & R) | (m & rt2 & D2)].
    { left. exists e, rt'. right. exists r, rt1.
      split; [exact D1 | left; exact R]. }
    destruct (all_deserialize_or_stop Schema.from_json schemas rt2)
      as [(e & rt' & S) | (ss & rt3 & A1)].
    { left. exists e, rt'. right. exists r, rt1. split; [exact D1 |].
      right. exists m, rt2. split; [exact D2 | left; exact S]. }
    destruct (all_deserialize_or_stop
                CredentialDefinition.from_json cred_defs rt3)
      as [(e & rt' & S) | (cs & rt4 & A2)].
    { left. exists e, rt'. right. exists r, rt1. split; [exact D1 |].
      right. exists m, rt2. split; [exact D2 |].
      right. exists ss, rt3. split; [exact A1 | exact S]. }
    right. exists r, m, ss, cs, rt4, rt1, rt2, rt3.
    repeat split; assumption.
Qed.

(** X15.  The comprehension over [schemas] stops at the first string
    that does not deserialize.  Whatever form the presentation request,
    the master secret and the schemas before that string have: once they
    have been deserialized, in this order, and [Schema.from_json] raises
    on the string in the state they left, [Presentation.create] raises
    that error in the state the failed call left.  The schemas after the
    string and the credential definitions are never deserialized and the
    library is not asked for a presentation. *)
Theorem Presentation_create_stops_at_bad_schema
  (pres_req master_secret : StrOr IndyObject)
  (present_creds : PresentCredentials.t)
  (before : list (StrOr IndyObject)) (value : string)
  (after cred_defs : list (StrOr IndyObject))
  (r m : IndyObject) (ss : list IndyObject) (e : Error)
  (rt rt1 rt2 rt3 rt' : Runtime W) :
  deserializes_to (fun s => PresentationRequest.from_json (inr s))
                  pres_req rt r rt1 ->
  deserializes_to MasterSecret.from_json master_secret rt1 m rt2 ->
  all_deserialize Schema.from_json before rt2 ss rt3 ->
  Schema.from_json value rt3 = (Raise e, rt') ->
  Presentation.create pres_req present_creds master_secret
                      (before ++ Str value :: after) cred_defs rt
  = (Raise e, rt').
Proof.
  intros D1 D2 A F. rewrite Presentation_create_coerced.
  apply coerce_deserializes in D1, D2.
  apply for_each_deserialize in A.
  erewrite (@bind_ok _ _ _ _ _ _ _ _ D1).
  erewrite (@bind_ok _ _ _ _ _ _ _ _ D2).
  apply bind_raise.
  eapply for_each_stops; [exact A |].
  unfold Str. cbn [coerce]. exact F.
Qed.

(** On live objects [Credential.process] returns or raises exactly
    as [process_credential] does for their handles: when the library
    returns a handle the result is one new [Credential] object around it,
    and when the library raises, the same error is raised and no object
    is created. *)
Theorem Credential_process_outcome
  (self cred_req_metadata master_secret cred_def : IndyObject)
  (rt : Runtime W) :
  Credential.process self (Obj cred_req_metadata) (Obj master_secret)
                     (Obj cred_def) rt
  = match process_credential
            (handle self) (handle cred_req_metadata) (handle master_secret)
            (handle cred_def) None (world rt)
    with
    | (Ok h, w) =>
        (Ok {| oid := next_oid rt; cls := CCredential; handle := h |},
         {| next_oid := S (next_oid rt); world := w |})
    | (Raise e, w) => (Raise e, {| next_oid := next_oid rt; world := w |})
    end.
Proof.
  unfold Credential.process, Obj. cbn [coerce]. rewrite !bind_ret_l.
  unfold bind, call, construct.
  destruct (process_credential _ _ _ _ _ (world rt)) as [[h | e] w];
    reflexivity.
Qed.

End ConstructorResults.

(** ** Objects created by deserialization *)

Section Allocation.
Context {W : Type} {B : Bindings W}.

Lemma wrapped_alloc (f : Lib W ObjectHandle) (c : Class)
  (rt rt' : Runtime W) (o : IndyObject) :
  (h <- call f ;; construct c h) rt = (Ok o, rt') ->
  next_oid rt' = S (next_oid rt).
Proof.
  intros E. apply bind_inv in E. destruct E as (h & rt1 & E1 & E2).
  apply call_inv in E1. destruct E1 as [_ E1].
  apply construct_inv in E2. destruct E2 as [_ ->]. cbn. lia.
Qed.

Lemma coerce_alloc (from_json : string -> Py W IndyObject)
  (x : StrOr IndyObject) (rt rt' : Runtime W) (o : IndyObject) :
  (forall value r r' o',
     from_json value r = (Ok o', r') -> next_oid r' = S (next_oid r)) ->
  coerce from_json x rt = (Ok o, rt') ->
  next_oid rt' = next_oid rt + serialized_count [x].
Proof.
  intros M. destruct x as [value | o0]; cbn [coerce].
  - intros E. apply M in E. cbn. lia.
  - unfold ret. intros E. inversion E. subst. cbn. lia.
Qed.

Lemma for_each_alloc (from_json : string -> Py W IndyObject)
  (xs : list (StrOr IndyObject)) (os : list IndyObject)
  (rt rt' : Runtime W) :
  (forall value r r' o',
     from_json value r = (Ok o', r') -> next_oid r' = S (next_oid r)) ->
  for_each (coerce from_json) xs rt = (Ok os, rt') ->
  next_oid rt' = next_oid rt + serialized_count xs
  /\ length os = length xs.
Proof.
  intros M. revert os rt.
  induction xs as [| x xs IH]; intros os rt; cbn [for_each].
  - unfold ret. intros E. inversion E. subst. cbn. split; [lia | reflexivity].
  - intros E. apply bind_inv in E. destruct E as (o & r1 & E1 & E).
    apply bind_inv in E. destruct E as (os' & r2 & E2 & E).
    unfold ret in E. inversion E. subst.
    apply coerce_alloc in E1; [| exact M].
    apply IH in E2. destruct E2 as [E2 L].
    split; [| cbn; rewrite L; reflexivity].
    unfold serialized_count in *. cbn [filter length] in *.
    destruct (is_serialized x); cbn [length] in *; lia.
Qed.

(** X16.  Deserialization creates one wrapper object per serialized
    argument and none for a live one: when the arguments of
    [Presentation.create] have been deserialized, the object counter has
    advanced by the number of strings among the presentation request, the
    master secret, the schemas and the credential definitions, and the
    two lists have kept their lengths.  Nothing is shared between equal
    strings. *)
Theorem deserialization_allocates
  (pres_req master_secret : StrOr IndyObject)
  (schemas cred_defs : list (StrOr IndyObject)) (rt rt' : Runtime W)
  (r m : IndyObject) (ss cs : list IndyObject) :
  deserialized_arguments pres_req master_secret schemas cred_defs rt
  = (Ok (r, m, ss, cs), rt') ->
  next_oid rt'
  = next_oid rt
    + serialized_count (pres_req :: master_secret :: schemas ++ cred_defs)
  /\ length ss = length schemas
  /\ length cs = length cred_defs.
Proof.
  unfold deserialized_arguments. intros E.
  apply bind_inv in E. destruct E as (r' & r1 & E1 & E).
  apply bind_inv in E. destruct E as (m' & r2 & E2 & E).
  apply bind_inv in E. destruct E as (ss' & r3 & E3 & E).
  apply bind_inv in E. destruct E as (cs' & r4 & E4 & E).
  unfold ret in E. inversion E. subst.
  apply coerce_alloc in E1; [| intros ? ? ? ?; apply wrapped_alloc].
  apply coerce_alloc in E2; [| intros ? ? ? ?; apply wrapped_alloc].
  apply for_each_alloc in E3; [| intros ? ? ? ?; apply wrapped_alloc].
  apply for_each_alloc in E4; [| intros ? ? ? ?; apply wrapped_alloc].
  destruct E3 as [E3 L3], E4 as [E4 L4].
  split; [| split; assumption].
  unfold serialized_count in *. cbn [filter] in *.
  rewrite filter_app.
  destruct (is_serialized pres_req), (is_serialized master_secret);
    cbn [length] in *; rewrite length_app; lia.
Qed.

End Allocation.

(** ** Runs for the further properties *)

Section MoreRuns.
Import CoreModel Sample SampleArguments.

Lemma selections_independent_witness :
  dict_get obj_eqb
    (PresentCredentials.creds
       (PresentCredentials.add_predicates
          (PresentCredentials.add_attributes
             PresentCredentials.init first_cred ["attr1"] true None)
          second_cred ["pred1"] None)) first_cred
  = dict_get obj_eqb
      (PresentCredentials.creds
         (PresentCredentials.add_attributes
            (PresentCredentials.add_predicates
               PresentCredentials.init second_cred ["pred1"] None)
            first_cred ["attr1"] true None)) first_cred.
Proof.
  apply (@selections_independent
           PresentCredentials.init first_cred second_cred
           ["attr1"] ["pred1"] true None None first_cred).
  reflexivity.
Defined.

Lemma first_selection_appends_witness :
  Presentation.prove_lists
    (PresentCredentials.add_attributes
       two_selected {| oid := 22; cls := CCredential; handle := 4 |}
       ["a"; "b"] false None)
  = (fst (Presentation.prove_lists two_selected) ++ [4],
     snd (Presentation.prove_lists two_selected)
     ++ [CredentialProve.attribute 2 "a" false None;
         CredentialProve.attribute 2 "b" false None]).
Proof.
  apply (@first_selection_appends
           two_selected {| oid := 22; cls := CCredential; handle := 4 |}
           "a" ["b"] false None);
    reflexivity.
Defined.

Lemma no_credential_without_entry_witness :
  exists e,
    In e (snd (Presentation.prove_lists two_selected))
    /\ CredentialProve.entry_idx e = 1.
Proof.
  apply (@no_credential_without_entry two_selected eq_refl).
  cbn. lia.
Defined.

Lemma prove_entries_distinct_witness :
  NoDup (snd (Presentation.prove_lists two_selected)).
Proof. apply (@prove_entries_distinct two_selected eq_refl). Defined.

Lemma CredentialDefinition_create_results_witness :
  cls (fst (fst first_keys)) = CCredentialDefinition
  /\ cls (snd (fst first_keys)) = CCredentialDefinitionPrivate
  /\ cls (snd first_keys) = CKeyCorrectnessProof
  /\ oid (snd first_keys) = S (oid (snd (fst first_keys))).
Proof.
  pose proof (@CredentialDefinition_create_results
                World core "did:issuer" (Obj made_schema) "CL" false None
                after_schema after_first_keys
                (fst (fst first_keys)) (snd (fst first_keys))
                (snd first_keys) eq_refl) as H.
  destruct H as (H1 & H2 & H3 & _ & _ & H6 & _).
  repeat split; assumption.
Defined.

Lemma CredentialRequest_create_results_witness :
  cls the_request = CCredentialRequest
  /\ cls the_metadata = CCredentialRequestMetadata
  /\ oid the_metadata = S (oid the_request).
Proof.
  pose proof (@CredentialRequest_create_results
                World core "did:holder" (Obj (the_cred_def ready))
                (Obj (secret_a ready)) "ms" (Obj (the_offer ready))
                after_setup after_request the_request the_metadata
                eq_refl) as H.
  destruct H as (H1 & H2 & _ & H4 & _).
  repeat split; assumption.
Defined.

Lemma Presentation_create_outcome_witness :
  Presentation.create
    (Str "presentation_request") selection (Obj (secret_a ready))
    [Str "schema"] [Str "nonsense"] after_process
  = (Raise MalformedInput, after_schema_string)
  /\ fst (Presentation.create
            (Str "presentation_request") selection (Obj (secret_a ready))
            [Str "schema"] [Obj (the_cred_def ready)] after_process)
     = Ok {| oid := 13; cls := CPresentation; handle := 12 |}.
Proof.
  split.
  - apply (proj1 (@Presentation_create_outcome
                    World core
                    (Str "presentation_request") (Obj (secret_a ready))
                    selection [Str "schema"] [Str "nonsense"]
                    after_process)).
    right. exists request_read, after_request_string.
    split; [reflexivity |].
    right. exists (secret_a ready), after_request_string.
    split; [split; reflexivity |].
    right. exists [schema_read], after_schema_string.
    split; [exists after_schema_string; split; reflexivity |].
    left. reflexivity.
  - rewrite (proj1 (proj2 (@Presentation_create_outcome
                             World core
                             (Str "presentation_request")
                             (Obj (secret_a ready))
                             selection [Str "schema"]
                             [Obj (the_cred_def ready)] after_process))
               request_read (secret_a ready) [schema_read]
               [the_cred_def ready] after_schema_string).
    + reflexivity.
    + exists after_request_string, after_request_string,
        after_schema_string.
      split; [reflexivity |].
      split; [split; reflexivity |].
      split; [exists after_schema_string; split; reflexivity |].
      exists after_schema_string. split; [split; reflexivity | reflexivity].
Defined.

Lemma Presentation_create_stops_at_bad_schema_witness :
  Presentation.create
    (Str "presentation_request") selection (Obj (secret_a ready))
    ([Str "schema"; Obj (the_schema ready)]
     ++ Str "nonsense" :: [Str "schema"])
    [Str "also nonsense"] after_process
  = (Raise MalformedInput, after_schema_string).
Proof.
  apply (@Presentation_create_stops_at_bad_schema
           World core
           (Str "presentation_request") (Obj (secret_a ready)) selection
           [Str "schema"; Obj (the_schema ready)] "nonsense"
           [Str "schema"] [Str "also nonsense"]
           request_read (secret_a ready) [schema_read; the_schema ready]
           MalformedInput
           after_process after_request_string after_request_string
           after_schema_string after_schema_string).
  - reflexivity.
  - split; reflexivity.
  - exists after_schema_string. split; [reflexivity |].
    exists after_schema_string. split; [split; reflexivity | reflexivity].
  - reflexivity.
Defined.

Lemma deserialization_allocates_witness :
  next_oid (snd arguments_made) = next_oid after_process + 2.
Proof.
  apply (@deserialization_allocates
           World core
           (Str "presentation_request") (Obj (secret_a ready))
           [Str "schema"; Obj (the_schema ready)] []
           after_process (snd arguments_made)
           (fst (fst (fst the_arguments))) (snd (fst (fst the_arguments)))
           (snd (fst the_arguments)) (snd the_arguments)).
  reflexivity.
Defined.

End MoreRuns.
